(** * CRBasic grammar (tree-sitter-crbasic, [grammar.js])

    The repository consists of one tree-sitter grammar.  This development
    embeds it:
    - the terminals, as regular expressions with a matcher and as string
      literals in the spelling of the source ([Regex], [Lexical]);
    - the lexer they define, by longest match with [extras] skipped
      ([Lexer]);
    - the rules, as inductive types of syntax-tree nodes, one constructor
      per alternative, with the leaves each node covers ([Syntax]);
    - the [prec], [prec.left] and [prec.right] annotations, as the
      precedences that settle the shift/reduce conflicts of the expression
      rules, in a shift/reduce parser of expressions ([Parser]) and as the
      condition a tree satisfies when they are respected ([Grammar]).
    The second part proves the properties of these definitions and settles
    the claims of the specification, one theorem per claim.  The last
    part proves further properties of the rules: how blocks and parentheses
    nest ([Blocks]), that a sequence of leaves has one tree, which
    sequences of leaves the rules do not derive, and what the lexical
    rules match. *)

From Stdlib Require Import List String Ascii Bool Arith NArith Lia.
Import ListNotations.

Set Warnings "-register-all".

Local Open Scope string_scope.
Local Open Scope list_scope.
Local Open Scope nat_scope.

(* ================================================================== *)
(** ** Regular expressions of the terminals *)
(* ================================================================== *)

Module Regex.

(** The regular-expression fragment used by [grammar.js]: character
    classes, sequence, alternation, [*], [+] and [?]. *)
Inductive regex : Type :=
| Void
| Eps
| Class (p : ascii -> bool)
| Cat (r s : regex)
| Alt (r s : regex)
| Star (r : regex).

Definition Plus (r : regex) : regex := Cat r (Star r).
Definition Opt (r : regex) : regex := Alt Eps r.

(** Words of a regular expression. *)
Inductive Matches : regex -> list ascii -> Prop :=
| M_eps : Matches Eps []
| M_class p c : p c = true -> Matches (Class p) [c]
| M_cat r s u v : Matches r u -> Matches s v -> Matches (Cat r s) (u ++ v)
| M_alt_l r s w : Matches r w -> Matches (Alt r s) w
| M_alt_r r s w : Matches s w -> Matches (Alt r s) w
| M_star_nil r : Matches (Star r) []
| M_star_cons r u v :
    Matches r u -> Matches (Star r) v -> Matches (Star r) (u ++ v).

Fixpoint nullable (r : regex) : bool :=
  match r with
  | Void => false
  | Eps => true
  | Class _ => false
  | Cat r s => nullable r && nullable s
  | Alt r s => nullable r || nullable s
  | Star _ => true
  end.

(** Constructors that drop the dead and the empty parts, so that the
    derivatives of the grammar's patterns stay small. *)
Definition cat (r s : regex) : regex :=
  match r, s with
  | Void, _ => Void
  | _, Void => Void
  | Eps, _ => s
  | _, _ => Cat r s
  end.

Definition alt (r s : regex) : regex :=
  match r, s with
  | Void, _ => s
  | _, Void => r
  | _, _ => Alt r s
  end.

Fixpoint deriv (c : ascii) (r : regex) : regex :=
  match r with
  | Void => Void
  | Eps => Void
  | Class p => if p c then Eps else Void
  | Cat r s =>
      if nullable r then alt (cat (deriv c r) s) (deriv c s)
      else cat (deriv c r) s
  | Alt r s => alt (deriv c r) (deriv c s)
  | Star r => cat (deriv c r) (Star r)
  end.

Fixpoint matches (r : regex) (w : list ascii) : bool :=
  match w with
  | [] => nullable r
  | c :: w' => matches (deriv c r) w'
  end.

(** [is_void r = true] only when no word matches [r]. *)
Fixpoint is_void (r : regex) : bool :=
  match r with
  | Void => true
  | Eps => false
  | Class _ => false
  | Cat r s => is_void r || is_void s
  | Alt r s => is_void r && is_void s
  | Star _ => false
  end.

(** [starts c r = false] only when no word of [r] begins with [c]. *)
Fixpoint starts (c : ascii) (r : regex) : bool :=
  match r with
  | Void => false
  | Eps => false
  | Class p => p c
  | Cat r s => starts c r || (nullable r && starts c s)
  | Alt r s => starts c r || starts c s
  | Star r => starts c r
  end.

(** Length of the longest prefix of [w] matched by [r], if any: [n] counts
    the characters already consumed, [best] the longest match so far. *)
Fixpoint longest_from (r : regex) (w : list ascii) (n : nat)
         (best : option nat) : option nat :=
  let best' := if nullable r then Some n else best in
  match w with
  | [] => best'
  | c :: w' =>
      if is_void r then best'
      else longest_from (deriv c r) w' (S n) best'
  end.

Definition longest (r : regex) (w : list ascii) : option nat :=
  longest_from r w 0 None.

End Regex.
Import Regex.

(* ================================================================== *)
(** ** Terminals of the grammar *)
(* ================================================================== *)

Module Lexical.
Local Open Scope char_scope.

Definition code (c : ascii) : N := N_of_ascii c.

Definition between (lo hi c : ascii) : bool :=
  (code lo <=? code c)%N && (code c <=? code hi)%N.

Definition chr (x c : ascii) : bool := Ascii.eqb x c.

Definition one_of (cs : list ascii) (c : ascii) : bool :=
  existsb (fun x => Ascii.eqb x c) cs.

(** [\d] *)
Definition digit (c : ascii) : bool := between "0" "9" c.
(** [[0-1]] *)
Definition bin_digit (c : ascii) : bool := between "0" "1" c.
(** [[0-9a-fA-F]] *)
Definition hex_digit (c : ascii) : bool :=
  between "0" "9" c || between "a" "f" c || between "A" "F" c.
(** [[a-zA-Z_]] *)
Definition ident_start (c : ascii) : bool :=
  between "a" "z" c || between "A" "Z" c || chr "_" c.
(** [[a-zA-Z0-9_]] *)
Definition ident_char (c : ascii) : bool :=
  between "a" "z" c || between "A" "Z" c || between "0" "9" c || chr "_" c.
(** [[LlUuFf]] *)
Definition suffix_letter (c : ascii) : bool :=
  one_of ["L"; "l"; "U"; "u"; "F"; "f"] c.
(** [[eE]] and [[+-]] *)
Definition exp_letter (c : ascii) : bool := one_of ["e"; "E"] c.
Definition sign (c : ascii) : bool := one_of ["+"; "-"] c.
(** [\s]: tab, line feed, vertical tab, form feed, carriage return, space *)
Definition space (c : ascii) : bool :=
  one_of ["009"; "010"; "011"; "012"; "013"; " "] c.
(** [[^\r\n]] *)
Definition not_eol (c : ascii) : bool := negb (one_of ["013"; "010"] c).
(** The class of the string rule: every character but the double quote
    and the backslash. *)
Definition not_quote_backslash (c : ascii) : bool :=
  negb (one_of ["034"; "\"] c).
(** [.]: every character but the line feed *)
Definition any_char (c : ascii) : bool := negb (chr "010" c).

(** The sequence of a list of regular expressions. *)
Fixpoint cats (rs : list regex) : regex :=
  match rs with
  | [] => Eps
  | [r] => r
  | r :: rs' => Cat r (cats rs')
  end.

(** The choice of a list of regular expressions. *)
Fixpoint alts (rs : list regex) : regex :=
  match rs with
  | [] => Void
  | [r] => r
  | r :: rs' => Alt r (alts rs')
  end.

Definition D : regex := Class digit.
Definition exponent : list regex := [Class exp_letter; Opt (Class sign); Plus D].

(** [comment: $ => /'[^\r\n]*/] *)
Definition comment : regex := Cat (Class (chr "'")) (Star (Class not_eol)).

(** [identifier: $ => /[a-zA-Z_][a-zA-Z0-9_]*/] *)
Definition identifier : regex := Cat (Class ident_start) (Star (Class ident_char)).

(** The ten alternatives of [number], in the order of the source. *)
Definition number_binary : regex :=          (* /&[bB][0-1]+/ *)
  cats [Class (chr "&"); Class (one_of ["b"; "B"]); Plus (Class bin_digit)].
Definition number_hex : regex :=             (* /&[hH][0-9a-fA-F]+/ *)
  cats [Class (chr "&"); Class (one_of ["h"; "H"]); Plus (Class hex_digit)].
Definition number_integer : regex :=         (* /\d+/ *)
  Plus D.
Definition number_decimal : regex :=         (* /\d+\.\d*/ *)
  cats [Plus D; Class (chr "."); Star D].
Definition number_leading_dot : regex :=     (* /\.\d+/ *)
  cats [Class (chr "."); Plus D].
Definition number_integer_exp : regex :=     (* /\d+[eE][+-]?\d+/ *)
  cats (Plus D :: exponent).
Definition number_decimal_exp : regex :=     (* /\d+\.\d*[eE][+-]?\d+/ *)
  cats ([Plus D; Class (chr "."); Star D] ++ exponent).
Definition number_leading_dot_exp : regex := (* /\.\d+[eE][+-]?\d+/ *)
  cats ([Class (chr "."); Plus D] ++ exponent).
Definition number_integer_suffix : regex :=  (* /\d+[LlUuFf]/ *)
  cats [Plus D; Class suffix_letter].
Definition number_decimal_suffix : regex :=  (* /\d+\.\d*[LlUuFf]/ *)
  cats [Plus D; Class (chr "."); Star D; Class suffix_letter].

(** The eight alternatives written in base ten. *)
Definition number_base_ten : list regex :=
  [number_integer; number_decimal; number_leading_dot;
   number_integer_exp; number_decimal_exp; number_leading_dot_exp;
   number_integer_suffix; number_decimal_suffix].

(** [number: $ => choice(...)] *)
Definition number : regex :=
  alts (number_binary :: number_hex :: number_base_ten).

(** The rule [string]: a double quote, any number of characters that are
    neither a double quote nor a backslash or of pairs of a backslash and a
    character, and a double quote; read as one lexical unit. *)
Definition string_ : regex :=
  cats [Class (chr "034");
        Star (Alt (Class not_quote_backslash)
                  (Cat (Class (chr "\")) (Class any_char)));
        Class (chr "034")].

(** [boolean: $ => choice('True', 'False', 'TRUE', 'FALSE', 'true', 'false')] *)
Definition boolean : list string :=
  ["True"; "False"; "TRUE"; "FALSE"; "true"; "false"]%string.

(** [type: $ => choice('Boolean', ..., 'NSEC')] *)
Definition type : list string :=
  ["Boolean"; "Float"; "Double"; "Long"; "String";
   "FP2"; "IEEE4"; "IEEE8"; "UINT1"; "UINT2"; "UINT4";
   "Bool8"; "NSEC"]%string.

(** The keywords: every alphabetic (or [#]-prefixed) string literal of the
    rules, in the spelling of the source. *)
Definition keywords : list string :=
  ["BeginProg"; "EndProg"; "Function"; "EndFunction"; "Sub"; "EndSub";
   "Dim"; "Public"; "As"; "Const"; "ConstTable"; "EndConstTable";
   "If"; "Then"; "ElseIf"; "Else If"; "Else"; "EndIf";
   "For"; "To"; "Step"; "Next"; "While"; "Wend";
   "Do"; "Loop"; "Until"; "Select"; "Case"; "Is"; "EndSelect";
   "Scan"; "NextScan"; "SubScan"; "NextSubScan";
   "SlowSequence"; "EndSequence";
   "DisplayMenu"; "EndMenu"; "SubMenu"; "EndSubMenu"; "MenuItem";
   "DataTable"; "EndTable"; "CallTable";
   "#If"; "#Else"; "#EndIf"; "#IfDef"; "#UnDef"; "Include";
   "MOD"; "INTDV"; "AND"; "OR"; "XOR"; "IMP"; "NOT"]%string
  ++ boolean ++ type.

(** The operator and punctuation literals of the rules. *)
Definition symbols : list string :=
  ["="; "*="; "+="; "-="; "/="; "\="; "^="; "&=";
   "("; ")"; ",";
   "+"; "-"; "*"; "/"; "^";
   "<>"; "<"; ">"; "<="; ">=";
   "&"; "|"; ">>"; "<<"; "!"]%string.

Definition literals : list string := keywords ++ symbols.

(** A string literal of the grammar matches its own spelling and nothing
    else. *)
Definition literal_matches (lit lexeme : string) : bool := String.eqb lit lexeme.


Definition chars (s : string) : list ascii := list_ascii_of_string s.
Definition text (w : list ascii) : string := string_of_list_ascii w.

Definition is_boolean (lexeme : string) : bool :=
  existsb (fun lit => literal_matches lit lexeme) boolean.
Definition is_number (lexeme : string) : bool := matches number (chars lexeme).
Definition is_identifier (lexeme : string) : bool :=
  matches identifier (chars lexeme).







End Lexical.

(* ================================================================== *)
(** ** Tokens and the lexer *)
(* ================================================================== *)

(** Where two terminals match at one position the generated lexer takes
    the longer match, of two matches of one length the string literal
    rather than the pattern, and of two patterns the one that comes first
    in the grammar.  It tries the terminals the parser can take at that
    position; here every terminal is tried at every position, which gives
    the same token wherever the token found is one the parser can take.
    Characters are bytes: [\s] and [\d] are their ASCII classes. *)

Module Lexer.
Import Lexical.

(** The leaves of a syntax tree: the anonymous string literals of the
    rules and the four lexical rules. *)
Inductive token : Type :=
| Lit (lexeme : string)
| Identifier (lexeme : string)
| Number (lexeme : string)
| String_ (lexeme : string)
| Comment (lexeme : string).

Definition lexeme (t : token) : string :=
  match t with
  | Lit s | Identifier s | Number s | String_ s | Comment s => s
  end.

(** A leaf with its span: the offsets of its first character and of the
    character after its last one. *)
Record leaf : Type := Leaf { tok : token; start : nat; stop : nat }.

Fixpoint is_prefix (p w : list ascii) : bool :=
  match p, w with
  | [], _ => true
  | a :: p', b :: w' => Ascii.eqb a b && is_prefix p' w'
  | _ :: _, [] => false
  end.

(** The longest string literal of the grammar that starts [w]. *)
Definition longest_literal (w : list ascii) : option string :=
  fold_left
    (fun best lit =>
       if is_prefix (chars lit) w then
         match best with
         | Some b => if (String.length b <? String.length lit)%nat then Some lit else best
         | None => Some lit
         end
       else best)
    literals None.

(** The lexical rules, in the order of the source. *)
Definition patterns : list (regex * (string -> token)) :=
  [(comment, Comment); (identifier, Identifier); (number, Number);
   (string_, String_)].

(** The longest match of a lexical rule at the start of [w]; of two rules
    that match the same length the earlier one is kept. *)
Definition longest_pattern (w : list ascii) : option (nat * (string -> token)) :=
  fold_left
    (fun best '(r, mk) =>
       match longest r w with
       | Some n =>
           match best with
           | Some (b, _) => if (b <? n)%nat then Some (n, mk) else best
           | None => Some (n, mk)
           end
       | None => best
       end)
    patterns None.

(** The token that starts [w] and its length: the longest match wins, and a
    string literal wins over a pattern of the same length. *)
Definition next_token (w : list ascii) : option (token * nat) :=
  match longest_literal w, longest_pattern w with
  | Some lit, Some (n, mk) =>
      if (n <=? String.length lit)%nat then Some (Lit lit, String.length lit)
      else Some (mk (text (firstn n w)), n)
  | Some lit, None => Some (Lit lit, String.length lit)
  | None, Some (n, mk) => Some (mk (text (firstn n w)), n)
  | None, None => None
  end.

(** [extras: $ => [/\s/, $.comment]]: a white-space character between two
    tokens is skipped and leaves no node; a comment is a token with a node
    of its own.  [pos] is the offset of the first character of [w]. *)
Fixpoint tokenize_from (fuel pos : nat) (w : list ascii) : option (list leaf) :=
  match fuel with
  | O => None
  | S fuel' =>
      match w with
      | [] => Some []
      | c :: w' =>
          if space c then tokenize_from fuel' (S pos) w'
          else
            match next_token w with
            | Some (t, S n) =>
                match tokenize_from fuel' (pos + S n) (skipn (S n) w) with
                | Some ls => Some (Leaf t pos (pos + S n) :: ls)
                | None => None
                end
            | _ => None
            end
      end
  end.

Definition tokenize (src : string) : option (list leaf) :=
  tokenize_from (S (String.length src)) 0 (chars src).

Definition tokens (src : string) : option (list token) :=
  option_map (map tok) (tokenize src).

(** The source text covered by a span. *)
Definition slice (src : list ascii) (a b : nat) : list ascii :=
  firstn (b - a) (skipn a src).




(** The runs of the lexer over [src] from an offset on: at the end of the
    text no leaf is left; a white-space character is skipped; a token of
    [n] characters becomes a leaf that spans them. *)
Inductive lexed (src : list ascii) : nat -> list leaf -> Prop :=
| lexed_end : lexed src (List.length src) []
| lexed_skip (pos : nat) (c : ascii) (ls : list leaf) :
    nth_error src pos = Some c -> space c = true ->
    lexed src (S pos) ls -> lexed src pos ls
| lexed_token (pos : nat) (t : token) (n : nat) (ls : list leaf) :
    0 < n -> pos + n <= List.length src ->
    slice src pos (pos + n) = chars (lexeme t) ->
    lexed src (pos + n) ls ->
    lexed src pos (Leaf t pos (pos + n) :: ls).




End Lexer.

(* ================================================================== *)
(** ** Syntax trees: one node type per rule *)
(* ================================================================== *)

Module Syntax.
Import Lexical Lexer.

(** [boolean: $ => choice('True', 'False', 'TRUE', 'FALSE', 'true', 'false')] *)
Inductive boolean_literal : Type :=
| B_True | B_False | B_TRUE | B_FALSE | B_true | B_false.

Definition boolean_lexeme (b : boolean_literal) : string :=
  match b with
  | B_True => "True" | B_False => "False"
  | B_TRUE => "TRUE" | B_FALSE => "FALSE"
  | B_true => "true" | B_false => "false"
  end.

(** [type: $ => choice('Boolean', 'Float', ..., 'NSEC')] *)
Inductive type_name : Type :=
| T_Boolean | T_Float | T_Double | T_Long | T_String
| T_FP2 | T_IEEE4 | T_IEEE8 | T_UINT1 | T_UINT2 | T_UINT4
| T_Bool8 | T_NSEC.

Definition type_lexeme (t : type_name) : string :=
  match t with
  | T_Boolean => "Boolean" | T_Float => "Float" | T_Double => "Double"
  | T_Long => "Long" | T_String => "String"
  | T_FP2 => "FP2" | T_IEEE4 => "IEEE4" | T_IEEE8 => "IEEE8"
  | T_UINT1 => "UINT1" | T_UINT2 => "UINT2" | T_UINT4 => "UINT4"
  | T_Bool8 => "Bool8" | T_NSEC => "NSEC"
  end.

(** The operators of [binary_expression]. *)
Inductive binary_operator : Type :=
| Op_add | Op_sub
| Op_mul | Op_div | Op_MOD | Op_INTDV
| Op_pow
| Op_eq | Op_ne | Op_lt | Op_gt | Op_le | Op_ge
| Op_AND | Op_OR | Op_XOR | Op_IMP
| Op_amp | Op_bar
| Op_shr | Op_shl.

Definition binary_lexeme (o : binary_operator) : string :=
  match o with
  | Op_add => "+" | Op_sub => "-"
  | Op_mul => "*" | Op_div => "/" | Op_MOD => "MOD" | Op_INTDV => "INTDV"
  | Op_pow => "^"
  | Op_eq => "=" | Op_ne => "<>" | Op_lt => "<" | Op_gt => ">"
  | Op_le => "<=" | Op_ge => ">="
  | Op_AND => "AND" | Op_OR => "OR" | Op_XOR => "XOR" | Op_IMP => "IMP"
  | Op_amp => "&" | Op_bar => "|"
  | Op_shr => ">>" | Op_shl => "<<"
  end.

(** The operators of [unary_expression]. *)
Inductive unary_operator : Type := Op_neg | Op_pos | Op_NOT | Op_bang.

Definition unary_lexeme (o : unary_operator) : string :=
  match o with
  | Op_neg => "-" | Op_pos => "+" | Op_NOT => "NOT" | Op_bang => "!"
  end.

(** Associativity given to a production by [prec.left], [prec.right] or
    plain [prec]. *)
Inductive associativity : Type := Assoc_left | Assoc_right | Assoc_none.

(** [binary_expression]: the seven [prec.left(n, seq(_expression, choice(...),
    _expression))] alternatives, in the order of the source. *)
Definition binary_expression : list (nat * associativity * list binary_operator) :=
  [(1, Assoc_left, [Op_add; Op_sub]);
   (2, Assoc_left, [Op_mul; Op_div; Op_MOD; Op_INTDV]);
   (3, Assoc_left, [Op_pow]);
   (4, Assoc_left, [Op_eq; Op_ne; Op_lt; Op_gt; Op_le; Op_ge]);
   (5, Assoc_left, [Op_AND; Op_OR; Op_XOR; Op_IMP]);
   (6, Assoc_left, [Op_amp; Op_bar]);
   (7, Assoc_left, [Op_shr; Op_shl])].

(** [unary_expression]: the four [prec(8, seq(op, _expression))]
    alternatives. *)
Definition unary_expression : list (nat * associativity * list unary_operator) :=
  [(8, Assoc_none, [Op_neg]);
   (8, Assoc_none, [Op_pos]);
   (8, Assoc_none, [Op_NOT]);
   (8, Assoc_none, [Op_bang])].

Definition binary_operator_eqb (a b : binary_operator) : bool :=
  String.eqb (binary_lexeme a) (binary_lexeme b).

Definition unary_operator_eqb (a b : unary_operator) : bool :=
  String.eqb (unary_lexeme a) (unary_lexeme b).

(** Precedence and associativity of the production of an operator, looked
    up in the table of its rule. *)
Fixpoint production_of {O : Type} (eqb : O -> O -> bool)
         (table : list (nat * associativity * list O)) (o : O)
  : option (nat * associativity) :=
  match table with
  | [] => None
  | (n, a, ops) :: table' =>
      if existsb (eqb o) ops then Some (n, a) else production_of eqb table' o
  end.

Definition binary_production (o : binary_operator) : nat * associativity :=
  match production_of binary_operator_eqb binary_expression o with
  | Some p => p
  | None => (0, Assoc_none)
  end.

Definition unary_production (o : unary_operator) : nat * associativity :=
  match production_of unary_operator_eqb unary_expression o with
  | Some p => p
  | None => (0, Assoc_none)
  end.

Definition binary_precedence (o : binary_operator) : nat := fst (binary_production o).
Definition unary_precedence (o : unary_operator) : nat := fst (unary_production o).

(** [_expression] with its eight alternatives.  [function_call] is
    [seq(identifier, '(', optional(argument_list), ')')]; the arguments of
    [argument_list] are kept as a list, empty when the list is absent. *)
Inductive expression : Type :=
| E_identifier (name : string)
| E_number (lexeme : string)
| E_string (lexeme : string)
| E_boolean (b : boolean_literal)
| E_binary_expression (left : expression) (op : binary_operator) (right : expression)
| E_unary_expression (op : unary_operator) (operand : expression)
| E_parenthesized_expression (inner : expression)
| E_function_call (name : string) (arguments : list expression).

(** The expressions of one leaf: identifiers and literals. *)
Definition atomic (e : expression) : bool :=
  match e with
  | E_identifier _ | E_number _ | E_string _ | E_boolean _ => true
  | _ => false
  end.

(** Token sequences separated by commas. *)
Fixpoint comma_separated (parts : list (list token)) : list token :=
  match parts with
  | [] => []
  | [p] => p
  | p :: parts' => p ++ Lit "," :: comma_separated parts'
  end.

(** The leaves of an expression, from left to right. *)
Fixpoint yield_expression (e : expression) : list token :=
  match e with
  | E_identifier x => [Identifier x]
  | E_number n => [Number n]
  | E_string s => [String_ s]
  | E_boolean b => [Lit (boolean_lexeme b)]
  | E_binary_expression l o r =>
      yield_expression l ++ Lit (binary_lexeme o) :: yield_expression r
  | E_unary_expression o e' => Lit (unary_lexeme o) :: yield_expression e'
  | E_parenthesized_expression e' => Lit "(" :: yield_expression e' ++ [Lit ")"]
  | E_function_call f args =>
      Identifier f :: Lit "(" ::
        comma_separated (map yield_expression args) ++ [Lit ")"]
  end.

(** The parse a generated parser keeps among the trees of one token
    sequence.  A shift/reduce conflict between a finished production and an
    operator that could extend its last operand is settled for the higher
    precedence and, between equal precedences, by the associativity of the
    finished production: so a binary node of precedence [n] has no right
    operand of precedence [n] or lower, no left operand of lower
    precedence, and a unary node has no binary operand. *)
Definition binds_tighter (n : nat) (e : expression) : bool :=
  match e with
  | E_binary_expression _ o _ => n <? binary_precedence o
  | _ => true
  end.

Definition binds_as_tight (n : nat) (e : expression) : bool :=
  match e with
  | E_binary_expression _ o _ => n <=? binary_precedence o
  | _ => true
  end.

(** [p] holds of every node of the expression. *)
Fixpoint every_node (p : expression -> bool) (e : expression) : bool :=
  p e
  && match e with
     | E_binary_expression l _ r => every_node p l && every_node p r
     | E_unary_expression _ e' => every_node p e'
     | E_parenthesized_expression e' => every_node p e'
     | E_function_call _ args => forallb (every_node p) args
     | _ => true
     end.

Definition is_binary (e : expression) : bool :=
  match e with
  | E_binary_expression _ _ _ => true
  | _ => false
  end.

(** The binary nodes of a given precedence. *)
Definition has_precedence (n : nat) (e : expression) : bool :=
  match e with
  | E_binary_expression _ o _ => binary_precedence o =? n
  | _ => false
  end.

(** A node of precedence [inner] is not an operand of a node of precedence
    [outer]. *)
Definition not_operand_of (inner outer : nat) (e : expression) : bool :=
  match e with
  | E_binary_expression l _ r =>
      negb (has_precedence outer e)
      || negb (has_precedence inner l || has_precedence inner r)
  | _ => true
  end.

(** The right operand of a binary node is not a binary node of the same
    precedence, and the operand of a unary node is not a binary node. *)
Definition groups_left (e : expression) : bool :=
  match e with
  | E_binary_expression _ o r => negb (has_precedence (binary_precedence o) r)
  | E_unary_expression _ e' => negb (is_binary e')
  | _ => true
  end.

Fixpoint prec_ok (e : expression) : bool :=
  match e with
  | E_binary_expression l o r =>
      binds_as_tight (binary_precedence o) l
      && binds_tighter (binary_precedence o) r
      && prec_ok l && prec_ok r
  | E_unary_expression o e' =>
      binds_tighter (unary_precedence o) e' && prec_ok e'
  | E_parenthesized_expression e' => prec_ok e'
  | E_function_call _ args => forallb prec_ok args
  | _ => true
  end.

(** The operands that are no binary nodes, and respect the precedences
    within: identifiers, literals, calls, parenthesised and unary
    expressions. *)
Definition operand_expression (e : expression) : bool :=
  negb (is_binary e) && prec_ok e.

(** [choice('Dim', 'Public')] of [variable_declaration]. *)
Inductive declaration_keyword : Type := K_Dim | K_Public.

Definition declaration_lexeme (k : declaration_keyword) : string :=
  match k with K_Dim => "Dim" | K_Public => "Public" end.

(** [choice('=', '*=', '+=', '-=', '/=', '\\=', '^=', '&=')] of
    [assignment]. *)
Inductive assignment_operator : Type :=
| A_set | A_mul | A_add | A_sub | A_div | A_intdiv | A_pow | A_amp.

Definition assignment_lexeme (a : assignment_operator) : string :=
  match a with
  | A_set => "=" | A_mul => "*=" | A_add => "+=" | A_sub => "-="
  | A_div => "/=" | A_intdiv => "\=" | A_pow => "^=" | A_amp => "&="
  end.

(** [choice('ElseIf', 'Else If')] of [if_statement]. *)
Inductive elseif_keyword : Type := K_ElseIf | K_Else_If.

Definition elseif_lexeme (k : elseif_keyword) : string :=
  match k with K_ElseIf => "ElseIf" | K_Else_If => "Else If" end.

(** [menu_item: $ => seq('MenuItem', $.string, $.identifier)] *)
Inductive menu_item : Type :=
| Menu_item (label : string) (name : string).

(** The end of [do_loop]: [choice(seq('Loop', 'Until', _expression),
    seq('Loop', 'While', _expression), 'Loop')]. *)
Inductive loop_tail : Type :=
| Loop_Until (condition : expression)
| Loop_While (condition : expression)
| Loop_bare.

(** [_statement] with the alternatives of its eleven rules; the clauses of
    [if_statement] and [select_statement] are node types of their own. *)
Inductive statement : Type :=
(* comment *)
| S_comment (lexeme : string)
(* program_structure *)
| S_BeginProg (body : list statement)
| S_Function (name : string) (parameter_list : option (list string))
             (body : list statement)
| S_Sub (name : string) (parameter_list : option (list string))
        (body : list statement)
(* variable_declaration *)
| S_variable_declaration (keyword : declaration_keyword) (name : string)
                         (as_type : option type_name)
(* constant_declaration *)
| S_Const (name : string) (value : expression)
| S_ConstTable (entries : list (string * expression))
(* assignment *)
| S_assignment (name : string) (op : assignment_operator) (value : expression)
(* function_call *)
| S_function_call (name : string) (arguments : list expression)
(* control_structure *)
| S_if_statement (condition : expression) (body : list statement)
                 (elseifs : list elseif_clause)
                 (else_body : option (list statement))
| S_for_loop (variable : string) (start_ : expression) (end_ : expression)
             (step : option expression) (body : list statement)
             (variable_end : option string)
| S_while_loop (condition : expression) (body : list statement)
| S_do_loop (body : list statement) (tail : loop_tail)
| S_select_statement (subject : expression) (cases : list case_clause)
(* scan_structure *)
| S_Scan (interval : expression) (units : string) (buffer : expression)
         (count : expression) (body : list statement)
| S_SubScan (interval : expression) (units : string) (body : list statement)
| S_SlowSequence (body : list statement)
(* menu_structure *)
| S_DisplayMenu (items : list menu_item)
| S_SubMenu (name : string) (items : list menu_item)
(* table_structure *)
| S_DataTable (name : string) (trigger : boolean_literal) (size : expression)
              (body : list statement)
| S_CallTable (name : string)
(* preprocessor_directive *)
| S_hash_If (condition : expression) (body : list statement)
            (else_body : option (list statement))
| S_hash_IfDef (name : string) (body : list statement)
               (else_body : option (list statement))
| S_hash_UnDef (name : string)
| S_Include (path : string)
with elseif_clause : Type :=
| Elseif_clause (keyword : elseif_keyword) (condition : expression)
                (body : list statement)
with case_clause : Type :=
| Case_value (value : expression) (body : list statement)
| Case_Is (value : expression) (body : list statement)
| Case_Else (body : list statement).

(** [source_file: $ => repeat($._statement)] *)
Definition source_file : Type := list statement.

(** The rule of [_statement] a node belongs to, and its spelling among the
    node kinds of the specification. *)
Definition rule_of (s : statement) : string :=
  match s with
  | S_comment _ => "comment"
  | S_BeginProg _ | S_Function _ _ _ | S_Sub _ _ _ => "program_structure"
  | S_variable_declaration _ _ _ => "variable_declaration"
  | S_Const _ _ | S_ConstTable _ => "constant_declaration"
  | S_assignment _ _ _ => "assignment"
  | S_function_call _ _ => "function_call"
  | S_if_statement _ _ _ _ => "if_statement"
  | S_for_loop _ _ _ _ _ _ => "for_loop"
  | S_while_loop _ _ => "while_loop"
  | S_do_loop _ _ => "do_loop"
  | S_select_statement _ _ => "select_statement"
  | S_Scan _ _ _ _ _ | S_SubScan _ _ _ | S_SlowSequence _ => "scan_structure"
  | S_DisplayMenu _ | S_SubMenu _ _ => "menu_structure"
  | S_DataTable _ _ _ _ | S_CallTable _ => "table_structure"
  | S_hash_If _ _ _ | S_hash_IfDef _ _ _ | S_hash_UnDef _ | S_Include _ =>
      "preprocessor_directive"
  end.

(** [parameter_list: $ => seq('(', optional(seq(identifier,
    repeat(seq(',', identifier)))), ')')] *)
Definition yield_parameter_list (ps : list string) : list token :=
  Lit "(" :: comma_separated (map (fun p => [Identifier p]) ps) ++ [Lit ")"].

Definition yield_optional {A : Type} (f : A -> list token) (o : option A)
  : list token :=
  match o with
  | Some a => f a
  | None => []
  end.

Definition yield_menu_item (m : menu_item) : list token :=
  match m with
  | Menu_item label name => [Lit "MenuItem"; String_ label; Identifier name]
  end.

Definition yield_loop_tail (t : loop_tail) : list token :=
  match t with
  | Loop_Until e => Lit "Loop" :: Lit "Until" :: yield_expression e
  | Loop_While e => Lit "Loop" :: Lit "While" :: yield_expression e
  | Loop_bare => [Lit "Loop"]
  end.

(** The leaves of a statement, from left to right: each [seq] of the source
    read off token by token. *)
Fixpoint yield_statement (s : statement) : list token :=
  match s with
  | S_comment c => [Comment c]
  | S_BeginProg body =>
      Lit "BeginProg" :: flat_map yield_statement body ++ [Lit "EndProg"]
  | S_Function f ps body =>
      Lit "Function" :: Identifier f :: yield_optional yield_parameter_list ps
        ++ flat_map yield_statement body ++ [Lit "EndFunction"]
  | S_Sub f ps body =>
      Lit "Sub" :: Identifier f :: yield_optional yield_parameter_list ps
        ++ flat_map yield_statement body ++ [Lit "EndSub"]
  | S_variable_declaration k x ty =>
      Lit (declaration_lexeme k) :: Identifier x ::
        yield_optional (fun t => [Lit "As"; Lit (type_lexeme t)]) ty
  | S_Const x e => Lit "Const" :: Identifier x :: Lit "=" :: yield_expression e
  | S_ConstTable entries =>
      Lit "ConstTable" ::
        flat_map (fun xe => Identifier (fst xe) :: Lit "=" :: yield_expression (snd xe))
                 entries
        ++ [Lit "EndConstTable"]
  | S_assignment x a e =>
      Identifier x :: Lit (assignment_lexeme a) :: yield_expression e
  | S_function_call f args =>
      Identifier f :: Lit "(" ::
        comma_separated (map yield_expression args) ++ [Lit ")"]
  | S_if_statement c body elseifs else_body =>
      Lit "If" :: yield_expression c ++ Lit "Then" ::
        flat_map yield_statement body
        ++ flat_map yield_elseif_clause elseifs
        ++ match else_body with
           | Some b => Lit "Else" :: flat_map yield_statement b
           | None => []
           end
        ++ [Lit "EndIf"]
  | S_for_loop x e1 e2 step body x_end =>
      Lit "For" :: Identifier x :: Lit "=" :: yield_expression e1
        ++ Lit "To" :: yield_expression e2
        ++ yield_optional (fun e => Lit "Step" :: yield_expression e) step
        ++ flat_map yield_statement body
        ++ Lit "Next" :: yield_optional (fun y => [Identifier y]) x_end
  | S_while_loop c body =>
      Lit "While" :: yield_expression c
        ++ flat_map yield_statement body ++ [Lit "Wend"]
  | S_do_loop body tail =>
      Lit "Do" :: flat_map yield_statement body ++ yield_loop_tail tail
  | S_select_statement e cases =>
      Lit "Select" :: Lit "Case" :: yield_expression e
        ++ flat_map yield_case_clause cases ++ [Lit "EndSelect"]
  | S_Scan e1 u e2 e3 body =>
      Lit "Scan" :: Lit "(" :: yield_expression e1
        ++ Lit "," :: Identifier u
        :: Lit "," :: yield_expression e2
        ++ Lit "," :: yield_expression e3
        ++ Lit ")" :: flat_map yield_statement body ++ [Lit "NextScan"]
  | S_SubScan e u body =>
      Lit "SubScan" :: Lit "(" :: yield_expression e
        ++ Lit "," :: Identifier u
        :: Lit ")" :: flat_map yield_statement body ++ [Lit "NextSubScan"]
  | S_SlowSequence body =>
      Lit "SlowSequence" :: flat_map yield_statement body ++ [Lit "EndSequence"]
  | S_DisplayMenu items =>
      Lit "DisplayMenu" :: flat_map yield_menu_item items ++ [Lit "EndMenu"]
  | S_SubMenu x items =>
      Lit "SubMenu" :: Identifier x ::
        flat_map yield_menu_item items ++ [Lit "EndSubMenu"]
  | S_DataTable x b e body =>
      Lit "DataTable" :: Identifier x :: Lit (boolean_lexeme b) ::
        yield_expression e ++ flat_map yield_statement body ++ [Lit "EndTable"]
  | S_CallTable x => [Lit "CallTable"; Identifier x]
  | S_hash_If e body else_body =>
      Lit "#If" :: yield_expression e ++ flat_map yield_statement body
        ++ match else_body with
           | Some b => Lit "#Else" :: flat_map yield_statement b
           | None => []
           end
        ++ [Lit "#EndIf"]
  | S_hash_IfDef x body else_body =>
      Lit "#IfDef" :: Identifier x :: flat_map yield_statement body
        ++ match else_body with
           | Some b => Lit "#Else" :: flat_map yield_statement b
           | None => []
           end
        ++ [Lit "#EndIf"]
  | S_hash_UnDef x => [Lit "#UnDef"; Identifier x]
  | S_Include p => [Lit "Include"; String_ p]
  end
with yield_elseif_clause (c : elseif_clause) : list token :=
  match c with
  | Elseif_clause k e body =>
      Lit (elseif_lexeme k) :: yield_expression e ++ Lit "Then" ::
        flat_map yield_statement body
  end
with yield_case_clause (c : case_clause) : list token :=
  match c with
  | Case_value e body =>
      Lit "Case" :: yield_expression e ++ flat_map yield_statement body
  | Case_Is e body =>
      Lit "Case" :: Lit "Is" :: yield_expression e ++ flat_map yield_statement body
  | Case_Else body =>
      Lit "Case" :: Lit "Else" :: flat_map yield_statement body
  end.

(** The leaves of a source file. *)
Definition yield (f : source_file) : list token := flat_map yield_statement f.

(** The token a statement begins with. *)
Definition first_token (s : statement) : token :=
  match s with
  | S_comment c => Comment c
  | S_BeginProg _ => Lit "BeginProg"
  | S_Function _ _ _ => Lit "Function"
  | S_Sub _ _ _ => Lit "Sub"
  | S_variable_declaration k _ _ => Lit (declaration_lexeme k)
  | S_Const _ _ => Lit "Const"
  | S_ConstTable _ => Lit "ConstTable"
  | S_assignment x _ _ => Identifier x
  | S_function_call f _ => Identifier f
  | S_if_statement _ _ _ _ => Lit "If"
  | S_for_loop _ _ _ _ _ _ => Lit "For"
  | S_while_loop _ _ => Lit "While"
  | S_do_loop _ _ => Lit "Do"
  | S_select_statement _ _ => Lit "Select"
  | S_Scan _ _ _ _ _ => Lit "Scan"
  | S_SubScan _ _ _ => Lit "SubScan"
  | S_SlowSequence _ => Lit "SlowSequence"
  | S_DisplayMenu _ => Lit "DisplayMenu"
  | S_SubMenu _ _ => Lit "SubMenu"
  | S_DataTable _ _ _ _ => Lit "DataTable"
  | S_CallTable _ => Lit "CallTable"
  | S_hash_If _ _ _ => Lit "#If"
  | S_hash_IfDef _ _ _ => Lit "#IfDef"
  | S_hash_UnDef _ => Lit "#UnDef"
  | S_Include _ => Lit "Include"
  end.

(** The first token of a token sequence is one of the given literals. *)
Definition starts_with_one_of (lits : list string) (ts : list token) : bool :=
  match ts with
  | Lit s :: _ => existsb (String.eqb s) lits
  | _ => false
  end.

End Syntax.

(* ================================================================== *)
(** ** The expression parser: shift/reduce with precedence *)
(* ================================================================== *)

Module Parser.
Import Lexer Syntax.

Inductive action : Type := Shift | Reduce | Conflict.

(** How the parser generator settles a shift/reduce conflict: [reduce] is
    the precedence and associativity of the production that could be
    finished, [shift] the precedence of the production the next token would
    continue.  The higher precedence wins; between equal precedences a
    left-associative production is finished, a right-associative one is
    continued, and without associativity the conflict stays. *)
Definition resolve (reduce : nat * associativity) (shift : nat) : action :=
  let (n, a) := reduce in
  if shift <? n then Reduce
  else if n <? shift then Shift
  else match a with
       | Assoc_left => Reduce
       | Assoc_right => Shift
       | Assoc_none => Conflict
       end.

Definition binary_operators : list binary_operator :=
  flat_map snd binary_expression.

Definition unary_operators : list unary_operator :=
  flat_map snd unary_expression.

Definition boolean_literals : list boolean_literal :=
  [B_True; B_False; B_TRUE; B_FALSE; B_true; B_false].

Definition as_binary_operator (t : token) : option binary_operator :=
  match t with
  | Lit s => find (fun o => String.eqb (binary_lexeme o) s) binary_operators
  | _ => None
  end.

Definition as_unary_operator (t : token) : option unary_operator :=
  match t with
  | Lit s => find (fun o => String.eqb (unary_lexeme o) s) unary_operators
  | _ => None
  end.

Definition as_boolean (t : token) : option boolean_literal :=
  match t with
  | Lit s => find (fun b => String.eqb (boolean_lexeme b) s) boolean_literals
  | _ => None
  end.

(** The tokens an expression is made of: identifiers, numbers, strings and
    the literals of the expression rules. *)
Definition expression_literals : list string :=
  map binary_lexeme binary_operators ++ map unary_lexeme unary_operators
  ++ map boolean_lexeme boolean_literals ++ ["("; ")"; ","].

Definition expression_token (t : token) : bool :=
  match t with
  | Identifier _ | Number _ | String_ _ => true
  | Lit s => existsb (String.eqb s) expression_literals
  | Comment _ => false
  end.

(** The productions under way, innermost first: a binary expression that
    waits for its right operand, a unary expression that waits for its
    operand, an open parenthesis, a call with the arguments read so far
    (last one first). *)
Inductive frame : Type :=
| F_binary (left : expression) (op : binary_operator)
| F_unary (op : unary_operator)
| F_paren
| F_call (name : string) (done : list expression).

Record config : Type :=
  Config { stack : list frame; operand : option expression; input : list token }.

Inductive outcome : Type :=
| Running (c : config)
| Accepted (e : expression)
| Rejected
| Unresolved.

(** The production of a frame that the operand [e] completes, with its
    precedence and associativity; an open parenthesis or call is not
    completed by an operand. *)
Definition finish (f : frame) (e : expression)
  : option (nat * associativity * expression) :=
  match f with
  | F_binary l o => Some (binary_production o, E_binary_expression l o e)
  | F_unary o => Some (unary_production o, E_unary_expression o e)
  | F_paren | F_call _ _ => None
  end.

Definition frame_production (f : frame) : option (nat * associativity) :=
  match f with
  | F_binary _ o => Some (binary_production o)
  | F_unary o => Some (unary_production o)
  | F_paren | F_call _ _ => None
  end.

(** The token [t] after the operand [e] of an open parenthesis or call. *)
Definition close (f : frame) (fs : list frame) (e : expression)
           (t : token) (rest : list token) : outcome :=
  match f, t with
  | F_paren, Lit s =>
      if String.eqb s ")"
      then Running (Config fs (Some (E_parenthesized_expression e)) rest)
      else Rejected
  | F_call g done, Lit s =>
      if String.eqb s ")"
      then Running (Config fs (Some (E_function_call g (rev (e :: done)))) rest)
      else if String.eqb s ","
      then Running (Config (F_call g (e :: done) :: fs) None rest)
      else Rejected
  | _, _ => Rejected
  end.

(** With the operand [e] read.  Before a binary operator the innermost
    production is finished or the operator is read, as [resolve] settles
    it; before any other token, and at the end, it is finished. *)
Definition step_operand (fs : list frame) (e : expression) (ts : list token)
  : outcome :=
  match ts with
  | t :: rest =>
      match as_binary_operator t with
      | Some o =>
          let shifted := Running (Config (F_binary e o :: fs) None rest) in
          match fs with
          | f :: fs' =>
              match finish f e with
              | Some (p, e') =>
                  match resolve p (binary_precedence o) with
                  | Reduce => Running (Config fs' (Some e') ts)
                  | Shift => shifted
                  | Conflict => Unresolved
                  end
              | None => shifted
              end
          | [] => shifted
          end
      | None =>
          match fs with
          | f :: fs' =>
              match finish f e with
              | Some (_, e') => Running (Config fs' (Some e') ts)
              | None => close f fs' e t rest
              end
          | [] => Rejected
          end
      end
  | [] =>
      match fs with
      | f :: fs' =>
          match finish f e with
          | Some (_, e') => Running (Config fs' (Some e') [])
          | None => Rejected
          end
      | [] => Accepted e
      end
  end.

Definition starts_with_open (ts : list token) : bool :=
  match ts with
  | Lit s :: _ => String.eqb s "("
  | _ => false
  end.

(** With an operand expected: a literal, an identifier (the name of a call
    when a parenthesis follows), a unary operator, an open parenthesis, or
    the parenthesis that closes a call without arguments. *)
Definition step_start (fs : list frame) (ts : list token) : outcome :=
  match ts with
  | Number n :: rest => Running (Config fs (Some (E_number n)) rest)
  | String_ s :: rest => Running (Config fs (Some (E_string s)) rest)
  | Identifier x :: rest =>
      if starts_with_open rest
      then Running (Config (F_call x [] :: fs) None (tl rest))
      else Running (Config fs (Some (E_identifier x)) rest)
  | Lit s :: rest =>
      match as_boolean (Lit s), as_unary_operator (Lit s) with
      | Some b, _ => Running (Config fs (Some (E_boolean b)) rest)
      | None, Some o => Running (Config (F_unary o :: fs) None rest)
      | None, None =>
          if String.eqb s "(" then Running (Config (F_paren :: fs) None rest)
          else
            match fs with
            | F_call g [] :: fs' =>
                if String.eqb s ")"
                then Running (Config fs' (Some (E_function_call g [])) rest)
                else Rejected
            | _ => Rejected
            end
      end
  | _ => Rejected
  end.

Definition step (c : config) : outcome :=
  match operand c with
  | Some e => step_operand (stack c) e (input c)
  | None => step_start (stack c) (input c)
  end.

Fixpoint run (fuel : nat) (c : config) : outcome :=
  match fuel with
  | O => Running c
  | S fuel' =>
      match step c with
      | Running c' => run fuel' c'
      | o => o
      end
  end.

(** The parser gets from [c] to [c'] in a number of steps. *)
Definition reads (c c' : config) : Prop :=
  exists k, forall m, run (k + m) c = run m c'.

(** Every step reads a token or finishes a production, and a production is
    begun by a token: twice the number of tokens, and one step to accept,
    are enough. *)
Definition parse_expression (ts : list token) : option expression :=
  match run (2 * List.length ts + 1) (Config [] None ts) with
  | Accepted e => Some e
  | _ => None
  end.

(** From source text to the tree of an expression. *)
Definition parse_expression_text (src : string) : option expression :=
  match tokens src with
  | Some ts => parse_expression ts
  | None => None
  end.

(** What is left to do: every step reads a token or finishes a production
    that a token began. *)
Definition work_left (c : config) : nat :=
  2 * List.length (input c) + List.length (stack c).

(** *** What a configuration has read, and how it is nested *)

(** The tokens of a frame that come before its pending operand. *)
Definition frame_tokens (f : frame) : list token :=
  match f with
  | F_binary l o => yield_expression l ++ [Lit (binary_lexeme o)]
  | F_unary o => [Lit (unary_lexeme o)]
  | F_paren => [Lit "("]
  | F_call g done =>
      Identifier g :: Lit "(" ::
        flat_map (fun a => yield_expression a ++ [Lit ","]) (rev done)
  end.

Fixpoint stack_tokens (fs : list frame) : list token :=
  match fs with
  | [] => []
  | f :: fs' => stack_tokens fs' ++ frame_tokens f
  end.

(** The tokens read so far. *)
Definition consumed (c : config) : list token :=
  stack_tokens (stack c)
  ++ match operand c with
     | Some e => yield_expression e
     | None => []
     end.

Definition frame_precedence (f : frame) : option nat :=
  option_map fst (frame_production f).

Definition above_precedence (fs : list frame) (p : nat -> bool) : bool :=
  match fs with
  | f :: _ =>
      match frame_precedence f with
      | Some n => p n
      | None => true
      end
  | [] => true
  end.

(** A pending binary expression has a left operand it may take, and binds
    tighter than the production it is nested in. *)
Definition frame_ok (f : frame) (below : list frame) : bool :=
  match f with
  | F_binary l o =>
      prec_ok l && binds_as_tight (binary_precedence o) l
      && above_precedence below (fun n => n <? binary_precedence o)
  | F_unary _ | F_paren => true
  | F_call _ done => forallb prec_ok done
  end.

Fixpoint stack_ok (fs : list frame) : bool :=
  match fs with
  | [] => true
  | f :: fs' => frame_ok f fs' && stack_ok fs'
  end.

(** The operand just read may end the innermost production, and may be the
    left operand of the operator that comes next. *)
Definition operand_ok (fs : list frame) (e : expression) (ts : list token) : bool :=
  prec_ok e
  && above_precedence fs (fun n => binds_tighter n e)
  && match ts with
     | t :: _ =>
         match as_binary_operator t with
         | Some o => binds_as_tight (binary_precedence o) e
         | None => true
         end
     | [] => true
     end.

(** The token after an expression leaves the expression whole: it is no
    parenthesis that would make a call of a final identifier, and no binary
    operator that would take the last operand away. *)
Definition follows_ok (e : expression) (ts : list token) : bool :=
  negb (starts_with_open ts)
  && match ts with
     | t :: _ =>
         match as_binary_operator t with
         | Some o => binds_as_tight (binary_precedence o) e
         | None => true
         end
     | [] => true
     end.

Definition config_ok (c : config) : bool :=
  stack_ok (stack c)
  && match operand c with
     | Some e => operand_ok (stack c) e (input c)
     | None => true
     end.

End Parser.

(* ================================================================== *)
(** ** The trees the grammar accepts *)
(* ================================================================== *)

Module Grammar.
Import Lexical Lexer Syntax.

Definition is_string (lexeme : string) : bool := matches string_ (chars lexeme).
Definition is_comment (lexeme : string) : bool := matches comment (chars lexeme).

(** Every leaf of the expression is a lexeme of its rule. *)
Fixpoint lexemes_ok (e : expression) : bool :=
  match e with
  | E_identifier x => is_identifier x
  | E_number n => is_number n
  | E_string s => is_string s
  | E_boolean _ => true
  | E_binary_expression l _ r => lexemes_ok l && lexemes_ok r
  | E_unary_expression _ e' => lexemes_ok e'
  | E_parenthesized_expression e' => lexemes_ok e'
  | E_function_call f args => is_identifier f && forallb lexemes_ok args
  end.

(** An expression the grammar derives, with its operators nested as the
    precedences settle it. *)
Definition valid_expression (e : expression) : bool :=
  lexemes_ok e && prec_ok e.

Definition valid_optional {A : Type} (f : A -> bool) (o : option A) : bool :=
  match o with
  | Some a => f a
  | None => true
  end.

Definition valid_menu_item (m : menu_item) : bool :=
  match m with
  | Menu_item label name => is_string label && is_identifier name
  end.

Definition valid_loop_tail (t : loop_tail) : bool :=
  match t with
  | Loop_Until e | Loop_While e => valid_expression e
  | Loop_bare => true
  end.

Definition starts_with_identifier (ts : list token) : bool :=
  match ts with
  | Identifier _ :: _ => true
  | _ => false
  end.

Definition starts_with_literal (lit : string) (ts : list token) : bool :=
  match ts with
  | Lit s :: _ => String.eqb lit s
  | _ => false
  end.

(** [for_loop] and [do_loop] are wrapped in [prec.right]: after [Next] an
    identifier is always read as the closing name of the loop, and after
    [Loop] a [While] or [Until] always as its condition.  So a loop that
    ends at [Next] or at a bare [Loop] is not followed by a statement that
    begins with such a token. *)
Definition continued_by (s : statement) (following : list token) : bool :=
  match s with
  | S_for_loop _ _ _ _ _ None => starts_with_identifier following
  | S_do_loop _ Loop_bare =>
      starts_with_literal "While" following || starts_with_literal "Until" following
  | _ => false
  end.

Fixpoint right_associative_ok (ss : list statement) : bool :=
  match ss with
  | s :: (next :: _) as rest =>
      negb (continued_by s (yield_statement next)) && right_associative_ok rest
  | _ => true
  end.

(** A statement the grammar derives, with every leaf a lexeme of its rule
    and every conflict settled as the precedences say. *)
Fixpoint valid_statement (s : statement) : bool :=
  match s with
  | S_comment c => is_comment c
  | S_BeginProg body =>
      forallb valid_statement body && right_associative_ok body
  | S_Function f ps body | S_Sub f ps body =>
      is_identifier f && valid_optional (forallb is_identifier) ps
      && forallb valid_statement body && right_associative_ok body
  | S_variable_declaration _ x _ => is_identifier x
  | S_Const x e => is_identifier x && valid_expression e
  | S_ConstTable entries =>
      forallb (fun xe => is_identifier (fst xe) && valid_expression (snd xe)) entries
  | S_assignment x _ e => is_identifier x && valid_expression e
  | S_function_call f args => is_identifier f && forallb valid_expression args
  | S_if_statement c body elseifs else_body =>
      valid_expression c
      && forallb valid_statement body && right_associative_ok body
      && forallb valid_elseif_clause elseifs
      && match else_body with
         | Some b => forallb valid_statement b && right_associative_ok b
         | None => true
         end
  | S_for_loop x e1 e2 step body x_end =>
      is_identifier x && valid_expression e1 && valid_expression e2
      && valid_optional valid_expression step
      && forallb valid_statement body && right_associative_ok body
      && valid_optional is_identifier x_end
  | S_while_loop c body =>
      valid_expression c
      && forallb valid_statement body && right_associative_ok body
  | S_do_loop body tail =>
      forallb valid_statement body && right_associative_ok body
      && valid_loop_tail tail
  | S_select_statement e cases =>
      valid_expression e && forallb valid_case_clause cases
  | S_Scan e1 u e2 e3 body =>
      valid_expression e1 && is_identifier u
      && valid_expression e2 && valid_expression e3
      && forallb valid_statement body && right_associative_ok body
  | S_SubScan e u body =>
      valid_expression e && is_identifier u
      && forallb valid_statement body && right_associative_ok body
  | S_SlowSequence body =>
      forallb valid_statement body && right_associative_ok body
  | S_DisplayMenu items => forallb valid_menu_item items
  | S_SubMenu x items => is_identifier x && forallb valid_menu_item items
  | S_DataTable x _ e body =>
      is_identifier x && valid_expression e
      && forallb valid_statement body && right_associative_ok body
  | S_CallTable x => is_identifier x
  | S_hash_If e body else_body =>
      valid_expression e
      && forallb valid_statement body && right_associative_ok body
      && match else_body with
         | Some b => forallb valid_statement b && right_associative_ok b
         | None => true
         end
  | S_hash_IfDef x body else_body =>
      is_identifier x
      && forallb valid_statement body && right_associative_ok body
      && match else_body with
         | Some b => forallb valid_statement b && right_associative_ok b
         | None => true
         end
  | S_hash_UnDef x => is_identifier x
  | S_Include p => is_string p
  end
with valid_elseif_clause (c : elseif_clause) : bool :=
  match c with
  | Elseif_clause _ e body =>
      valid_expression e
      && forallb valid_statement body && right_associative_ok body
  end
with valid_case_clause (c : case_clause) : bool :=
  match c with
  | Case_value e body | Case_Is e body =>
      valid_expression e
      && forallb valid_statement body && right_associative_ok body
  | Case_Else body =>
      forallb valid_statement body && right_associative_ok body
  end.

Definition valid_source_file (f : source_file) : bool :=
  forallb valid_statement f && right_associative_ok f.

(** [extras: $ => [/\s/, $.comment]]: besides the white space the lexer
    skips, a comment may stand between any two tokens.  It is a leaf of
    the tree all the same, but no rule derives it: the leaves the rules
    derive are the tokens without some of the comments. *)
Inductive without_extras : list token -> list token -> Prop :=
| without_extras_nil : without_extras [] []
| without_extras_keep (t : token) (ts us : list token) :
    without_extras ts us -> without_extras (t :: ts) (t :: us)
| without_extras_comment (c : string) (ts us : list token) :
    without_extras ts us -> without_extras (Comment c :: ts) us.

(** The token sequences that parse without an error: those that, without
    extras, are the leaves of a valid tree. *)
Definition accepts (ts : list token) : Prop :=
  exists f : source_file,
    without_extras ts (yield f) /\ valid_source_file f = true.

(** [f] with the leaves [ls] is a parse of the text [src]: the lexer cuts
    [src] into [ls], and these, without extras, are the leaves of the valid
    tree [f], in order. *)
Definition is_parse (src : string) (f : source_file) (ls : list leaf) : Prop :=
  tokenize src = Some ls
  /\ without_extras (map tok ls) (yield f)
  /\ valid_source_file f = true.

(** The text is accepted: it has a parse, and so no error node and no
    diagnostic. *)
Definition accepts_text (src : string) : Prop :=
  exists f ls, is_parse src f ls.

Definition is_comment_token (t : token) : bool :=
  match t with
  | Comment _ => true
  | _ => false
  end.

End Grammar.

(* ================================================================== *)
(** ** Blocks and the boundaries of statements *)
(* ================================================================== *)

Module Blocks.
Import Lexical Lexer Syntax Parser Grammar.

(** The keywords a statement begins with: the first literal of every
    alternative of the rules of [_statement].  The other statements begin
    with an identifier ([assignment], [function_call]) or are a comment. *)
Definition statement_keywords : list string :=
  ["BeginProg"; "Function"; "Sub"; "Dim"; "Public"; "Const"; "ConstTable";
   "If"; "For"; "While"; "Do"; "Select"; "Scan"; "SubScan"; "SlowSequence";
   "DisplayMenu"; "SubMenu"; "DataTable"; "CallTable";
   "#If"; "#IfDef"; "#UnDef"; "Include"].

(** The keywords that come after a [repeat($._statement)] in the rules. *)
Definition closing_keywords : list string :=
  ["EndProg"; "EndFunction"; "EndSub";
   "ElseIf"; "Else If"; "Else"; "EndIf";
   "Next"; "Wend"; "Loop"; "Case"; "EndSelect";
   "NextScan"; "NextSubScan"; "EndSequence"; "EndTable";
   "#Else"; "#EndIf"].

(** The token sequence begins as a statement does. *)
Definition starts_statement (ts : list token) : bool :=
  match ts with
  | Comment _ :: _ | Identifier _ :: _ => true
  | Lit k :: _ => existsb (String.eqb k) statement_keywords
  | _ => false
  end.

(** The token sequence ends a list of statements: it is empty, or begins
    with a keyword that comes after one. *)
Definition closes_block (ts : list token) : bool :=
  match ts with
  | [] => true
  | Lit k :: _ => existsb (String.eqb k) closing_keywords
  | _ => false
  end.

(** The token sequence cannot continue an expression that stands before
    it: it begins neither with a binary operator nor with an open
    parenthesis. *)
Definition ends_expression (ts : list token) : bool :=
  match ts with
  | [] => true
  | t :: _ =>
      negb (starts_with_open ts)
      && match as_binary_operator t with
         | Some _ => false
         | None => true
         end
  end.

(** The token sequence begins as an expression does: with an identifier,
    a number, a string, a boolean literal, a unary operator or an open
    parenthesis. *)
Definition starts_expression (ts : list token) : bool :=
  match ts with
  | Identifier _ :: _ | Number _ :: _ | String_ _ :: _ => true
  | Lit s :: _ =>
      existsb (String.eqb s)
              (map boolean_lexeme boolean_literals
               ++ map unary_lexeme unary_operators ++ ["("])
  | _ => false
  end.

(** The token can end an expression: an identifier, a number, a string,
    a boolean literal or a closing parenthesis. *)
Definition ends_operand (t : token) : bool :=
  match t with
  | Identifier _ | Number _ | String_ _ => true
  | Lit s => existsb (String.eqb s) (map boolean_lexeme boolean_literals ++ [")"])
  | Comment _ => false
  end.

(** Two tokens next to each other satisfy [p]. *)
Fixpoint adjacent (p : token -> token -> bool) (ts : list token) : bool :=
  match ts with
  | [] => false
  | t1 :: rest =>
      match rest with
      | [] => false
      | t2 :: _ => p t1 t2 || adjacent p rest
      end
  end.

(** Two tokens with an empty argument between them: a comma after an open
    parenthesis or after a comma, or a closing parenthesis after a
    comma. *)
Definition empty_argument (t1 t2 : token) : bool :=
  match t1, t2 with
  | Lit a, Lit b =>
      ((String.eqb a "(" || String.eqb a ",") && String.eqb b ",")
      || (String.eqb a "," && String.eqb b ")")
  | _, _ => false
  end.

(** What may come after a statement of a statement list: the next
    statement or the end of the list, and nothing that [prec.right] would
    make a part of the statement itself. *)
Definition follow_ok (s : statement) (following : list token) : bool :=
  (starts_statement following || closes_block following)
  && negb (continued_by s following).

Definition elseif_body (c : elseif_clause) : list statement :=
  match c with
  | Elseif_clause _ _ body => body
  end.

Definition case_body (c : case_clause) : list statement :=
  match c with
  | Case_value _ body | Case_Is _ body | Case_Else body => body
  end.

(** The blocks of the grammar: the keywords that open a block, and the
    keyword that closes it.  [While] is left out: it opens [while_loop],
    closed by [Wend], and is also the second keyword of [Loop While]. *)
Definition blocks : list (list string * string) :=
  [(["BeginProg"], "EndProg");
   (["Function"], "EndFunction");
   (["Sub"], "EndSub");
   (["ConstTable"], "EndConstTable");
   (["If"], "EndIf");
   (["For"], "Next");
   (["Do"], "Loop");
   (["Select"], "EndSelect");
   (["Scan"], "NextScan");
   (["SubScan"], "NextSubScan");
   (["SlowSequence"], "EndSequence");
   (["DisplayMenu"], "EndMenu");
   (["SubMenu"], "EndSubMenu");
   (["DataTable"], "EndTable");
   (["#If"; "#IfDef"], "#EndIf")].

(** The parentheses of expressions, calls, parameter lists and scans. *)
Definition parentheses : list string * string := (["("], ")").

(** The number of blocks open after [ts], with [d] blocks open before it;
    [None] when a closing keyword comes with no block open. *)
Fixpoint depth_after (openers : list string) (closer : string) (d : nat)
         (ts : list token) : option nat :=
  match ts with
  | [] => Some d
  | Lit k :: ts' =>
      if existsb (String.eqb k) openers
      then depth_after openers closer (S d) ts'
      else if String.eqb k closer
      then match d with
           | O => None
           | S d' => depth_after openers closer d' ts'
           end
      else depth_after openers closer d ts'
  | _ :: ts' => depth_after openers closer d ts'
  end.

(** The token opens and closes no block of the given kind. *)
Definition keeps_depth (openers : list string) (closer : string) (t : token)
  : bool :=
  match t with
  | Lit k => negb (existsb (String.eqb k) openers) && negb (String.eqb k closer)
  | _ => true
  end.

(** [a] is the only tree that can be read from the front of its leaves:
    whatever else is read from the front of the same tokens, under the
    condition [ok] on the tree and on what follows it, is [a], and leaves
    the same tokens over. *)
Definition read_unambiguously {A : Type} (leaves : A -> list token)
           (ok : A -> list token -> Prop) (a : A) : Prop :=
  forall (a' : A) (r r' : list token),
    ok a r -> ok a' r' -> leaves a ++ r = leaves a' ++ r' ->
    a = a' /\ r = r'.

(** The text is at the end of a line: nothing is left of it, or a line
    feed or carriage return comes next. *)
Definition at_end_of_line (w : list ascii) : bool :=
  match w with
  | [] => true
  | c :: _ => negb (not_eol c)
  end.


(** The conditions under which a tree is read from the front of a token
    sequence: the tree is one the grammar derives, with its conflicts
    settled as the precedences say, and what follows it cannot be taken
    for a part of it. *)
Definition expression_before (e : expression) (r : list token) : Prop :=
  prec_ok e = true /\ ends_expression r = true.

Definition statement_before (s : statement) (r : list token) : Prop :=
  valid_statement s = true /\ follow_ok s r = true.

Definition statements_before (ss : list statement) (r : list token) : Prop :=
  forallb valid_statement ss = true /\ right_associative_ok ss = true
  /\ closes_block r = true.

End Blocks.

(* ================================================================== *)
(** * Properties *)
(* ================================================================== *)

(** ** Regular expressions: the matcher decides membership *)

Module RegexFacts.

Lemma nullable_Matches (r : regex) : nullable r = true <-> Matches r [].
Proof.
  induction r; simpl; split; intro H.
  - discriminate.
  - inversion H.
  - constructor.
  - reflexivity.
  - discriminate.
  - inversion H.
  - apply andb_true_iff in H as [H1 H2].
    change (@nil ascii) with (@nil ascii ++ []).
    constructor; [apply IHr1 | apply IHr2]; assumption.
  - inversion H as [| |? ? u v Hu Hv| | | |]; subst.
    match goal with E : _ ++ _ = [] |- _ => apply app_eq_nil in E as [-> ->] end.
    apply andb_true_iff; split; [apply IHr1 | apply IHr2]; assumption.
  - apply orb_true_iff in H as [H | H];
      [apply M_alt_l, IHr1 | apply M_alt_r, IHr2]; assumption.
  - apply orb_true_iff.
    inversion H; subst; [left; apply IHr1 | right; apply IHr2]; assumption.
  - constructor.
  - reflexivity.
Qed.

Lemma Matches_Void (w : list ascii) : ~ Matches Void w.
Proof. intro H; inversion H. Qed.

Lemma cat_Matches (r s : regex) (w : list ascii) :
  Matches (cat r s) w <-> Matches (Cat r s) w.
Proof.
  split; intro H.
  - destruct r; destruct s; simpl in H;
      try exact H; try (exfalso; exact (Matches_Void _ H));
      change w with ([] ++ w); constructor; (exact M_eps || exact H).
  - inversion H as [| |? ? u v Hu Hv| | | |]; subst.
    destruct r; destruct s; simpl;
      try (exfalso; exact (Matches_Void _ Hu));
      try (exfalso; exact (Matches_Void _ Hv));
      try (constructor; assumption);
      inversion Hu; subst; simpl; exact Hv.
Qed.

Lemma alt_Matches (r s : regex) (w : list ascii) :
  Matches (alt r s) w <-> Matches (Alt r s) w.
Proof.
  split; intro H.
  - destruct r; destruct s; simpl in H;
      try exact H;
      try (apply M_alt_r; exact H); try (apply M_alt_l; exact H).
  - inversion H; subst;
      destruct r; destruct s; simpl;
      try (exfalso; eapply Matches_Void; eassumption);
      try assumption;
      try (apply M_alt_l; assumption); try (apply M_alt_r; assumption).
Qed.

Lemma Matches_star_cons (r : regex) (c : ascii) (w : list ascii) :
  Matches (Star r) (c :: w) ->
  exists u v, w = u ++ v /\ Matches r (c :: u) /\ Matches (Star r) v.
Proof.
  intro H. remember (Star r) as sr eqn:Esr. remember (c :: w) as cw eqn:Ecw.
  revert w Ecw.
  induction H as [| | | | | |r' u v Hu _ Hv IHv]; intros w0 Ecw;
    try discriminate.
  injection Esr as ->.
  destruct u as [|a u].
  - simpl in Ecw. apply IHv; [reflexivity | exact Ecw].
  - simpl in Ecw. injection Ecw as -> <-.
    exists u, v. repeat split; assumption.
Qed.

Lemma Matches_Cat_inv (r s : regex) (w : list ascii) :
  Matches (Cat r s) w -> exists u v, w = u ++ v /\ Matches r u /\ Matches s v.
Proof.
  intro H. inversion H; subst. eexists _, _. repeat split; eassumption.
Qed.

Lemma Matches_Alt_inv (r s : regex) (w : list ascii) :
  Matches (Alt r s) w -> Matches r w \/ Matches s w.
Proof. intro H. inversion H; subst; auto. Qed.

Lemma deriv_Matches (r : regex) (c : ascii) (w : list ascii) :
  Matches (deriv c r) w <-> Matches r (c :: w).
Proof.
  revert w. induction r; intro w; simpl.
  - split; intro H; inversion H.
  - split; intro H; inversion H.
  - destruct (p c) eqn:Epc; split; intro H.
    + inversion H; subst. constructor; exact Epc.
    + inversion H; subst. constructor.
    + inversion H.
    + inversion H; subst. congruence.
  - split; intro H.
    + destruct (nullable r1) eqn:En.
      * apply alt_Matches, Matches_Alt_inv in H. destruct H as [H | H].
        -- apply cat_Matches, Matches_Cat_inv in H.
           destruct H as (u & v & -> & Hu & Hv).
           change (c :: u ++ v) with ((c :: u) ++ v).
           constructor; [apply IHr1|]; assumption.
        -- change (c :: w) with ([] ++ c :: w).
           constructor; [apply nullable_Matches; exact En | apply IHr2; exact H].
      * apply cat_Matches, Matches_Cat_inv in H.
        destruct H as (u & v & -> & Hu & Hv).
        change (c :: u ++ v) with ((c :: u) ++ v).
        constructor; [apply IHr1|]; assumption.
    + apply Matches_Cat_inv in H. destruct H as (u & v & E & Hu & Hv).
      destruct u as [|a u]; simpl in E.
      * subst v. apply nullable_Matches in Hu. rewrite Hu.
        apply alt_Matches, M_alt_r, IHr2. exact Hv.
      * injection E as <- ->.
        assert (Matches (cat (deriv c r1) r2) (u ++ v)) as Hc
            by (apply cat_Matches; constructor; [apply IHr1|]; assumption).
        destruct (nullable r1); [apply alt_Matches, M_alt_l|]; exact Hc.
  - split; intro H.
    + apply alt_Matches, Matches_Alt_inv in H.
      destruct H; [apply M_alt_l, IHr1 | apply M_alt_r, IHr2]; assumption.
    + apply alt_Matches.
      apply Matches_Alt_inv in H.
      destruct H; [apply M_alt_l, IHr1 | apply M_alt_r, IHr2]; assumption.
  - split; intro H.
    + apply cat_Matches, Matches_Cat_inv in H.
      destruct H as (u & v & -> & Hu & Hv).
      change (c :: u ++ v) with ((c :: u) ++ v).
      constructor; [apply IHr|]; assumption.
    + apply Matches_star_cons in H as (u & v & -> & Hu & Hv).
      apply cat_Matches. constructor; [apply IHr|]; assumption.
Qed.

(** The matcher accepts exactly the words of the regular expression. *)
Lemma matches_Matches (r : regex) (w : list ascii) :
  matches r w = true <-> Matches r w.
Proof.
  revert r. induction w as [|c w IH]; intro r; simpl.
  - apply nullable_Matches.
  - rewrite IH. apply deriv_Matches.
Qed.


Lemma matches_app (r : regex) (u v : list ascii) :
  matches r (u ++ v) = matches (fold_left (fun r c => deriv c r) u r) v.
Proof.
  revert r. induction u as [|c u IH]; intro r; simpl; [reflexivity | apply IH].
Qed.

End RegexFacts.

(** ** The terminals *)

Module LexicalFacts.
Import Lexical Lexer RegexFacts.
Local Open Scope char_scope.











Lemma literal_matches_iff (lit lexeme : string) :
  literal_matches lit lexeme = true <-> lexeme = lit.
Proof.
  unfold literal_matches. rewrite String.eqb_eq. split; intro; subst; reflexivity.
Qed.

Lemma is_boolean_iff (lexeme : string) :
  is_boolean lexeme = true <-> In lexeme boolean.
Proof.
  unfold is_boolean. rewrite existsb_exists. split.
  - intros (lit & Hin & E). apply literal_matches_iff in E. subst. exact Hin.
  - intro Hin. exists lexeme. split; [exact Hin | apply literal_matches_iff; reflexivity].
Qed.



End LexicalFacts.

(** ** The lexer *)

Module LexerFacts.
Import Lexical Lexer RegexFacts LexicalFacts.

Lemma is_void_not_nullable (r : regex) : is_void r = true -> nullable r = false.
Proof.
  induction r; simpl; intro H; try discriminate H; try reflexivity.
  - apply orb_true_iff in H as [H | H];
      [rewrite (IHr1 H) | rewrite (IHr2 H), andb_false_r]; reflexivity.
  - apply andb_true_iff in H as [H1 H2]. rewrite (IHr1 H1), (IHr2 H2). reflexivity.
Qed.

Lemma is_void_cat (r s : regex) :
  is_void r || is_void s = true -> is_void (cat r s) = true.
Proof.
  destruct r; destruct s; simpl; intro H;
    try reflexivity; try discriminate H; try exact H.
Qed.

Lemma is_void_alt (r s : regex) :
  is_void r = true -> is_void s = true -> is_void (alt r s) = true.
Proof.
  destruct r; destruct s; simpl; intros H1 H2;
    try reflexivity; try discriminate H1; try discriminate H2;
    try exact H1; try exact H2; rewrite H1, H2; reflexivity.
Qed.







Lemma length_chars (s : string) : List.length (chars s) = String.length s.
Proof. induction s; simpl; [reflexivity | f_equal; assumption]. Qed.







Lemma starts_deriv (c : ascii) (r : regex) :
  starts c r = false -> is_void (deriv c r) = true.
Proof.
  induction r; simpl; intro H; try reflexivity.
  - rewrite H. reflexivity.
  - apply orb_false_iff in H as [H1 H2].
    destruct (nullable r1); simpl in H2.
    + apply is_void_alt; [apply is_void_cat; rewrite (IHr1 H1); reflexivity|].
      apply IHr2, H2.
    + apply is_void_cat. rewrite (IHr1 H1). reflexivity.
  - apply orb_false_iff in H as [H1 H2].
    apply is_void_alt; [apply IHr1 | apply IHr2]; assumption.
  - apply is_void_cat. rewrite (IHr H). reflexivity.
Qed.

Lemma longest_from_void (r : regex) (w : list ascii) (n : nat) (best : option nat) :
  is_void r = true -> longest_from r w n best = best.
Proof.
  intro H. destruct w; simpl; rewrite (is_void_not_nullable _ H), ?H; reflexivity.
Qed.

(** A pattern none of whose words begins with the first character of the
    text has no match. *)
Lemma longest_no_start (r : regex) (c : ascii) (w : list ascii) :
  nullable r = false -> starts c r = false -> longest r (c :: w) = None.
Proof.
  intros Hn Hs. unfold longest. cbn [longest_from]. rewrite Hn.
  destruct (is_void r); [reflexivity|].
  apply longest_from_void, starts_deriv, Hs.
Qed.







(** With more fuel than characters the lexer does not stop for want of
    fuel: its answer is the same for every such amount. *)
Lemma tokenize_from_fuel (f1 f2 pos : nat) (w : list ascii) :
  List.length w < f1 -> List.length w < f2 ->
  tokenize_from f1 pos w = tokenize_from f2 pos w.
Proof.
  revert f2 pos w. induction f1 as [|f1 IH]; intros f2 pos w H1 H2; [lia|].
  destruct f2 as [|f2]; [lia|]. cbn [tokenize_from].
  destruct w as [|c w]; [reflexivity|]. cbn [List.length] in H1, H2.
  destruct (space c); [apply IH; lia|].
  destruct (next_token (c :: w)) as [[t [|n]]|]; try reflexivity.
  rewrite (IH f2 (pos + S n) (skipn (S n) (c :: w))).
  - reflexivity.
  - rewrite length_skipn. cbn [List.length]. lia.
  - rewrite length_skipn. cbn [List.length]. lia.
Qed.


Lemma lexed_bound (src : list ascii) (pos : nat) (ls : list leaf) :
  lexed src pos ls -> pos <= List.length src.
Proof.
  induction 1; try lia.
Qed.








End LexerFacts.

(** ** Leaves and source text *)

Module SpanFacts.
Import Lexical Lexer Syntax Grammar LexerFacts.






End SpanFacts.

(** ** The expression parser *)

Module ParserFacts.
Import Lexer Syntax Parser.

(** Induction over expressions, with the arguments of a call. *)
Lemma expression_induction (P : expression -> Prop) :
  (forall x, P (E_identifier x)) ->
  (forall n, P (E_number n)) ->
  (forall s, P (E_string s)) ->
  (forall b, P (E_boolean b)) ->
  (forall l o r, P l -> P r -> P (E_binary_expression l o r)) ->
  (forall o e, P e -> P (E_unary_expression o e)) ->
  (forall e, P e -> P (E_parenthesized_expression e)) ->
  (forall f args, Forall P args -> P (E_function_call f args)) ->
  forall e, P e.
Proof.
  intros Hi Hn Hs Hb Hbin Hun Hp Hc.
  fix IH 1. intro e.
  destruct e as [x|n|s|b|l o r|o e'|e'|f args].
  - apply Hi.
  - apply Hn.
  - apply Hs.
  - apply Hb.
  - apply Hbin; apply IH.
  - apply Hun; apply IH.
  - apply Hp; apply IH.
  - apply Hc. induction args as [|a args IHargs]; constructor.
    + apply IH.
    + exact IHargs.
Qed.

(** What holds of a node wherever the precedences are respected holds of
    every node of a tree that respects them. *)
Lemma prec_ok_every_node (p : expression -> bool) :
  (forall l o r,
      binds_as_tight (binary_precedence o) l = true ->
      binds_tighter (binary_precedence o) r = true ->
      p (E_binary_expression l o r) = true) ->
  (forall o e,
      binds_tighter (unary_precedence o) e = true ->
      p (E_unary_expression o e) = true) ->
  (forall e, is_binary e = false -> (forall o e', e <> E_unary_expression o e') ->
             p e = true) ->
  forall e, prec_ok e = true -> every_node p e = true.
Proof.
  intros Hbin Hun Hother.
  induction e as [x|n|s|b|l o r IHl IHr|o e IHe|e IHe|f args IHargs]
    using expression_induction; intro H; cbn [every_node prec_ok] in *.
  - rewrite Hother by (reflexivity || discriminate). reflexivity.
  - rewrite Hother by (reflexivity || discriminate). reflexivity.
  - rewrite Hother by (reflexivity || discriminate). reflexivity.
  - rewrite Hother by (reflexivity || discriminate). reflexivity.
  - apply andb_true_iff in H as [H Hr]. apply andb_true_iff in H as [H Hl].
    apply andb_true_iff in H as [Hl' Hr'].
    rewrite Hbin, IHl, IHr by assumption. reflexivity.
  - apply andb_true_iff in H as [H He].
    rewrite Hun, IHe by assumption. reflexivity.
  - rewrite Hother, IHe by (reflexivity || discriminate || assumption). reflexivity.
  - rewrite Hother by (reflexivity || discriminate). cbn [andb].
    apply forallb_forall. intros a Ha.
    rewrite Forall_forall in IHargs. apply IHargs; [exact Ha|].
    rewrite forallb_forall in H. apply H, Ha.
Qed.

(** In a tree that respects the precedences no node of lower precedence
    is an operand of a node of higher precedence. *)
Lemma prec_ok_not_operand_of (inner outer : nat) (e : expression) :
  inner < outer -> prec_ok e = true ->
  every_node (not_operand_of inner outer) e = true.
Proof.
  intro Hlt. apply prec_ok_every_node.
  - intros l o r Hl Hr. cbn [not_operand_of has_precedence].
    destruct (binary_precedence o =? outer) eqn:Eo; [|reflexivity].
    apply Nat.eqb_eq in Eo. cbn [negb orb]. apply negb_true_iff, orb_false_iff.
    split.
    + destruct l as [| | | |? o' ?| | |]; try reflexivity.
      cbn [has_precedence binds_as_tight] in *.
      apply Nat.leb_le in Hl. apply Nat.eqb_neq. lia.
    + destruct r as [| | | |? o' ?| | |]; try reflexivity.
      cbn [has_precedence binds_tighter] in *.
      apply Nat.ltb_lt in Hr. apply Nat.eqb_neq. lia.
  - reflexivity.
  - intros e' Hb _. destruct e'; try reflexivity. discriminate Hb.
Qed.


Lemma as_binary_operator_Some (t : token) (o : binary_operator) :
  as_binary_operator t = Some o -> t = Lit (binary_lexeme o).
Proof.
  destruct t; cbn [as_binary_operator]; try discriminate. intro H.
  apply find_some in H as [_ E]. apply String.eqb_eq in E. subst. reflexivity.
Qed.

Lemma as_unary_operator_Some (t : token) (o : unary_operator) :
  as_unary_operator t = Some o -> t = Lit (unary_lexeme o).
Proof.
  destruct t; cbn [as_unary_operator]; try discriminate. intro H.
  apply find_some in H as [_ E]. apply String.eqb_eq in E. subst. reflexivity.
Qed.

Lemma as_boolean_Some (t : token) (b : boolean_literal) :
  as_boolean t = Some b -> t = Lit (boolean_lexeme b).
Proof.
  destruct t; cbn [as_boolean]; try discriminate. intro H.
  apply find_some in H as [_ E]. apply String.eqb_eq in E. subst. reflexivity.
Qed.

Lemma as_binary_operator_lexeme (o : binary_operator) :
  as_binary_operator (Lit (binary_lexeme o)) = Some o.
Proof. destruct o; reflexivity. Qed.

Lemma as_unary_operator_lexeme (o : unary_operator) :
  as_unary_operator (Lit (unary_lexeme o)) = Some o.
Proof. destruct o; reflexivity. Qed.

Lemma as_boolean_lexeme (b : boolean_literal) :
  as_boolean (Lit (boolean_lexeme b)) = Some b.
Proof. destruct b; reflexivity. Qed.

(** Every binary production is left-associative, every unary one has
    precedence 8 and no associativity, and the binary precedences run from
    1 to 7. *)
Lemma binary_production_eq (o : binary_operator) :
  binary_production o = (binary_precedence o, Assoc_left).
Proof. destruct o; reflexivity. Qed.

Lemma unary_production_eq (o : unary_operator) :
  unary_production o = (8, Assoc_none).
Proof. destruct o; reflexivity. Qed.

Lemma binary_precedence_range (o : binary_operator) :
  1 <= binary_precedence o <= 7.
Proof. destruct o; vm_compute; split; repeat constructor. Qed.

Lemma resolve_left (n m : nat) :
  resolve (n, Assoc_left) m = if n <? m then Shift else Reduce.
Proof.
  unfold resolve.
  destruct (m <? n) eqn:E1; destruct (n <? m) eqn:E2; try reflexivity.
  apply Nat.ltb_lt in E1, E2. lia.
Qed.

Lemma resolve_unary (m : nat) : m < 8 -> resolve (8, Assoc_none) m = Reduce.
Proof.
  intro H. unfold resolve. apply Nat.ltb_lt in H. rewrite H. reflexivity.
Qed.

(** No conflict of the expression rules is left open. *)
Lemma resolve_settles (o : binary_operator) :
  (forall o1, resolve (binary_production o1) (binary_precedence o) <> Conflict)
  /\ (forall u, resolve (unary_production u) (binary_precedence o) <> Conflict).
Proof.
  split.
  - intro o1. rewrite binary_production_eq, resolve_left.
    destruct (binary_precedence o1 <? binary_precedence o); discriminate.
  - intro u. rewrite unary_production_eq, resolve_unary; [discriminate|].
    pose proof (binary_precedence_range o). lia.
Qed.

Lemma comma_separated_snoc (parts : list (list token)) (p : list token) :
  comma_separated (parts ++ [p])
  = flat_map (fun q => q ++ [Lit ","]) parts ++ p.
Proof.
  induction parts as [|q parts IH]; [reflexivity|].
  change ((q :: parts) ++ [p]) with (q :: (parts ++ [p])).
  destruct parts as [|q' parts].
  - simpl. rewrite app_nil_r, <- app_assoc. reflexivity.
  - change (comma_separated (q :: (q' :: parts) ++ [p]))
      with (q ++ Lit "," :: comma_separated ((q' :: parts) ++ [p])).
    rewrite IH. simpl. rewrite <- !app_assoc. reflexivity.
Qed.

Lemma yield_call_snoc (g : string) (done : list expression) (e : expression) :
  yield_expression (E_function_call g (rev (e :: done)))
  = frame_tokens (F_call g done) ++ yield_expression e ++ [Lit ")"].
Proof.
  simpl. rewrite map_app. simpl. rewrite comma_separated_snoc.
  rewrite flat_map_concat_map, map_map, <- flat_map_concat_map.
  rewrite <- app_assoc. reflexivity.
Qed.

Lemma eqb_open (s : string) : String.eqb s "(" = true -> s = "(".
Proof. apply String.eqb_eq. Qed.

Ltac same_tokens :=
  cbn; rewrite ?app_nil_r; repeat (rewrite <- app_assoc; cbn [app]);
  rewrite ?app_nil_r; reflexivity.

(** In a tree that respects the precedences the right operand of a binary
    node never has the precedence of the node, and a unary node never has
    a binary operand. *)
Lemma prec_ok_groups_left (e : expression) :
  prec_ok e = true -> every_node groups_left e = true.
Proof.
  apply prec_ok_every_node.
  - intros l o r _ Hr. cbn [groups_left].
    destruct r as [| | | |? o' ?| | |]; try reflexivity.
    cbn [has_precedence binds_tighter] in *.
    apply Nat.ltb_lt in Hr. apply negb_true_iff, Nat.eqb_neq. lia.
  - intros o e' He. cbn [groups_left].
    destruct e' as [| | | |? o' ?| | |]; try reflexivity.
    cbn [binds_tighter] in He. apply Nat.ltb_lt in He.
    rewrite (f_equal fst (unary_production_eq o) : unary_precedence o = 8) in He.
    pose proof (binary_precedence_range o'). lia.
  - intros e' Hb Hu. destruct e'; try reflexivity.
    + discriminate Hb.
    + exfalso. eapply Hu. reflexivity.
Qed.

(** A step reads the tokens it is given, in order. *)
Lemma step_tokens (c : config) :
  match step c with
  | Running c' => consumed c' ++ input c' = consumed c ++ input c
  | Accepted e => yield_expression e = consumed c ++ input c
  | _ => True
  end.
Proof.
  destruct c as [fs [e|] ts]; unfold step, consumed; cbn [stack operand input].
  - unfold step_operand.
    destruct ts as [|t rest].
    + destruct fs as [|f fs']; [cbn; rewrite app_nil_r; reflexivity|].
      destruct f; cbn [finish]; try exact I; same_tokens.
    + destruct (as_binary_operator t) as [o|] eqn:Eo.
      * apply as_binary_operator_Some in Eo. subst t.
        assert (Hshift : consumed (Config (F_binary e o :: fs) None rest) ++ rest
                         = (stack_tokens fs ++ yield_expression e)
                             ++ Lit (binary_lexeme o) :: rest).
        { unfold consumed. same_tokens. }
        destruct fs as [|f fs']; [exact Hshift|].
        destruct f; cbn [finish]; try exact Hshift.
        -- destruct (resolve (binary_production op) (binary_precedence o));
             [exact Hshift | | exact I].
           same_tokens.
        -- destruct (resolve (unary_production op) (binary_precedence o));
             [exact Hshift | | exact I].
           same_tokens.
      * destruct fs as [|f fs']; [exact I|].
        destruct f; cbn [finish close].
        -- same_tokens.
        -- same_tokens.
        -- destruct t as [s| | | |]; try exact I.
           destruct (String.eqb s ")") eqn:E; [|exact I].
           apply String.eqb_eq in E. subst. same_tokens.
        -- destruct t as [s| | | |]; try exact I.
           destruct (String.eqb s ")") eqn:E.
           ++ apply String.eqb_eq in E. subst.
              cbn [consumed stack operand input stack_tokens].
              rewrite yield_call_snoc. same_tokens.
           ++ destruct (String.eqb s ",") eqn:E'; [|exact I].
              apply String.eqb_eq in E'. subst.
              cbn. rewrite flat_map_app. same_tokens.
  - unfold step_start. rewrite app_nil_r.
    destruct ts as [|t rest]; [exact I|].
    destruct t as [s|x|n|s|c]; try exact I.
    + destruct (as_boolean (Lit s)) as [b|] eqn:Eb.
      { apply as_boolean_Some in Eb. injection Eb as ->. same_tokens. }
      destruct (as_unary_operator (Lit s)) as [o|] eqn:Eu.
      { apply as_unary_operator_Some in Eu. injection Eu as ->.
        same_tokens. }
      destruct (String.eqb s "(") eqn:Ep.
      { apply String.eqb_eq in Ep. subst.
        same_tokens. }
      destruct fs as [|[| | |g [|? ?]] fs']; try exact I.
      destruct (String.eqb s ")") eqn:Ec; [|exact I].
      apply String.eqb_eq in Ec. subst. same_tokens.
    + destruct (starts_with_open rest) eqn:Eo.
      * destruct rest as [|[s| | | |] rest']; try discriminate Eo.
        apply eqb_open in Eo. subst.
        same_tokens.
      * same_tokens.
    + same_tokens.
    + same_tokens.
Qed.

Ltac bools :=
  repeat match goal with
         | H : _ && _ = true |- _ => apply andb_true_iff in H; destruct H
         end.

Ltac bool_goal := repeat (apply andb_true_iff; split).

Lemma operand_ok_primary (fs : list frame) (e : expression) (ts : list token) :
  (forall n, binds_tighter n e = true) ->
  (forall n, binds_as_tight n e = true) ->
  prec_ok e = true ->
  operand_ok fs e ts = true.
Proof.
  intros H1 H2 H3. unfold operand_ok, above_precedence. rewrite H3. cbn [andb].
  apply andb_true_iff. split.
  - destruct fs as [|f fs]; [reflexivity|].
    destruct (frame_precedence f); [apply H1 | reflexivity].
  - destruct ts as [|t ts]; [reflexivity|].
    destruct (as_binary_operator t); [apply H2 | reflexivity].
Qed.

Lemma forallb_rev (f : expression -> bool) (l : list expression) :
  forallb f l = true -> forallb f (rev l) = true.
Proof.
  rewrite !forallb_forall. intros H x Hx. apply H, in_rev, Hx.
Qed.

(** What finishing a frame gives is well nested, under the frame below and
    before the token that comes next. *)
Lemma finish_ok (f : frame) (fs : list frame) (e e' : expression)
      (p : nat * associativity) (ts next : list token) :
  stack_ok (f :: fs) = true ->
  operand_ok (f :: fs) e ts = true ->
  finish f e = Some (p, e') ->
  match next with
  | t :: _ =>
      match as_binary_operator t with
      | Some o => resolve p (binary_precedence o) = Reduce
      | None => True
      end
  | [] => True
  end ->
  stack_ok fs = true /\ operand_ok fs e' next = true.
Proof.
  intros Hs Ho Hf Hn. cbn [stack_ok] in Hs. unfold operand_ok in Ho. bools.
  split; [assumption|].
  destruct f as [l o1|u| |]; cbn [finish] in Hf; try discriminate Hf;
    injection Hf as <- <-.
  - unfold frame_ok in *. bools.
    unfold operand_ok. bool_goal; try assumption.
    destruct next as [|t next]; [reflexivity|].
    destruct (as_binary_operator t) as [o|]; [|reflexivity].
    rewrite binary_production_eq, resolve_left in Hn.
    cbn [binds_as_tight].
    destruct (binary_precedence o1 <? binary_precedence o) eqn:E;
      [discriminate Hn|].
    apply Nat.ltb_ge in E. apply Nat.leb_le. exact E.
  - apply operand_ok_primary; try reflexivity.
    cbn [prec_ok]. bool_goal; [|assumption].
    match goal with H : above_precedence (F_unary _ :: _) _ = true |- _ =>
      exact H end.
Qed.

(** Reading a binary operator after an operand leaves a well-nested
    stack. *)
Lemma shift_ok (fs : list frame) (e : expression) (o : binary_operator)
      (rest : list token) :
  stack_ok fs = true ->
  operand_ok fs e (Lit (binary_lexeme o) :: rest) = true ->
  above_precedence fs (fun n => n <? binary_precedence o) = true ->
  config_ok (Config (F_binary e o :: fs) None rest) = true.
Proof.
  intros Hs Ho Ha. unfold operand_ok in Ho. rewrite as_binary_operator_lexeme in Ho.
  bools. unfold config_ok. cbn [stack operand stack_ok frame_ok].
  bool_goal; assumption || reflexivity.
Qed.

Ltac started :=
  cbn [stack operand input stack_ok frame_ok forallb];
  rewrite ?operand_ok_primary by reflexivity;
  rewrite ?andb_true_r; assumption || reflexivity.

(** A step keeps the configuration well nested. *)
Lemma step_ok (c : config) :
  config_ok c = true ->
  match step c with
  | Running c' => config_ok c' = true
  | Accepted e => prec_ok e = true
  | _ => True
  end.
Proof.
  destruct c as [fs [e|] ts]; unfold step, config_ok; cbn [stack operand input];
    intro H.
  - apply andb_true_iff in H as [Hs Ho].
    assert (Hfinish : forall f fs' p e' next,
               fs = f :: fs' -> finish f e = Some (p, e') ->
               match next with
               | t :: _ =>
                   match as_binary_operator t with
                   | Some o => resolve p (binary_precedence o) = Reduce
                   | None => True
                   end
               | [] => True
               end ->
               stack_ok fs' && operand_ok fs' e' next = true).
    { intros f fs' p e' next -> Ef Hn.
      destruct (finish_ok f fs' e e' p ts next Hs Ho Ef Hn) as [-> ->].
      reflexivity. }
    unfold step_operand.
    destruct ts as [|t rest].
    + destruct fs as [|f fs'].
      * unfold operand_ok in Ho. bools. assumption.
      * destruct (finish f e) as [[p e']|] eqn:Ef; [|exact I].
        cbn [stack operand input]. apply (Hfinish f fs' p e' []); auto.
    + destruct (as_binary_operator t) as [o|] eqn:Eo.
      * pose proof (as_binary_operator_Some _ _ Eo) as ->.
        destruct fs as [|f fs']; [apply shift_ok; auto|].
        destruct (finish f e) as [[p e']|] eqn:Ef.
        -- destruct (resolve p (binary_precedence o)) eqn:Er; [| |exact I].
           ++ apply shift_ok; auto.
              destruct f as [l o1|u| |]; cbn [finish] in Ef; try discriminate Ef;
                injection Ef as <- <-; unfold above_precedence, frame_precedence;
                cbn [frame_production option_map].
              ** rewrite binary_production_eq, resolve_left in Er.
                 rewrite binary_production_eq. cbn [fst].
                 destruct (binary_precedence o1 <? binary_precedence o);
                   [reflexivity | discriminate Er].
              ** rewrite unary_production_eq, resolve_unary in Er;
                   [discriminate Er|].
                 pose proof (binary_precedence_range o). lia.
           ++ cbn [stack operand input].
              apply (Hfinish f fs' p e' (Lit (binary_lexeme o) :: rest)); auto.
              rewrite as_binary_operator_lexeme. exact Er.
        -- apply shift_ok; auto.
           destruct f; cbn [finish] in Ef; try discriminate Ef; reflexivity.
      * destruct fs as [|f fs']; [exact I|].
        destruct (finish f e) as [[p e']|] eqn:Ef.
        -- cbn [stack operand input].
           apply (Hfinish f fs' p e' (t :: rest)); auto.
           rewrite Eo. exact I.
        -- unfold operand_ok in Ho. cbn [stack_ok] in Hs. bools.
           destruct f as [l o1|u| |g done]; cbn [finish] in Ef; try discriminate Ef;
             cbn [close]; destruct t as [s| | | |]; try exact I.
           ++ destruct (String.eqb s ")"); [|exact I].
              cbn [stack operand input].
              rewrite operand_ok_primary by (reflexivity || assumption).
              rewrite andb_true_r. assumption.
           ++ cbn [frame_ok] in *.
              destruct (String.eqb s ")").
              ** cbn [stack operand input].
                 rewrite operand_ok_primary; try reflexivity.
                 --- rewrite andb_true_r. assumption.
                 --- cbn [prec_ok]. apply forallb_rev. cbn [forallb].
                     bool_goal; assumption.
              ** destruct (String.eqb s ","); [|exact I].
                 cbn [stack operand input stack_ok frame_ok forallb].
                 bool_goal; assumption || reflexivity.
  - rewrite andb_true_r in H. unfold step_start.
    destruct ts as [|t rest]; [exact I|].
    destruct t as [s|x|n|s|c]; try exact I.
    + destruct (as_boolean (Lit s)) as [b|]; [started|].
      destruct (as_unary_operator (Lit s)) as [o|]; [started|].
      destruct (String.eqb s "("); [started|].
      destruct fs as [|[| | |g [|? ?]] fs']; try exact I.
      destruct (String.eqb s ")"); [|exact I].
      cbn [stack_ok] in H. bools. started.
    + destruct (starts_with_open rest); started.
    + started.
    + started.
Qed.

Lemma run_sound (fuel : nat) (c : config) (e : expression) :
  config_ok c = true ->
  run fuel c = Accepted e ->
  yield_expression e = consumed c ++ input c /\ prec_ok e = true.
Proof.
  revert c. induction fuel as [|fuel IH]; intros c Hc H; cbn [run] in H;
    [discriminate H|].
  pose proof (step_tokens c) as Ht. pose proof (step_ok c Hc) as Ho.
  destruct (step c) as [c'|e'| |]; try discriminate H.
  - rewrite <- Ht. apply IH; assumption.
  - injection H as <-. split; assumption.
Qed.

(** The tree the parser returns has the tokens it was given as its leaves,
    and its operators are nested as the precedences settle it. *)
Lemma parse_expression_sound (ts : list token) (e : expression) :
  parse_expression ts = Some e ->
  yield_expression e = ts /\ prec_ok e = true.
Proof.
  unfold parse_expression. intro H.
  destruct (run (2 * List.length ts + 1) (Config [] None ts)) as [|e'| |] eqn:Er;
    try discriminate H.
  injection H as <-.
  apply run_sound in Er; [exact Er | reflexivity].
Qed.

(** *** The fuel is enough *)

Lemma step_work_left (c c' : config) :
  step c = Running c' -> work_left c' < work_left c.
Proof.
  destruct c as [fs [e|] ts]; unfold step, work_left; cbn [stack operand input].
  - unfold step_operand.
    destruct ts as [|t rest].
    + destruct fs as [|f fs']; [discriminate|].
      destruct (finish f e) as [[p e']|]; [|discriminate].
      intro H. injection H as <-. cbn [stack input List.length]. lia.
    + destruct (as_binary_operator t) as [o|].
      * assert (Hshift : forall c1,
                   Running (Config (F_binary e o :: fs) None rest) = Running c1 ->
                   2 * List.length (input c1) + List.length (stack c1)
                   < 2 * List.length (t :: rest) + List.length fs).
        { intros c1 H. injection H as <-. cbn [stack input List.length]. lia. }
        destruct fs as [|f fs']; [apply Hshift|].
        destruct (finish f e) as [[p e']|]; [|apply Hshift].
        destruct (resolve p (binary_precedence o)); [apply Hshift | | discriminate].
        intro H. injection H as <-. cbn [stack input List.length]. lia.
      * destruct fs as [|f fs']; [discriminate|].
        destruct (finish f e) as [[p e']|] eqn:Ef.
        -- intro H. injection H as <-. cbn [stack input List.length]. lia.
        -- destruct f as [l o1|u| |g done]; cbn [finish] in Ef; try discriminate Ef;
             cbn [close]; destruct t as [s| | | |]; try discriminate.
           ++ destruct (String.eqb s ")"); [|discriminate].
              intro H. injection H as <-. cbn [stack input List.length]. lia.
           ++ destruct (String.eqb s ")");
                [|destruct (String.eqb s ","); [|discriminate]];
                intro H; injection H as <-; cbn [stack input List.length]; lia.
  - unfold step_start.
    destruct ts as [|t rest]; [discriminate|].
    destruct t as [s|x|n|s|c]; try discriminate.
    + destruct (as_boolean (Lit s)) as [b|];
        [intro H; injection H as <-; cbn [stack input List.length]; lia|].
      destruct (as_unary_operator (Lit s)) as [o|];
        [intro H; injection H as <-; cbn [stack input List.length]; lia|].
      destruct (String.eqb s "(");
        [intro H; injection H as <-; cbn [stack input List.length]; lia|].
      destruct fs as [|[| | |g [|? ?]] fs']; try discriminate.
      destruct (String.eqb s ")"); [|discriminate].
      intro H. injection H as <-. cbn [stack input List.length]. lia.
    + destruct (starts_with_open rest) eqn:Eo.
      * destruct rest as [|r rest']; [discriminate Eo|].
        intro H. injection H as <-. cbn [stack input List.length tl]. lia.
      * intro H. injection H as <-. cbn [stack input List.length]. lia.
    + intro H. injection H as <-. cbn [stack input List.length]. lia.
    + intro H. injection H as <-. cbn [stack input List.length]. lia.
Qed.

(** With more fuel than work left the parser answers: it accepts or
    rejects, and does not stop for want of fuel. *)
Lemma run_answers (fuel : nat) (c : config) :
  work_left c < fuel ->
  match run fuel c with
  | Running _ => False
  | _ => True
  end.
Proof.
  revert c. induction fuel as [|fuel IH]; intros c H; [lia|].
  cbn [run]. destruct (step c) as [c'| | |] eqn:Es; try exact I.
  apply IH. apply step_work_left in Es. lia.
Qed.

(** The parser rejects a token sequence only when a step is rejected. *)
Lemma parse_expression_answers (ts : list token) :
  match run (2 * List.length ts + 1) (Config [] None ts) with
  | Running _ => False
  | _ => True
  end.
Proof.
  apply run_answers. unfold work_left. cbn [stack input List.length]. lia.
Qed.

(** *** Single steps *)

Lemma run_S (fuel : nat) (c : config) :
  run (S fuel) c = match step c with
                   | Running c' => run fuel c'
                   | o => o
                   end.
Proof. reflexivity. Qed.

Lemma binary_lexeme_not_open (o : binary_operator) (rest : list token) :
  starts_with_open (Lit (binary_lexeme o) :: rest) = false.
Proof. destruct o; reflexivity. Qed.

(** An identifier or literal is read as an operand; an identifier only
    when no parenthesis follows it. *)
Lemma step_atomic (fs : list frame) (a : expression) (rest : list token) :
  atomic a = true -> starts_with_open rest = false ->
  step (Config fs None (yield_expression a ++ rest))
  = Running (Config fs (Some a) rest).
Proof.
  destruct a as [x|n|s|b| | | |]; try discriminate; intros _ Hr;
    unfold step; cbn [operand stack input yield_expression app step_start].
  - rewrite Hr. reflexivity.
  - reflexivity.
  - reflexivity.
  - rewrite as_boolean_lexeme. reflexivity.
Qed.

Lemma step_unary_operator (fs : list frame) (u : unary_operator) (rest : list token) :
  step (Config fs None (Lit (unary_lexeme u) :: rest))
  = Running (Config (F_unary u :: fs) None rest).
Proof. destruct u; reflexivity. Qed.

(** *** The parser finds the tree that respects the precedences *)

Lemma step_shift_operator (fs : list frame) (l : expression) (o : binary_operator)
      (rest : list token) :
  above_precedence fs (fun n => n <? binary_precedence o) = true ->
  step (Config fs (Some l) (Lit (binary_lexeme o) :: rest))
  = Running (Config (F_binary l o :: fs) None rest).
Proof.
  intro H. unfold step, step_operand; cbn [operand stack input].
  rewrite as_binary_operator_lexeme.
  destruct fs as [|[l0 o0|u| |g done] fs']; cbn [finish]; try reflexivity.
  - rewrite binary_production_eq, resolve_left.
    change ((binary_precedence o0 <? binary_precedence o) = true) in H.
    rewrite H. reflexivity.
  - change ((unary_precedence u <? binary_precedence o) = true) in H.
    rewrite (f_equal fst (unary_production_eq u) : unary_precedence u = 8) in H.
    apply Nat.ltb_lt in H. pose proof (binary_precedence_range o). lia.
Qed.

Lemma step_reduce (f : frame) (fs : list frame) (e e' : expression)
      (p : nat * associativity) (rest : list token) :
  finish f e = Some (p, e') ->
  match rest with
  | t :: _ =>
      match as_binary_operator t with
      | Some o => resolve p (binary_precedence o) = Reduce
      | None => True
      end
  | [] => True
  end ->
  step (Config (f :: fs) (Some e) rest) = Running (Config fs (Some e') rest).
Proof.
  intros Hf Hr. unfold step, step_operand; cbn [operand stack input].
  rewrite Hf. destruct rest as [|t rest]; [reflexivity|].
  destruct (as_binary_operator t); [rewrite Hr|]; reflexivity.
Qed.

Lemma step_open_paren (fs : list frame) (rest : list token) :
  step (Config fs None (Lit "(" :: rest)) = Running (Config (F_paren :: fs) None rest).
Proof. reflexivity. Qed.

Lemma step_close_paren (fs : list frame) (e : expression) (rest : list token) :
  step (Config (F_paren :: fs) (Some e) (Lit ")" :: rest))
  = Running (Config fs (Some (E_parenthesized_expression e)) rest).
Proof. reflexivity. Qed.

Lemma step_open_call (fs : list frame) (g : string) (rest : list token) :
  step (Config fs None (Identifier g :: Lit "(" :: rest))
  = Running (Config (F_call g [] :: fs) None rest).
Proof. reflexivity. Qed.

Lemma step_close_empty_call (fs : list frame) (g : string) (rest : list token) :
  step (Config (F_call g [] :: fs) None (Lit ")" :: rest))
  = Running (Config fs (Some (E_function_call g [])) rest).
Proof. reflexivity. Qed.

Lemma step_close_call (fs : list frame) (g : string) (done : list expression)
      (e : expression) (rest : list token) :
  step (Config (F_call g done :: fs) (Some e) (Lit ")" :: rest))
  = Running (Config fs (Some (E_function_call g (rev (e :: done)))) rest).
Proof. reflexivity. Qed.

Lemma step_comma (fs : list frame) (g : string) (done : list expression)
      (e : expression) (rest : list token) :
  step (Config (F_call g done :: fs) (Some e) (Lit "," :: rest))
  = Running (Config (F_call g (e :: done) :: fs) None rest).
Proof. reflexivity. Qed.

Lemma run_add_step (k : nat) (c c' : config) :
  step c = Running c' ->
  forall m, run (S k + m) c = run (k + m) c'.
Proof. intros H m. cbn [Nat.add]. rewrite run_S, H. reflexivity. Qed.

Lemma reads_refl (c : config) : reads c c.
Proof. exists 0. reflexivity. Qed.

Lemma reads_step (c c' c'' : config) :
  step c = Running c' -> reads c' c'' -> reads c c''.
Proof.
  intros H (k & Hk). exists (S k). intro m.
  rewrite (run_add_step k c c' H). apply Hk.
Qed.

Lemma reads_trans (c c' c'' : config) : reads c c' -> reads c' c'' -> reads c c''.
Proof.
  intros (k1 & H1) (k2 & H2). exists (k1 + k2). intro m.
  rewrite <- Nat.add_assoc, H1. apply H2.
Qed.

Lemma binds_tighter_weaken (n m : nat) (e : expression) :
  n <= m -> binds_tighter m e = true -> binds_tighter n e = true.
Proof.
  intros Hle H. destruct e; try reflexivity. cbn [binds_tighter] in *.
  apply Nat.ltb_lt in H. apply Nat.ltb_lt. lia.
Qed.

Lemma above_precedence_impl (fs : list frame) (p q : nat -> bool) :
  (forall n, p n = true -> q n = true) ->
  above_precedence fs p = true -> above_precedence fs q = true.
Proof.
  intro H. unfold above_precedence. destruct fs as [|f fs]; [reflexivity|].
  destruct (frame_precedence f); [apply H | reflexivity].
Qed.

(** After an operand that is no binary node every token may follow but an
    open parenthesis. *)
Lemma follows_ok_primary (e : expression) (ts : list token) :
  is_binary e = false -> starts_with_open ts = false -> follows_ok e ts = true.
Proof.
  intros He Hs. unfold follows_ok. rewrite Hs. cbn [negb andb].
  destruct ts as [|t ts]; [reflexivity|].
  destruct (as_binary_operator t); [|reflexivity].
  destruct e; try reflexivity. discriminate He.
Qed.

(** The parser reads the leaves of a tree that respects the precedences
    as that tree, wherever the tree may stand. *)
Lemma run_reads (e : expression) :
  forall (fs : list frame) (rest : list token),
    prec_ok e = true ->
    above_precedence fs (fun n => binds_tighter n e) = true ->
    follows_ok e rest = true ->
    reads (Config fs None (yield_expression e ++ rest))
          (Config fs (Some e) rest).
Proof.
  induction e as [x|n|s|b|l o r IHl IHr|u e IHe|e IHe|g args IHargs]
    using expression_induction; intros fs rest Hok Habove Hfollow;
    pose proof Hfollow as Hf0; unfold follows_ok in Hf0;
    apply andb_true_iff in Hf0 as [Hopen Hnext];
    apply negb_true_iff in Hopen.
  - eapply reads_step; [apply step_atomic; [reflexivity | exact Hopen]|].
    apply reads_refl.
  - eapply reads_step; [apply step_atomic; [reflexivity | exact Hopen]|].
    apply reads_refl.
  - eapply reads_step; [apply step_atomic; [reflexivity | exact Hopen]|].
    apply reads_refl.
  - eapply reads_step; [apply step_atomic; [reflexivity | exact Hopen]|].
    apply reads_refl.
  - cbn [prec_ok] in Hok.
    apply andb_true_iff in Hok as [Hok Hokr]. apply andb_true_iff in Hok as [Hok Hokl].
    apply andb_true_iff in Hok as [Hl Hr].
    cbn [yield_expression]. rewrite <- app_assoc. cbn [app].
    assert (Hshift : above_precedence fs (fun n => n <? binary_precedence o) = true)
      by exact Habove.
    eapply reads_trans.
    { apply IHl; [exact Hokl| |].
      - apply (above_precedence_impl fs (fun n => n <? binary_precedence o));
          [|exact Hshift].
        intros n Hn. destruct l; try reflexivity. cbn [binds_tighter binds_as_tight] in *.
        apply Nat.ltb_lt in Hn. apply Nat.leb_le in Hl. apply Nat.ltb_lt. lia.
      - unfold follows_ok. rewrite binary_lexeme_not_open, as_binary_operator_lexeme.
        exact Hl. }
    eapply reads_step; [apply step_shift_operator; exact Hshift|].
    eapply reads_trans.
    { apply IHr; [exact Hokr | exact Hr |].
      unfold follows_ok. rewrite Hopen. cbn [negb andb].
      destruct rest as [|t rest]; [reflexivity|].
      destruct (as_binary_operator t) as [o'|]; [|reflexivity].
      destruct r; try reflexivity. cbn [binds_tighter binds_as_tight] in *.
      apply Nat.ltb_lt in Hr. apply Nat.leb_le in Hnext. apply Nat.leb_le. lia. }
    eapply reads_step; [|apply reads_refl].
    apply (step_reduce (F_binary l o) fs r _ (binary_production o)); [reflexivity|].
    destruct rest as [|t rest]; [exact I|].
    destruct (as_binary_operator t) as [o'|]; [|exact I].
    rewrite binary_production_eq, resolve_left.
    cbn [binds_as_tight] in Hnext. apply Nat.leb_le in Hnext.
    destruct (binary_precedence o <? binary_precedence o') eqn:E; [|reflexivity].
    apply Nat.ltb_lt in E. lia.
  - cbn [prec_ok] in Hok. apply andb_true_iff in Hok as [Hu Hoke].
    assert (Hnb : is_binary e = false).
    { destruct e as [| | | |? o' ?| | |]; try reflexivity.
      cbn [binds_tighter] in Hu. apply Nat.ltb_lt in Hu.
      rewrite (f_equal fst (unary_production_eq u) : unary_precedence u = 8) in Hu.
      pose proof (binary_precedence_range o'). lia. }
    cbn [yield_expression app].
    eapply reads_step; [apply step_unary_operator|].
    eapply reads_trans.
    { apply IHe; [exact Hoke | exact Hu | apply follows_ok_primary; assumption]. }
    eapply reads_step; [|apply reads_refl].
    apply (step_reduce (F_unary u) fs e _ (unary_production u)); [reflexivity|].
    destruct rest as [|t rest]; [exact I|].
    destruct (as_binary_operator t) as [o'|]; [|exact I].
    rewrite unary_production_eq. apply resolve_unary.
    pose proof (binary_precedence_range o'). lia.
  - cbn [prec_ok] in Hok. cbn [yield_expression app]. rewrite <- app_assoc. cbn [app].
    eapply reads_step; [apply step_open_paren|].
    eapply reads_trans.
    { apply IHe; [exact Hok | reflexivity | reflexivity]. }
    eapply reads_step; [apply step_close_paren | apply reads_refl].
  - cbn [prec_ok] in Hok. cbn [yield_expression app]. rewrite <- app_assoc. cbn [app].
    eapply reads_step; [apply step_open_call|].
    destruct args as [|a args].
    { cbn [map comma_separated app].
      eapply reads_step; [apply step_close_empty_call | apply reads_refl]. }
    clear Habove Hfollow Hnext.
    assert (G : forall remaining first done,
               Forall (fun e =>
                         forall fs rest,
                           prec_ok e = true ->
                           above_precedence fs (fun n => binds_tighter n e) = true ->
                           follows_ok e rest = true ->
                           reads (Config fs None (yield_expression e ++ rest))
                                 (Config fs (Some e) rest))
                      (first :: remaining) ->
               forallb prec_ok (first :: remaining) = true ->
               reads (Config (F_call g done :: fs) None
                             (comma_separated
                                (map yield_expression (first :: remaining))
                                ++ Lit ")" :: rest))
                     (Config fs
                             (Some (E_function_call
                                      g (rev done ++ first :: remaining)))
                             rest)).
    { induction remaining as [|b remaining IHlist]; intros first done HP Hall;
        inversion HP as [|? ? Hfirst Hrest]; subst;
        cbn [forallb] in Hall; apply andb_true_iff in Hall as [Hokf Hokrest].
      - cbn [map comma_separated].
        eapply reads_trans.
        { apply Hfirst; [exact Hokf | reflexivity | reflexivity]. }
        eapply reads_step; [apply step_close_call | apply reads_refl].
      - change (comma_separated (map yield_expression (first :: b :: remaining)))
          with (yield_expression first ++ Lit ","
                  :: comma_separated (map yield_expression (b :: remaining))).
        rewrite <- app_assoc. cbn [app].
        eapply reads_trans.
        { apply Hfirst; [exact Hokf | reflexivity | reflexivity]. }
        eapply reads_step; [apply step_comma|].
        replace (rev done ++ first :: b :: remaining)
          with (rev (first :: done) ++ b :: remaining)
          by (cbn [rev]; rewrite <- app_assoc; reflexivity).
        apply IHlist; assumption. }
    apply (G args a []); assumption.
Qed.

Lemma run_stable (n m : nat) (c : config) (e : expression) :
  run n c = Accepted e ->
  run m c = Accepted e \/ exists c', run m c = Running c'.
Proof.
  revert m c. induction n as [|n IH]; intros m c H; cbn [run] in H;
    [discriminate H|].
  destruct m as [|m]; [right; exists c; reflexivity|]. cbn [run].
  destruct (step c) as [c'|e'| |]; try discriminate H.
  - apply IH, H.
  - left. exact H.
Qed.

(** The parser returns every tree that respects the precedences, from its
    leaves. *)
Lemma parse_expression_complete (e : expression) :
  prec_ok e = true -> parse_expression (yield_expression e) = Some e.
Proof.
  intro Hok.
  destruct (run_reads e [] [] Hok eq_refl eq_refl) as [k Hk].
  specialize (Hk 1). rewrite app_nil_r in Hk.
  change (run 1 (Config [] (Some e) [])) with (Accepted e) in Hk.
  unfold parse_expression.
  pose proof (parse_expression_answers (yield_expression e)) as Ha.
  destruct (run_stable _ (2 * List.length (yield_expression e) + 1) _ _ Hk)
    as [H | [c' H]]; rewrite H in *; [reflexivity | contradiction].
Qed.

(** The tree the parser returns for a token sequence is the tree with
    these leaves that respects the precedences. *)
Lemma parse_expression_iff (ts : list token) (e : expression) :
  parse_expression ts = Some e <-> yield_expression e = ts /\ prec_ok e = true.
Proof.
  split.
  - apply parse_expression_sound.
  - intros [<- Hok]. apply parse_expression_complete, Hok.
Qed.

(** Two trees that respect the precedences and have the same leaves are
    the same tree. *)
Lemma prec_ok_unique (e1 e2 : expression) :
  prec_ok e1 = true -> prec_ok e2 = true ->
  yield_expression e1 = yield_expression e2 -> e1 = e2.
Proof.
  intros H1 H2 Hy.
  apply parse_expression_complete in H1, H2. rewrite Hy in H1.
  congruence.
Qed.

Lemma operand_expression_binds (e : expression) (n : nat) :
  operand_expression e = true ->
  prec_ok e = true /\ binds_tighter n e = true /\ binds_as_tight n e = true.
Proof.
  unfold operand_expression. intro H. apply andb_true_iff in H as [Hb Hok].
  split; [exact Hok|]. destruct e; try (split; reflexivity). discriminate Hb.
Qed.

(** Two binary operators between three operands: the second operator
    takes the middle operand when its precedence is the higher one, the
    first operator otherwise. *)
Lemma parse_two_operators (a b c : expression) (o1 o2 : binary_operator) :
  operand_expression a = true -> operand_expression b = true ->
  operand_expression c = true ->
  parse_expression
    (yield_expression a ++ Lit (binary_lexeme o1) ::
     yield_expression b ++ Lit (binary_lexeme o2) :: yield_expression c)
  = Some (if binary_precedence o1 <? binary_precedence o2
          then E_binary_expression a o1 (E_binary_expression b o2 c)
          else E_binary_expression (E_binary_expression a o1 b) o2 c).
Proof.
  intros Ha Hb Hc.
  destruct (operand_expression_binds a (binary_precedence o1) Ha) as (Hoka & _ & Ha1).
  destruct (operand_expression_binds b (binary_precedence o1) Hb) as (Hokb & Hb1 & _).
  destruct (operand_expression_binds b (binary_precedence o2) Hb) as (_ & _ & Hb2).
  destruct (operand_expression_binds c (binary_precedence o2) Hc) as (Hokc & Hc2 & _).
  apply parse_expression_iff.
  destruct (binary_precedence o1 <? binary_precedence o2) eqn:E.
  - split; [reflexivity|]. cbn [prec_ok binds_tighter].
    rewrite Ha1, E, Hoka, Hb2, Hc2, Hokb, Hokc. reflexivity.
  - split; [cbn [yield_expression]; rewrite <- app_assoc; reflexivity|].
    cbn [prec_ok binds_as_tight].
    apply Nat.ltb_ge, Nat.leb_le in E.
    rewrite E, Hc2, Ha1, Hb1, Hoka, Hokb, Hokc. reflexivity.
Qed.

(** A unary operator takes the operand that follows it and nothing more,
    before and after a binary operator. *)
Lemma parse_unary_then_binary (u : unary_operator) (o : binary_operator)
      (a b : expression) :
  operand_expression a = true -> operand_expression b = true ->
  parse_expression
    (Lit (unary_lexeme u) :: yield_expression a
       ++ Lit (binary_lexeme o) :: yield_expression b)
  = Some (E_binary_expression (E_unary_expression u a) o b).
Proof.
  intros Ha Hb.
  destruct (operand_expression_binds a (unary_precedence u) Ha) as (Hoka & Ha1 & _).
  destruct (operand_expression_binds b (binary_precedence o) Hb) as (Hokb & Hb1 & _).
  apply parse_expression_iff. split; [reflexivity|].
  cbn [prec_ok binds_as_tight]. rewrite Hb1, Ha1, Hoka, Hokb. reflexivity.
Qed.

Lemma parse_binary_then_unary (u : unary_operator) (o : binary_operator)
      (a b : expression) :
  operand_expression a = true -> operand_expression b = true ->
  parse_expression
    (yield_expression a ++ Lit (binary_lexeme o) ::
     Lit (unary_lexeme u) :: yield_expression b)
  = Some (E_binary_expression a o (E_unary_expression u b)).
Proof.
  intros Ha Hb.
  destruct (operand_expression_binds a (binary_precedence o) Ha) as (Hoka & _ & Ha1).
  destruct (operand_expression_binds b (unary_precedence u) Hb) as (Hokb & Hb1 & _).
  apply parse_expression_iff. split; [reflexivity|].
  cbn [prec_ok binds_tighter]. rewrite Ha1, Hb1, Hoka, Hokb. reflexivity.
Qed.

End ParserFacts.

(** ** The statements *)

Module GrammarFacts.
Import Lexical Lexer Syntax Grammar.

Lemma yield_statement_first (s : statement) :
  exists rest, yield_statement s = first_token s :: rest.
Proof. destruct s; eexists; reflexivity. Qed.

(** A statement list whose leaves begin with [t] begins with a statement
    that begins with [t]. *)
Lemma yield_head (f : list statement) (t : token) (rest : list token) :
  yield f = t :: rest ->
  exists s f', f = s :: f' /\ first_token s = t
               /\ yield_statement s ++ yield f' = t :: rest.
Proof.
  destruct f as [|s f']; [discriminate|]. intro H.
  exists s, f'. split; [reflexivity|]. split; [|exact H].
  unfold yield in H. cbn [flat_map] in H.
  destruct (yield_statement_first s) as [r Er]. rewrite Er in H.
  injection H as H _. exact H.
Qed.

(** No statement begins with a comma, an open parenthesis or an equals
    sign. *)
Lemma first_token_not_punctuation (s : statement) :
  starts_with_one_of [","; "("; "="] [first_token s] = false.
Proof. destruct s as [| | | |[]| | | | | | | | | | | | | | | | | | | |]; reflexivity. Qed.

Lemma yield_not_punctuation (f : list statement) :
  starts_with_one_of [","; "("; "="] (yield f) = false.
Proof.
  destruct f as [|s f']; [reflexivity|].
  unfold yield. cbn [flat_map].
  destruct (yield_statement_first s) as [r ->].
  apply (first_token_not_punctuation s).
Qed.

Lemma without_extras_refl (ts : list token) : without_extras ts ts.
Proof. induction ts; constructor; assumption. Qed.

(** Among tokens without comments there are no extras. *)
Lemma without_extras_no_comment (ts us : list token) :
  existsb is_comment_token ts = false -> without_extras ts us -> us = ts.
Proof.
  intros Hc H. induction H as [|t ts us _ IH|c ts us _ _].
  - reflexivity.
  - cbn [existsb] in Hc. apply orb_false_iff in Hc as [_ Hc].
    rewrite (IH Hc). reflexivity.
  - discriminate Hc.
Qed.

(** A text whose tokens are the leaves of a valid tree is parsed by it. *)
Lemma is_parse_intro (src : string) (f : source_file) (ls : list leaf) :
  tokenize src = Some ls -> yield f = map tok ls ->
  valid_source_file f = true -> is_parse src f ls.
Proof.
  intros Ht Hy Hv. split; [exact Ht|]. split; [|exact Hv].
  rewrite Hy. apply without_extras_refl.
Qed.

(** A text without comments has the leaves of each of its parses as its
    tokens. *)
Lemma is_parse_tokens (src : string) (f : source_file) (ls : list leaf)
      (ts : list token) :
  tokens src = Some ts -> existsb is_comment_token ts = false ->
  is_parse src f ls -> yield f = ts.
Proof.
  unfold tokens. intros Ht Hc (Hl & Hy & _).
  rewrite Hl in Ht. injection Ht as <-.
  apply without_extras_no_comment; assumption.
Qed.

(** A text without comments whose tokens are the leaves of no tree is not
    accepted. *)
Lemma rejected_text (src : string) (ts : list token) :
  tokens src = Some ts -> existsb is_comment_token ts = false ->
  (forall f : source_file, yield f <> ts) -> ~ accepts_text src.
Proof.
  intros Ht Hc Hno (f & ls & Hf).
  apply (Hno f). exact (is_parse_tokens src f ls ts Ht Hc Hf).
Qed.

End GrammarFacts.

(* ================================================================== *)
(** * The claims of the specification *)
(* ================================================================== *)

Import Lexical Lexer Syntax Parser Grammar.
Import RegexFacts LexicalFacts LexerFacts SpanFacts ParserFacts GrammarFacts.

(** Case analysis on the statement that begins with a given token, and the
    leaves of a statement as one flat sequence. *)
Ltac by_first_token s H :=
  destruct s; cbn [first_token] in H; try discriminate H;
  try match goal with
      | k : declaration_keyword |- _ => destruct k; discriminate H
      end.

Ltac flatten_tokens H :=
  cbn [yield_statement app] in H;
  repeat (rewrite <- app_assoc in H; cbn [app] in H).

(** ** Expressions *)

(** C1.  A multiplicative operator binds tighter than an additive one.
    The text [2+3*4] parses as the sum of [2] and the product of [3] and
    [4].  For every additive operator [add] ([+], [-]), every
    multiplicative operator [mul] ([*], [/], [MOD], [INTDV]) and all
    operands [a], [b], [c] that are no binary nodes, [a add b mul c]
    parses as [a add (b mul c)] and [a mul b add c] as
    [(a mul b) add c].  And in
    every tree [e] the parser returns for a token sequence [ts], the leaves
    of [e] are [ts], [e] is the only tree with these leaves that respects
    the precedences, and no additive node is an operand of a
    multiplicative node. *)
Theorem multiplicative_binds_tighter_than_additive
        (add mul : binary_operator) (a b c : expression)
        (ts : list token) (e : expression) :
  In add [Op_add; Op_sub] ->
  In mul [Op_mul; Op_div; Op_MOD; Op_INTDV] ->
  operand_expression a = true -> operand_expression b = true ->
  operand_expression c = true ->
  parse_expression ts = Some e ->
  parse_expression_text "2+3*4"
  = Some (E_binary_expression
            (E_number "2") Op_add
            (E_binary_expression (E_number "3") Op_mul (E_number "4")))
  /\ parse_expression
       (yield_expression a ++ Lit (binary_lexeme add) ::
        yield_expression b ++ Lit (binary_lexeme mul) :: yield_expression c)
     = Some (E_binary_expression a add (E_binary_expression b mul c))
  /\ parse_expression
       (yield_expression a ++ Lit (binary_lexeme mul) ::
        yield_expression b ++ Lit (binary_lexeme add) :: yield_expression c)
     = Some (E_binary_expression (E_binary_expression a mul b) add c)
  /\ yield_expression e = ts
  /\ (forall e', yield_expression e' = ts -> prec_ok e' = true -> e' = e)
  /\ every_node (not_operand_of (binary_precedence add) (binary_precedence mul)) e
     = true.
Proof.
  intros Hadd Hmul Ha Hb Hc He.
  assert (Hp : binary_precedence add = 1 /\ binary_precedence mul = 2).
  { simpl in Hadd, Hmul.
    destruct Hadd as [<- | [<- | []]];
      destruct Hmul as [<- | [<- | [<- | [<- | []]]]]; split; reflexivity. }
  destruct Hp as [Padd Pmul].
  split; [reflexivity|].
  split; [rewrite parse_two_operators, Padd, Pmul by assumption; reflexivity|].
  split; [rewrite parse_two_operators, Padd, Pmul by assumption; reflexivity|].
  apply parse_expression_sound in He as [Hy Hok].
  split; [exact Hy|].
  split; [intros e' Hy' Hok'; apply prec_ok_unique; congruence|].
  apply prec_ok_not_operand_of; [lia | exact Hok].
Qed.

Lemma multiplicative_binds_tighter_than_additive_witness :
  parse_expression
    [Identifier "x"; Lit "-"; Number "3"; Lit "MOD"; Identifier "n"]
  = Some (E_binary_expression
            (E_identifier "x") Op_sub
            (E_binary_expression (E_number "3") Op_MOD (E_identifier "n"))).
Proof.
  exact (proj1 (proj2
    (multiplicative_binds_tighter_than_additive
       Op_sub Op_MOD (E_identifier "x") (E_number "3") (E_identifier "n")
       [Number "2"; Lit "+"; Number "3"; Lit "*"; Number "4"]
       (E_binary_expression
          (E_number "2") Op_add
          (E_binary_expression (E_number "3") Op_mul (E_number "4")))
       (or_intror (or_introl eq_refl))
       (or_intror (or_intror (or_introl eq_refl)))
       eq_refl eq_refl eq_refl eq_refl))).
Defined.

(** C2.  The binary operators group to the left and the unary operators
    bind tighter than all of them.  The text [2^3^2] parses as the power
    of [2^3] and [2].  For all binary operators [o1], [o2] of one
    precedence and all operands [a], [b], [c] that are no binary nodes,
    [a o1 b o2 c] parses as [(a o1 b) o2 c]; for every unary operator
    [u], [u a o1 b] parses as [(u a) o1 b] and [a o1 u b] as
    [a o1 (u b)].  Every binary production is left-associative with a
    precedence from 1 to 7, and every unary production has precedence 8.
    And every tree [e] the parser returns for a token sequence [ts] is
    the only tree with these leaves that respects the precedences; in it
    no right operand of a binary node has the precedence of the node and
    no unary node has a binary operand. *)
Theorem binary_operators_group_left
        (o1 o2 : binary_operator) (u : unary_operator) (a b c : expression)
        (ts : list token) (e : expression) :
  binary_precedence o1 = binary_precedence o2 ->
  operand_expression a = true -> operand_expression b = true ->
  operand_expression c = true ->
  parse_expression ts = Some e ->
  parse_expression_text "2^3^2"
  = Some (E_binary_expression
            (E_binary_expression (E_number "2") Op_pow (E_number "3"))
            Op_pow (E_number "2"))
  /\ parse_expression
       (yield_expression a ++ Lit (binary_lexeme o1) ::
        yield_expression b ++ Lit (binary_lexeme o2) :: yield_expression c)
     = Some (E_binary_expression (E_binary_expression a o1 b) o2 c)
  /\ parse_expression
       (Lit (unary_lexeme u) :: yield_expression a
          ++ Lit (binary_lexeme o1) :: yield_expression b)
     = Some (E_binary_expression (E_unary_expression u a) o1 b)
  /\ parse_expression
       (yield_expression a ++ Lit (binary_lexeme o1) ::
        Lit (unary_lexeme u) :: yield_expression b)
     = Some (E_binary_expression a o1 (E_unary_expression u b))
  /\ binary_production o1 = (binary_precedence o1, Assoc_left)
  /\ 1 <= binary_precedence o1 <= 7
  /\ unary_precedence u = 8
  /\ (forall e', yield_expression e' = ts -> prec_ok e' = true -> e' = e)
  /\ every_node groups_left e = true.
Proof.
  intros Hp Ha Hb Hc He.
  split; [reflexivity|].
  split; [rewrite parse_two_operators, Hp, Nat.ltb_irrefl by assumption; reflexivity|].
  split; [apply parse_unary_then_binary; assumption|].
  split; [apply parse_binary_then_unary; assumption|].
  split; [apply binary_production_eq|].
  split; [apply binary_precedence_range|].
  split; [destruct u; reflexivity|].
  apply parse_expression_sound in He as [Hy Hok].
  split; [intros e' Hy' Hok'; apply prec_ok_unique; congruence|].
  apply prec_ok_groups_left, Hok.
Qed.

Lemma binary_operators_group_left_witness :
  parse_expression
    [Identifier "a"; Lit "<="; Identifier "b"; Lit "="; Lit "True"]
  = Some (E_binary_expression
            (E_binary_expression (E_identifier "a") Op_le (E_identifier "b"))
            Op_eq (E_boolean B_True)).
Proof.
  exact (proj1 (proj2
    (binary_operators_group_left
       Op_le Op_eq Op_NOT (E_identifier "a") (E_identifier "b") (E_boolean B_True)
       [Number "2"; Lit "^"; Number "3"; Lit "^"; Number "2"]
       (E_binary_expression
          (E_binary_expression (E_number "2") Op_pow (E_number "3"))
          Op_pow (E_number "2"))
       eq_refl eq_refl eq_refl eq_refl eq_refl))).
Defined.

(** ** Spans *)




(** ** Keywords and numbers *)









(** ** Statements *)

(** C7, as stated, fails: with a parenthesised, comma-separated header the
    text of a [DataTable] block is not accepted, and neither is
    [CallTable(T)]: after either keyword the grammar takes an identifier,
    not a parenthesis.  The same statements without parentheses and commas
    are accepted. *)
Lemma table_header_in_parentheses_is_rejected :
  tokens "DataTable(T, True, 10) EndTable"
  = Some [Lit "DataTable"; Lit "("; Identifier "T"; Lit ","; Lit "True";
          Lit ","; Number "10"; Lit ")"; Lit "EndTable"]
  /\ ~ accepts_text "DataTable(T, True, 10) EndTable"
  /\ tokens "CallTable(T)"
     = Some [Lit "CallTable"; Lit "("; Identifier "T"; Lit ")"]
  /\ ~ accepts_text "CallTable(T)"
  /\ is_parse "DataTable T True 10 EndTable"
              [S_DataTable "T" B_True (E_number "10") []]
              [Leaf (Lit "DataTable") 0 9; Leaf (Identifier "T") 10 11;
               Leaf (Lit "True") 12 16; Leaf (Number "10") 17 19;
               Leaf (Lit "EndTable") 20 28]
  /\ is_parse "CallTable T" [S_CallTable "T"]
              [Leaf (Lit "CallTable") 0 9; Leaf (Identifier "T") 10 11].
Proof.
  split; [reflexivity|].
  split.
  { eapply rejected_text; [reflexivity | reflexivity |].
    intros f H. apply yield_head in H as (s & f' & -> & Hs & H).
    by_first_token s Hs. flatten_tokens H. discriminate H. }
  split; [reflexivity|].
  split.
  { eapply rejected_text; [reflexivity | reflexivity |].
    intros f H. apply yield_head in H as (s & f' & -> & Hs & H).
    by_first_token s Hs. flatten_tokens H. discriminate H. }
  split; apply is_parse_intro; reflexivity.
Qed.

(** C7 (amended).  A statement list whose leaves begin with [DataTable]
    begins with a table block: the keyword is followed directly by an
    identifier, a boolean literal and an expression, without parentheses
    and without commas, then by the statements of the body and by
    [EndTable].  One whose leaves begin with [CallTable] begins with the
    keyword followed directly by an identifier, without parentheses. *)
Theorem table_structure_shape
        (f : list statement) (keyword : string) (rest : list token) :
  keyword = "DataTable" \/ keyword = "CallTable" ->
  yield f = Lit keyword :: rest ->
  (keyword = "DataTable"
   /\ exists x b e body f',
       f = S_DataTable x b e body :: f'
       /\ rest = Identifier x :: Lit (boolean_lexeme b) ::
                   yield_expression e ++ yield body
                   ++ Lit "EndTable" :: yield f')
  \/ (keyword = "CallTable"
      /\ exists x f', f = S_CallTable x :: f' /\ rest = Identifier x :: yield f').
Proof.
  intros Hk H. apply yield_head in H as (s & f' & -> & Hs & H).
  destruct Hk as [-> | ->]; by_first_token s Hs; flatten_tokens H;
    injection H as <-.
  - left. split; [reflexivity|]. eexists _, _, _, _, _. split; reflexivity.
  - right. split; [reflexivity|]. eexists _, _. split; reflexivity.
Qed.

Lemma table_structure_shape_witness :
  exists x b e body f',
    [S_DataTable "T" B_True (E_number "10") [S_CallTable "T"]]
    = S_DataTable x b e body :: f'
    /\ [Identifier "T"; Lit "True"; Number "10"; Lit "CallTable";
        Identifier "T"; Lit "EndTable"]
       = Identifier x :: Lit (boolean_lexeme b) ::
           yield_expression e ++ yield body ++ Lit "EndTable" :: yield f'.
Proof.
  destruct (table_structure_shape
              [S_DataTable "T" B_True (E_number "10") [S_CallTable "T"]]
              "DataTable"
              [Identifier "T"; Lit "True"; Number "10"; Lit "CallTable";
               Identifier "T"; Lit "EndTable"]
              (or_introl eq_refl) eq_refl) as [[_ H] | [E _]].
  - exact H.
  - discriminate E.
Defined.




(** The thirteen type names, in the order of the source. *)
Lemma type_names :
  map type_lexeme
      [T_Boolean; T_Float; T_Double; T_Long; T_String; T_FP2; T_IEEE4;
       T_IEEE8; T_UINT1; T_UINT2; T_UINT4; T_Bool8; T_NSEC]
  = type
  /\ List.length type = 13.
Proof. split; reflexivity. Qed.

Lemma type_lexeme_in_type (t : type_name) : In (type_lexeme t) type.
Proof. destruct t; vm_compute; tauto. Qed.

(** C10.  A statement list whose leaves begin with [Dim] or [Public]
    begins with a variable declaration that consists of exactly that
    keyword, one identifier and, optionally, [As] and one of the thirteen
    type names.  What follows it is the next statement, which begins with
    neither a comma, nor an open parenthesis, nor an equals sign: a
    declaration takes no second variable, no array dimension and no
    initializer, and the texts [Dim a, b], [Dim a(10)] and [Dim a = 5] are
    not accepted. *)
Theorem variable_declaration_shape
        (f : list statement) (keyword : string) (rest : list token) :
  keyword = "Dim" \/ keyword = "Public" ->
  yield f = Lit keyword :: rest ->
  (exists k x ty f',
      f = S_variable_declaration k x ty :: f'
      /\ keyword = declaration_lexeme k
      /\ rest = Identifier x ::
                  match ty with
                  | Some t => [Lit "As"; Lit (type_lexeme t)]
                  | None => []
                  end ++ yield f'
      /\ match ty with
         | Some t => In (type_lexeme t) type
         | None => True
         end
      /\ starts_with_one_of [","; "("; "="] (yield f') = false)
  /\ List.length type = 13
  /\ tokens "Dim a, b" = Some [Lit "Dim"; Identifier "a"; Lit ","; Identifier "b"]
  /\ ~ accepts_text "Dim a, b"
  /\ tokens "Dim a(10)"
     = Some [Lit "Dim"; Identifier "a"; Lit "("; Number "10"; Lit ")"]
  /\ ~ accepts_text "Dim a(10)"
  /\ tokens "Dim a = 5" = Some [Lit "Dim"; Identifier "a"; Lit "="; Number "5"]
  /\ ~ accepts_text "Dim a = 5".
Proof.
  intros Hk H.
  assert (Hno : forall (g : source_file) x t rest',
             starts_with_one_of [","; "("; "="] (t :: rest') = true ->
             yield g <> Lit "Dim" :: Identifier x :: t :: rest').
  { intros g x t rest' Ht Hg.
    apply yield_head in Hg as (s & g' & -> & Hs & Hg).
    destruct s; cbn [first_token] in Hs; try discriminate Hs.
    flatten_tokens Hg. injection Hg as _ _ Hg.
    destruct as_type; cbn [yield_optional app] in Hg.
    - injection Hg as <- _. discriminate Ht.
    - fold (yield g') in Hg. rewrite <- Hg, yield_not_punctuation in Ht.
      discriminate Ht. }
  split.
  - apply yield_head in H as (s & f' & -> & Hs & H).
    assert (exists k x ty, s = S_variable_declaration k x ty
                           /\ keyword = declaration_lexeme k) as (k & x & ty & -> & ->).
    { destruct Hk as [-> | ->]; destruct s; cbn [first_token] in Hs;
        try discriminate Hs;
        match goal with k : declaration_keyword |- _ =>
          destruct k; try discriminate Hs end;
        eexists _, _, _; split; reflexivity. }
    flatten_tokens H. injection H as <-.
    exists k, x, ty, f'.
    split; [reflexivity|]. split; [reflexivity|].
    split; [destruct ty; reflexivity|].
    split; [destruct ty; [apply type_lexeme_in_type | exact I]|].
    apply yield_not_punctuation.
  - split; [reflexivity|].
    split; [reflexivity|].
    split; [eapply rejected_text;
            [reflexivity | reflexivity | intro g; apply Hno; reflexivity]|].
    split; [reflexivity|].
    split; [eapply rejected_text;
            [reflexivity | reflexivity | intro g; apply Hno; reflexivity]|].
    split; [reflexivity|].
    eapply rejected_text;
      [reflexivity | reflexivity | intro g; apply Hno; reflexivity].
Qed.

Lemma variable_declaration_shape_witness :
  exists k x ty f',
    [S_variable_declaration K_Public "x" (Some T_Float); S_CallTable "T"]
    = S_variable_declaration k x ty :: f'
    /\ "Public" = declaration_lexeme k
    /\ [Identifier "x"; Lit "As"; Lit "Float"; Lit "CallTable"; Identifier "T"]
       = Identifier x ::
           match ty with
           | Some t => [Lit "As"; Lit (type_lexeme t)]
           | None => []
           end ++ yield f'
    /\ match ty with
       | Some t => In (type_lexeme t) type
       | None => True
       end
    /\ starts_with_one_of [","; "("; "="] (yield f') = false.
Proof.
  exact (proj1 (variable_declaration_shape
                  [S_variable_declaration K_Public "x" (Some T_Float);
                   S_CallTable "T"]
                  "Public"
                  [Identifier "x"; Lit "As"; Lit "Float"; Lit "CallTable";
                   Identifier "T"]
                  (or_intror eq_refl) eq_refl)).
Defined.

(** *** The leaves of expressions and statements *)

Lemma yield_expression_nonempty (e : expression) : yield_expression e <> [].
Proof.
  destruct e; cbn [yield_expression]; try discriminate.
  intro H. apply app_eq_nil in H as [_ H]. discriminate H.
Qed.

Lemma expression_token_comma_separated (parts : list (list token)) :
  Forall (fun p => forallb expression_token p = true) parts ->
  forallb expression_token (comma_separated parts) = true.
Proof.
  induction 1 as [|p parts Hp _ IH]; [reflexivity|].
  destruct parts as [|q parts]; [exact Hp|].
  change (comma_separated (p :: q :: parts))
    with (p ++ Lit "," :: comma_separated (q :: parts)).
  rewrite forallb_app, Hp. cbn [forallb andb]. rewrite IH. reflexivity.
Qed.

(** Every leaf of an expression is an expression token. *)
Lemma yield_expression_tokens (e : expression) :
  forallb expression_token (yield_expression e) = true.
Proof.
  induction e as [x|n|s|b|l o r IHl IHr|o e IHe|e IHe|f args IHargs]
    using expression_induction; cbn [yield_expression].
  - reflexivity.
  - reflexivity.
  - reflexivity.
  - destruct b; reflexivity.
  - rewrite forallb_app, IHl. cbn [forallb andb]. rewrite IHr.
    destruct o; reflexivity.
  - cbn [forallb]. rewrite IHe. destruct o; reflexivity.
  - cbn [forallb]. rewrite forallb_app, IHe. reflexivity.
  - cbn [forallb]. rewrite forallb_app, expression_token_comma_separated.
    + reflexivity.
    + apply Forall_map. exact IHargs.
Qed.

(** An expression that is followed by a token that is not an expression
    token, one leaf after its beginning, has that one leaf. *)
Lemma yield_expression_one_leaf
      (e : expression) (after : list token) (t k : token) (rest : list token) :
  yield_expression e ++ after = t :: k :: rest ->
  expression_token k = false ->
  yield_expression e = [t] /\ after = k :: rest.
Proof.
  intros H Hk. pose proof (yield_expression_tokens e) as He.
  destruct (yield_expression e) as [|a [|b l]] eqn:E.
  - exfalso. exact (yield_expression_nonempty e E).
  - cbn [app] in H. injection H as <- <-. split; reflexivity.
  - cbn [app] in H. injection H as _ <- _.
    cbn [forallb] in He. rewrite Hk in He. rewrite andb_false_r in He.
    discriminate He.
Qed.

Lemma yield_number (e : expression) (n : string) :
  yield_expression e = [Number n] -> e = E_number n.
Proof.
  destruct e; cbn [yield_expression]; intro H; try discriminate H.
  - injection H as <-. reflexivity.
  - exfalso. destruct (yield_expression e1) as [|a l] eqn:E.
    + exact (yield_expression_nonempty e1 E).
    + cbn [app] in H. injection H as _ H. destruct l; discriminate H.
Qed.

Lemma yield_nil (f : list statement) : yield f = [] -> f = [].
Proof.
  destruct f as [|s f]; [reflexivity|]. unfold yield. cbn [flat_map].
  destruct (yield_statement_first s) as [r ->]. discriminate.
Qed.

(** The only tree with the leaves of [For i = 1 To 10 Step 2 Next j] is
    the loop with the opening name [i] and the closing name [j]. *)
Lemma for_loop_example_unique (f : source_file) :
  yield f
  = [Lit "For"; Identifier "i"; Lit "="; Number "1"; Lit "To"; Number "10";
     Lit "Step"; Number "2"; Lit "Next"; Identifier "j"] ->
  f = [S_for_loop "i" (E_number "1") (E_number "10") (Some (E_number "2")) []
                  (Some "j")].
Proof.
  intro H. apply yield_head in H as (s & f' & -> & Hs & H).
  by_first_token s Hs. flatten_tokens H. injection H as -> H.
  apply yield_expression_one_leaf in H as [E1 H]; [|reflexivity].
  apply yield_number in E1 as ->. injection H as H.
  apply yield_expression_one_leaf in H as [E2 H]; [|reflexivity].
  apply yield_number in E2 as ->.
  match type of H with
  | yield_optional _ ?o ++ _ = _ => destruct o as [e3|]
  end; cbn [yield_optional app] in H.
  - rewrite <- ?app_assoc in H. cbn [app] in H. injection H as H.
    apply yield_expression_one_leaf in H as [E3 H]; [|reflexivity].
    apply yield_number in E3 as ->.
    destruct body as [|s1 body].
    + cbn [flat_map app] in H. injection H as H.
      destruct variable_end as [y|]; cbn [yield_optional app] in H.
      * injection H as -> H. fold (yield f') in H. apply yield_nil in H as ->.
        reflexivity.
      * exfalso. fold (yield f') in H.
        apply yield_head in H as (s2 & f2 & -> & Hs2 & H).
        by_first_token s2 Hs2; flatten_tokens H; discriminate H.
    + exfalso. cbn [flat_map] in H.
      destruct (yield_statement_first s1) as [r Er]. rewrite Er in H.
      cbn [app] in H. injection H as Hs1 _.
      by_first_token s1 Hs1.
  - exfalso. destruct body as [|s1 body].
    + cbn [flat_map app] in H. discriminate H.
    + cbn [flat_map] in H.
      destruct (yield_statement_first s1) as [r Er]. rewrite Er in H.
      cbn [app] in H. injection H as Hs1 _.
      by_first_token s1 Hs1.
Qed.

(** C8, as stated, fails: [For i = 1 To 10 Step 2 Next j] is accepted.
    Its parse is the complete loop with the opening name [i] and the
    closing name [j], the only tree with these leaves; there is no error
    node and so no diagnostic. *)
Lemma for_loop_with_another_closing_name_is_accepted :
  is_parse "For i = 1 To 10 Step 2 Next j"
           [S_for_loop "i" (E_number "1") (E_number "10") (Some (E_number "2"))
                       [] (Some "j")]
           [Leaf (Lit "For") 0 3; Leaf (Identifier "i") 4 5; Leaf (Lit "=") 6 7;
            Leaf (Number "1") 8 9; Leaf (Lit "To") 10 12;
            Leaf (Number "10") 13 15; Leaf (Lit "Step") 16 20;
            Leaf (Number "2") 21 22; Leaf (Lit "Next") 23 27;
            Leaf (Identifier "j") 28 29]
  /\ accepts_text "For i = 1 To 10 Step 2 Next j"
  /\ (forall f ls, is_parse "For i = 1 To 10 Step 2 Next j" f ls ->
        f = [S_for_loop "i" (E_number "1") (E_number "10")
                        (Some (E_number "2")) [] (Some "j")])
  /\ "i" <> "j".
Proof.
  assert (H : is_parse "For i = 1 To 10 Step 2 Next j"
           [S_for_loop "i" (E_number "1") (E_number "10") (Some (E_number "2"))
                       [] (Some "j")]
           [Leaf (Lit "For") 0 3; Leaf (Identifier "i") 4 5; Leaf (Lit "=") 6 7;
            Leaf (Number "1") 8 9; Leaf (Lit "To") 10 12;
            Leaf (Number "10") 13 15; Leaf (Lit "Step") 16 20;
            Leaf (Number "2") 21 22; Leaf (Lit "Next") 23 27;
            Leaf (Identifier "j") 28 29])
    by (apply is_parse_intro; reflexivity).
  split; [exact H|].
  split; [eexists _, _; exact H|].
  split; [|discriminate].
  intros f ls Hf. apply for_loop_example_unique.
  apply (is_parse_tokens "For i = 1 To 10 Step 2 Next j" f ls); [| |exact Hf];
    reflexivity.
Qed.

(** C8 (amended).  The closing name of a [For] loop is not compared with
    the opening one.  For all identifiers [x] and [y], equal or not, all
    valid bounds, step and body, the loop [For x = e1 To e2 Step e3 ...
    Next y] is a valid, complete [for_loop] node with [x] as its variable
    and [y] as its closing name, and its leaves are accepted: no diagnostic
    arises from the two names. *)
Theorem for_loop_closing_name_is_not_compared
        (x y : string) (e1 e2 : expression) (step : option expression)
        (body : list statement) :
  is_identifier x = true -> is_identifier y = true ->
  valid_expression e1 = true -> valid_expression e2 = true ->
  valid_optional valid_expression step = true ->
  forallb valid_statement body = true -> right_associative_ok body = true ->
  valid_statement (S_for_loop x e1 e2 step body (Some y)) = true
  /\ rule_of (S_for_loop x e1 e2 step body (Some y)) = "for_loop"
  /\ yield [S_for_loop x e1 e2 step body (Some y)]
     = Lit "For" :: Identifier x :: Lit "=" :: yield_expression e1
         ++ Lit "To" :: yield_expression e2
         ++ yield_optional (fun e => Lit "Step" :: yield_expression e) step
         ++ yield body ++ [Lit "Next"; Identifier y]
  /\ accepts (yield [S_for_loop x e1 e2 step body (Some y)]).
Proof.
  intros Hx Hy H1 H2 Hs Hb Hr.
  assert (Hv : valid_statement (S_for_loop x e1 e2 step body (Some y)) = true).
  { cbn [valid_statement valid_optional].
    rewrite Hx, Hy, H1, H2, Hs, Hb, Hr. reflexivity. }
  split; [exact Hv|].
  split; [reflexivity|].
  split.
  - unfold yield. cbn [flat_map yield_statement yield_optional].
    rewrite app_nil_r. reflexivity.
  - exists [S_for_loop x e1 e2 step body (Some y)].
    split; [apply without_extras_refl|].
    unfold valid_source_file. cbn [forallb right_associative_ok].
    rewrite Hv. reflexivity.
Qed.

Lemma for_loop_closing_name_is_not_compared_witness :
  accepts [Lit "For"; Identifier "i"; Lit "="; Number "1"; Lit "To";
           Number "10"; Lit "Step"; Number "2"; Lit "Next"; Identifier "j"].
Proof.
  exact (proj2 (proj2 (proj2
    (for_loop_closing_name_is_not_compared
       "i" "j" (E_number "1") (E_number "10") (Some (E_number "2")) []
       eq_refl eq_refl eq_refl eq_refl eq_refl eq_refl eq_refl)))).
Defined.

(** *** Blocks and their terminators *)

(** The grammar derives [BeginProg] only together with its [EndProg]: a
    statement list whose leaves begin with [BeginProg] has an [EndProg]
    among the leaves that follow.  What a parser reports for a text without
    it is outside the grammar. *)
Lemma begin_prog_requires_end_prog (f : list statement) (rest : list token) :
  yield f = Lit "BeginProg" :: rest -> In (Lit "EndProg") rest.
Proof.
  intro H. apply yield_head in H as (s & f' & -> & Hs & H).
  by_first_token s Hs. flatten_tokens H. injection H as <-.
  apply in_or_app. right. left. reflexivity.
Qed.

Lemma begin_prog_alone_is_rejected :
  tokens "BeginProg x = 1" = Some [Lit "BeginProg"; Identifier "x"; Lit "="; Number "1"]
  /\ ~ accepts_text "BeginProg x = 1".
Proof.
  split; [reflexivity|].
  intros (f & ls & Hf).
  assert (Hy : yield f = [Lit "BeginProg"; Identifier "x"; Lit "="; Number "1"])
    by (apply (is_parse_tokens "BeginProg x = 1" f ls); [| |exact Hf];
        reflexivity).
  apply begin_prog_requires_end_prog in Hy.
  cbn [In] in Hy. intuition discriminate.
Qed.

(* ================================================================== *)
(** * Further properties of the grammar *)
(* ================================================================== *)

Import Blocks.

(** Induction over statements, with the statements of every body. *)
Lemma statement_induction (P : statement -> Prop) :
  (forall c, P (S_comment c)) ->
  (forall body, Forall P body -> P (S_BeginProg body)) ->
  (forall f ps body, Forall P body -> P (S_Function f ps body)) ->
  (forall f ps body, Forall P body -> P (S_Sub f ps body)) ->
  (forall k x ty, P (S_variable_declaration k x ty)) ->
  (forall x e, P (S_Const x e)) ->
  (forall entries, P (S_ConstTable entries)) ->
  (forall x a e, P (S_assignment x a e)) ->
  (forall f args, P (S_function_call f args)) ->
  (forall c body elseifs else_body,
      Forall P body ->
      Forall (fun cl => Forall P (elseif_body cl)) elseifs ->
      match else_body with Some b => Forall P b | None => True end ->
      P (S_if_statement c body elseifs else_body)) ->
  (forall x e1 e2 step body x_end,
      Forall P body -> P (S_for_loop x e1 e2 step body x_end)) ->
  (forall c body, Forall P body -> P (S_while_loop c body)) ->
  (forall body tail, Forall P body -> P (S_do_loop body tail)) ->
  (forall e cases,
      Forall (fun cl => Forall P (case_body cl)) cases ->
      P (S_select_statement e cases)) ->
  (forall e1 u e2 e3 body, Forall P body -> P (S_Scan e1 u e2 e3 body)) ->
  (forall e u body, Forall P body -> P (S_SubScan e u body)) ->
  (forall body, Forall P body -> P (S_SlowSequence body)) ->
  (forall items, P (S_DisplayMenu items)) ->
  (forall x items, P (S_SubMenu x items)) ->
  (forall x b e body, Forall P body -> P (S_DataTable x b e body)) ->
  (forall x, P (S_CallTable x)) ->
  (forall e body else_body,
      Forall P body ->
      match else_body with Some b => Forall P b | None => True end ->
      P (S_hash_If e body else_body)) ->
  (forall x body else_body,
      Forall P body ->
      match else_body with Some b => Forall P b | None => True end ->
      P (S_hash_IfDef x body else_body)) ->
  (forall x, P (S_hash_UnDef x)) ->
  (forall p, P (S_Include p)) ->
  forall s, P s.
Proof.
  intros Hcomment Hprog Hfun Hsub Hvar Hconst Htable Hassign Hcall Hif Hfor
         Hwhile Hdo Hselect Hscan Hsubscan Hslow Hmenu Hsubmenu Hdata Hcalltable
         Hhif Hifdef Hundef Hinclude.
  fix IH 1. intro s.
  destruct s as [c|body|f ps body|f ps body|k x ty|x e|entries|x a e|f args
                 |c body elseifs else_body|x e1 e2 step body x_end|c body
                 |body tail|e cases|e1 u e2 e3 body|e u body|body|items
                 |x items|x b e body|x|e body else_body|x body else_body|x|p];
    [apply Hcomment | apply Hprog | apply Hfun | apply Hsub | apply Hvar
     | apply Hconst | apply Htable | apply Hassign | apply Hcall | apply Hif
     | apply Hfor | apply Hwhile | apply Hdo | apply Hselect | apply Hscan
     | apply Hsubscan | apply Hslow | apply Hmenu | apply Hsubmenu
     | apply Hdata | apply Hcalltable | apply Hhif | apply Hifdef
     | apply Hundef | apply Hinclude];
    match goal with
    | |- match else_body with Some _ => _ | None => _ end =>
        destruct else_body as [body'|]; [|exact I];
        induction body' as [|s' body' IHbody]; constructor;
        [apply IH | exact IHbody]
    | |- Forall P body =>
        induction body as [|s' body IHbody]; constructor;
        [apply IH | exact IHbody]
    | |- Forall _ elseifs =>
        induction elseifs as [|[k' c' body'] elseifs IHcl]; constructor;
        [|exact IHcl];
        cbn [elseif_body];
        induction body' as [|s' body' IHbody]; constructor;
        [apply IH | exact IHbody]
    | |- Forall _ cases =>
        induction cases as [|[c' body'|c' body'|body'] cases IHcl];
        constructor; try exact IHcl;
        cbn [case_body];
        induction body' as [|s' body' IHbody]; constructor;
        (apply IH || exact IHbody)
    end.
Qed.

(** *** Blocks are well nested *)

Lemma depth_after_app (ops : list string) (cl : string) (a b : list token) (d : nat) :
  depth_after ops cl d (a ++ b)
  = match depth_after ops cl d a with
    | Some d' => depth_after ops cl d' b
    | None => None
    end.
Proof.
  revert d. induction a as [|t a IH]; intro d; [reflexivity|].
  destruct t as [k| | | |]; cbn [app depth_after]; try apply IH.
  destruct (existsb (String.eqb k) ops); [apply IH|].
  destruct (String.eqb k cl); [|apply IH].
  destruct d; [reflexivity | apply IH].
Qed.

Lemma depth_after_skip (ops : list string) (cl : string) (a b : list token) (d : nat) :
  (forall d', depth_after ops cl d' a = Some d') ->
  depth_after ops cl d (a ++ b) = depth_after ops cl d b.
Proof. intro H. rewrite depth_after_app, H. reflexivity. Qed.

Lemma depth_after_keep (ops : list string) (cl : string) (t : token)
      (ts : list token) (d : nat) :
  keeps_depth ops cl t = true ->
  depth_after ops cl d (t :: ts) = depth_after ops cl d ts.
Proof.
  destruct t as [k| | | |]; cbn [keeps_depth depth_after]; try reflexivity.
  intro H. apply andb_true_iff in H as [H1 H2].
  apply negb_true_iff in H1, H2. rewrite H1, H2. reflexivity.
Qed.

Lemma depth_after_open (ops : list string) (cl k : string)
      (ts : list token) (d : nat) :
  existsb (String.eqb k) ops = true ->
  depth_after ops cl d (Lit k :: ts) = depth_after ops cl (S d) ts.
Proof. intro H. cbn [depth_after]. rewrite H. reflexivity. Qed.

Lemma depth_after_close (ops : list string) (cl k : string)
      (ts : list token) (d : nat) :
  existsb (String.eqb k) ops = false -> String.eqb k cl = true ->
  depth_after ops cl (S d) (Lit k :: ts) = depth_after ops cl d ts.
Proof. intros H1 H2. cbn [depth_after]. rewrite H1, H2. reflexivity. Qed.

Lemma keeps_depth_neutral (ops : list string) (cl : string) (ts : list token) :
  forallb (keeps_depth ops cl) ts = true ->
  forall d, depth_after ops cl d ts = Some d.
Proof.
  induction ts as [|t ts IH]; intros H d; [reflexivity|].
  cbn [forallb] in H. apply andb_true_iff in H as [Ht Hts].
  rewrite depth_after_keep by exact Ht. apply IH, Hts.
Qed.

Lemma depth_after_flat_map {A : Type} (ops : list string) (cl : string)
      (leaves : A -> list token) (l : list A) :
  Forall (fun a => forall d, depth_after ops cl d (leaves a) = Some d) l ->
  forall d, depth_after ops cl d (flat_map leaves l) = Some d.
Proof.
  induction 1 as [|a l Ha _ IH]; intro d; [reflexivity|].
  cbn [flat_map]. rewrite depth_after_skip by exact Ha. apply IH.
Qed.

Lemma comma_separated_depth (ops : list string) (cl : string)
      (parts : list (list token)) :
  keeps_depth ops cl (Lit ",") = true ->
  Forall (fun p => forall d, depth_after ops cl d p = Some d) parts ->
  forall d, depth_after ops cl d (comma_separated parts) = Some d.
Proof.
  intro Hc. induction 1 as [|p parts Hp _ IH]; intro d; [reflexivity|].
  destruct parts as [|q parts]; [apply Hp|].
  change (comma_separated (p :: q :: parts))
    with (p ++ Lit "," :: comma_separated (q :: parts)).
  rewrite depth_after_skip by exact Hp.
  rewrite depth_after_keep by exact Hc. apply IH.
Qed.

Ltac each_bracket Hin :=
  cbn in Hin;
  repeat (let E := fresh "E" in
          destruct Hin as [E | Hin]; [injection E as <- <-|]);
  try contradiction.

Ltac bracket_token :=
  first [ rewrite depth_after_open by reflexivity
        | rewrite depth_after_close by reflexivity
        | rewrite depth_after_keep by reflexivity ].

(** The leaves of an expression open and close no block, and close every
    parenthesis they open. *)
Lemma yield_expression_depth (ops : list string) (cl : string) :
  In (ops, cl) (parentheses :: blocks) ->
  forall (e : expression) (d : nat),
    depth_after ops cl d (yield_expression e) = Some d.
Proof.
  intro Hin. each_bracket Hin.
  all: induction e as [x|n|s|b|l o r IHl IHr|o e IHe|e IHe|f args IHargs]
         using expression_induction; intro d; cbn [yield_expression app].
  all: try reflexivity.
  all: try (destruct b; reflexivity).
  all: try (rewrite depth_after_skip by exact IHl;
            rewrite depth_after_keep by (destruct o; reflexivity); apply IHr).
  all: try (rewrite depth_after_keep by (destruct o; reflexivity); apply IHe).
  all: try (bracket_token; rewrite depth_after_skip by exact IHe;
            bracket_token; reflexivity).
  all: rewrite depth_after_keep by reflexivity; bracket_token;
    rewrite depth_after_skip
      by (apply comma_separated_depth; [reflexivity | apply Forall_map; exact IHargs]);
    bracket_token; reflexivity.
Qed.

Lemma yield_parameter_list_depth (ops : list string) (cl : string) :
  In (ops, cl) (parentheses :: blocks) ->
  forall (ps : list string) (d : nat),
    depth_after ops cl d (yield_parameter_list ps) = Some d.
Proof.
  intro Hin. each_bracket Hin.
  all: intros ps d; unfold yield_parameter_list.
  all: bracket_token;
    rewrite depth_after_skip
      by (apply comma_separated_depth;
          [reflexivity | apply Forall_map, Forall_forall; reflexivity]);
    bracket_token; reflexivity.
Qed.

Lemma const_table_entries_depth (ops : list string) (cl : string) :
  In (ops, cl) (parentheses :: blocks) ->
  forall (entries : list (string * expression)) (d : nat),
    depth_after ops cl d
      (flat_map (fun xe => Identifier (fst xe) :: Lit "=" :: yield_expression (snd xe))
                entries) = Some d.
Proof.
  intros Hin entries. apply depth_after_flat_map, Forall_forall.
  intros [x e] _ d. cbn [fst snd].
  pose proof (yield_expression_depth ops cl Hin e) as He.
  each_bracket Hin.
  all: do 2 bracket_token; apply He.
Qed.

Lemma menu_items_depth (ops : list string) (cl : string) :
  In (ops, cl) (parentheses :: blocks) ->
  forall (items : list menu_item) (d : nat),
    depth_after ops cl d (flat_map yield_menu_item items) = Some d.
Proof.
  intros Hin items. apply depth_after_flat_map, Forall_forall.
  intros [label name] _ d. cbn [yield_menu_item].
  each_bracket Hin.
  all: reflexivity.
Qed.

Ltac enumerate_leaves :=
  repeat match goal with
         | x : declaration_keyword |- _ => destruct x
         | x : option _ |- _ => destruct x
         | x : loop_tail |- _ => destruct x
         | x : assignment_operator |- _ => destruct x
         | x : boolean_literal |- _ => destruct x
         | x : type_name |- _ => destruct x
         | x : elseif_keyword |- _ => destruct x
         end.

Ltac walk_leaves Hin :=
  cbn [yield_statement yield_elseif_clause yield_case_clause yield_optional
       yield_loop_tail app];
  repeat first
    [ match goal with |- depth_after _ _ _ [] = _ => reflexivity end
    | bracket_token
    | rewrite depth_after_skip by (intro; neutral_leaves Hin)
    | solve [neutral_leaves Hin] ]
with neutral_leaves Hin :=
  first [ apply (yield_expression_depth _ _ Hin)
        | apply (yield_parameter_list_depth _ _ Hin)
        | apply (const_table_entries_depth _ _ Hin)
        | apply (menu_items_depth _ _ Hin)
        | apply comma_separated_depth;
          [ reflexivity
          | apply Forall_map, Forall_forall; intros;
            apply (yield_expression_depth _ _ Hin) ]
        | apply (depth_after_flat_map _ _ yield_statement); assumption
        | apply (depth_after_flat_map _ _ yield_elseif_clause);
          eapply Forall_impl; [|eassumption];
          let b := fresh "b" in let Hb := fresh "Hb" in
          intros [[] ? b] Hb ?; cbn [elseif_body] in Hb; walk_leaves Hin
        | apply (depth_after_flat_map _ _ yield_case_clause);
          eapply Forall_impl; [|eassumption];
          let b := fresh "b" in let Hb := fresh "Hb" in
          intros [? b|? b|b] Hb ?; cbn [case_body] in Hb; walk_leaves Hin ].

(** The leaves of a statement open and close the same blocks, each
    closing keyword after its opening one, and likewise the parentheses. *)
Lemma yield_statement_depth (ops : list string) (cl : string) :
  In (ops, cl) (parentheses :: blocks) ->
  forall (s : statement) (d : nat),
    depth_after ops cl d (yield_statement s) = Some d.
Proof.
  intro Hin. pose proof Hin as Hin'. each_bracket Hin'.
  all: induction s using statement_induction; intro d.
  all: enumerate_leaves; walk_leaves Hin.
Qed.

Lemma without_extras_depth (ops : list string) (cl : string) (ts us : list token) :
  without_extras ts us ->
  forall d, depth_after ops cl d ts = depth_after ops cl d us.
Proof.
  induction 1 as [|t ts us _ IH|c ts us _ IH]; intro d.
  - reflexivity.
  - destruct t as [k| | | |]; cbn [depth_after]; try apply IH.
    destruct (existsb (String.eqb k) ops); [apply IH|].
    destruct (String.eqb k cl); [|apply IH].
    destruct d; [reflexivity | apply IH].
  - cbn [depth_after]. apply IH.
Qed.

(** *** One tree for the leaves of an expression, wherever it stands *)

Lemma ends_expression_follows (e : expression) (r : list token) :
  ends_expression r = true -> follows_ok e r = true.
Proof.
  unfold ends_expression, follows_ok. destruct r as [|t r]; [reflexivity|].
  intro H. apply andb_true_iff in H as [-> H].
  destruct (as_binary_operator t); [discriminate H | reflexivity].
Qed.

Lemma step_after_expression (e : expression) (r : list token) :
  ends_expression r = true ->
  forall c, step (Config [] (Some e) r) <> Running c.
Proof.
  unfold ends_expression, step, step_operand. cbn [operand stack input].
  destruct r as [|t r]; [discriminate|].
  intro H. apply andb_true_iff in H as [_ H].
  destruct (as_binary_operator t); [discriminate H | discriminate].
Qed.

Lemma run_halted (c : config) :
  (forall c', step c <> Running c') ->
  forall m c', run (S m) c <> Running c'.
Proof.
  intros H m c'. cbn [run].
  destruct (step c) as [c1| | |]; try discriminate.
  exfalso. exact (H c1 eq_refl).
Qed.

(** Two configurations the parser reaches from one, both of which it
    cannot leave, are the same. *)
Lemma reads_halted_unique (c c1 c2 : config) :
  reads c c1 -> reads c c2 ->
  (forall c', step c1 <> Running c') -> (forall c', step c2 <> Running c') ->
  c1 = c2.
Proof.
  intros [k1 H1] [k2 H2] Hs1 Hs2.
  destruct (Nat.lt_trichotomy k1 k2) as [Hlt | [-> | Hlt]].
  - exfalso. specialize (H1 (k2 - k1)). specialize (H2 0).
    replace (k1 + (k2 - k1)) with (k2 + 0) in H1 by lia.
    rewrite H2 in H1. cbn [run] in H1.
    replace (k2 - k1) with (S (k2 - k1 - 1)) in H1 by lia.
    symmetry in H1. exact (run_halted c1 Hs1 _ _ H1).
  - specialize (H1 0). specialize (H2 0). rewrite H1 in H2. cbn [run] in H2.
    injection H2 as ->. reflexivity.
  - exfalso. specialize (H2 (k1 - k2)). specialize (H1 0).
    replace (k2 + (k1 - k2)) with (k1 + 0) in H2 by lia.
    rewrite H1 in H2. cbn [run] in H2.
    replace (k1 - k2) with (S (k1 - k2 - 1)) in H2 by lia.
    symmetry in H2. exact (run_halted c2 Hs2 _ _ H2).
Qed.

(** Of the leaves of an expression followed by tokens that cannot
    continue it, the expression is the only one that can be read. *)
Lemma expression_read_unambiguously (e : expression) :
  read_unambiguously yield_expression expression_before e.
Proof.
  intros e' r r' [Hok Hr] [Hok' Hr'] H.
  pose proof (run_reads e [] r Hok eq_refl (ends_expression_follows e r Hr)) as R.
  pose proof (run_reads e' [] r' Hok' eq_refl (ends_expression_follows e' r' Hr'))
    as R'.
  rewrite <- H in R'.
  pose proof (reads_halted_unique _ _ _ R R'
                (step_after_expression e r Hr) (step_after_expression e' r' Hr'))
    as E.
  injection E as -> ->. split; reflexivity.
Qed.

(** *** One tree for the leaves of a statement list *)

Lemma starts_statement_first (s : statement) (r : list token) :
  starts_statement (first_token s :: r) = true.
Proof. destruct s as [| | | |[]| | | | | | | | | | | | | | | | | | | |]; reflexivity. Qed.

Lemma starts_statement_yield (s : statement) (r : list token) :
  starts_statement (yield_statement s ++ r) = true.
Proof.
  destruct (yield_statement_first s) as [rest ->]. apply starts_statement_first.
Qed.

Lemma starts_statement_not_closes (ts : list token) :
  starts_statement ts = true -> closes_block ts = false.
Proof.
  destruct ts as [|[k| | | |] ts]; try discriminate; try reflexivity.
  cbn [starts_statement closes_block]. intro H.
  apply existsb_exists in H as (k' & Hk & E). apply String.eqb_eq in E. subst k'.
  vm_compute in Hk.
  repeat (destruct Hk as [<- | Hk]; [reflexivity|]). contradiction.
Qed.

(** Nothing a statement list begins or ends with continues an
    expression. *)
Lemma boundary_ends_expression (ts : list token) :
  starts_statement ts || closes_block ts = true -> ends_expression ts = true.
Proof.
  destruct ts as [|[k| | | |] ts]; try discriminate; try reflexivity.
  cbn [starts_statement closes_block]. rewrite <- existsb_app. intro H.
  apply existsb_exists in H as (k' & Hk & E). apply String.eqb_eq in E. subst k'.
  vm_compute in Hk.
  repeat (destruct Hk as [<- | Hk]; [reflexivity|]). contradiction.
Qed.

Lemma ends_expression_statements (ss : list statement) (r : list token) :
  closes_block r = true ->
  ends_expression (flat_map yield_statement ss ++ r) = true.
Proof.
  intro H. apply boundary_ends_expression.
  destruct ss as [|s ss]; cbn [flat_map app].
  - rewrite H. apply orb_true_r.
  - rewrite <- app_assoc, starts_statement_yield. reflexivity.
Qed.

Lemma continued_by_head (s : statement) (t : token) (r r' : list token) :
  continued_by s (t :: r) = continued_by s (t :: r').
Proof. destruct s; try reflexivity. Qed.

Lemma closes_block_not_continued (s : statement) (r : list token) :
  closes_block r = true -> continued_by s r = false.
Proof.
  intro H.
  assert (Hid : starts_with_identifier r = false)
    by (destruct r as [|[] r]; try reflexivity; discriminate H).
  assert (Hlit : starts_with_literal "While" r || starts_with_literal "Until" r
                 = false).
  { destruct r as [|[k| | | |] r]; try reflexivity.
    cbn [closes_block] in H.
    apply existsb_exists in H as (k' & Hk & E). apply String.eqb_eq in E. subst k'.
    vm_compute in Hk.
    repeat (destruct Hk as [<- | Hk]; [reflexivity|]). contradiction. }
  destruct s; try reflexivity; cbn [continued_by].
  - destruct variable_end; [reflexivity | exact Hid].
  - destruct tail; try reflexivity. exact Hlit.
Qed.

(** Within a valid statement list every statement is followed as
    [follow_ok] asks. *)
Lemma follow_ok_in_list (s : statement) (ss : list statement) (r : list token) :
  right_associative_ok (s :: ss) = true -> closes_block r = true ->
  follow_ok s (flat_map yield_statement ss ++ r) = true.
Proof.
  intros Hra Hr. unfold follow_ok.
  destruct ss as [|next ss]; cbn [flat_map app].
  - rewrite Hr, orb_true_r, closes_block_not_continued by exact Hr. reflexivity.
  - rewrite <- app_assoc, starts_statement_yield. cbn [orb andb].
    cbn [right_associative_ok] in Hra. apply andb_true_iff in Hra as [Hra _].
    destruct (yield_statement_first next) as [rest E]. rewrite E in *.
    cbn [app]. rewrite (continued_by_head s _ _ rest). exact Hra.
Qed.

Lemma right_associative_ok_tail (s : statement) (ss : list statement) :
  right_associative_ok (s :: ss) = true -> right_associative_ok ss = true.
Proof.
  destruct ss as [|next ss]; [reflexivity|].
  cbn [right_associative_ok]. intro H. apply andb_true_iff in H as [_ H]. exact H.
Qed.

Lemma statements_read_unambiguously (ss : list statement) :
  Forall (read_unambiguously yield_statement statement_before) ss ->
  read_unambiguously (flat_map yield_statement) statements_before ss.
Proof.
  induction 1 as [|s ss Hs _ IH]; intros ss' r r' (Hv & Hra & Hc) (Hv' & Hra' & Hc') H.
  - destruct ss' as [|s' ss']; [split; [reflexivity | exact H]|].
    exfalso. cbn [flat_map app] in H. rewrite H, <- app_assoc in Hc.
    rewrite (starts_statement_not_closes _ (starts_statement_yield s' _)) in Hc.
    discriminate Hc.
  - destruct ss' as [|s' ss'].
    { exfalso. cbn [flat_map app] in H. rewrite <- H, <- app_assoc in Hc'.
      rewrite (starts_statement_not_closes _ (starts_statement_yield s _)) in Hc'.
      discriminate Hc'. }
    cbn [flat_map] in H. rewrite <- !app_assoc in H.
    cbn [forallb] in Hv, Hv'.
    apply andb_true_iff in Hv as [Hvs Hv]. apply andb_true_iff in Hv' as [Hvs' Hv'].
    apply Hs in H as [<- H].
    + apply IH in H as [<- <-]; [split; reflexivity | |].
      * split; [exact Hv|]. split; [|exact Hc].
        apply (right_associative_ok_tail s), Hra.
      * split; [exact Hv'|]. split; [|exact Hc'].
        apply (right_associative_ok_tail s), Hra'.
    + split; [exact Hvs | apply follow_ok_in_list; assumption].
    + split; [exact Hvs' | apply follow_ok_in_list; assumption].
Qed.

Lemma valid_expression_prec_ok (e : expression) :
  valid_expression e = true -> prec_ok e = true.
Proof. unfold valid_expression. intro H. apply andb_true_iff in H as [_ H]. exact H. Qed.

Lemma valid_arguments_prec_ok (args : list expression) :
  forallb valid_expression args = true -> forallb prec_ok args = true.
Proof.
  rewrite !forallb_forall. intros H e He. apply valid_expression_prec_ok, H, He.
Qed.

Lemma ends_expression_not_open (ts : list token) :
  ends_expression ts = true -> starts_with_open ts = false.
Proof.
  destruct ts as [|t ts]; [reflexivity|]. unfold ends_expression.
  intro H. apply andb_true_iff in H as [H _]. apply negb_true_iff, H.
Qed.

Lemma follow_ok_boundary (s : statement) (r : list token) :
  follow_ok s r = true -> starts_statement r || closes_block r = true.
Proof. unfold follow_ok. intro H. apply andb_true_iff in H as [H _]. exact H. Qed.

Lemma follow_ok_ends_expression (s : statement) (r : list token) :
  follow_ok s r = true -> ends_expression r = true.
Proof. intro H. apply boundary_ends_expression, (follow_ok_boundary s), H. Qed.

(** A statement list and what closes it begin as a statement or as the
    end of a list does. *)
Lemma boundary_statements (ss : list statement) (r : list token) :
  closes_block r = true ->
  starts_statement (flat_map yield_statement ss ++ r)
  || closes_block (flat_map yield_statement ss ++ r) = true.
Proof.
  intro H. destruct ss as [|s ss]; cbn [flat_map app].
  - rewrite H. apply orb_true_r.
  - rewrite <- app_assoc, starts_statement_yield. reflexivity.
Qed.

(** The first leaf of an expression is a token of an expression. *)
Lemma yield_expression_head (e : expression) (r : list token) (t : token)
      (rest : list token) :
  yield_expression e ++ r = t :: rest -> expression_token t = true.
Proof.
  intro H. pose proof (yield_expression_tokens e) as He.
  destruct (yield_expression e) as [|a l] eqn:E;
    [exfalso; exact (yield_expression_nonempty e E)|].
  cbn [app] in H. injection H as <- _.
  cbn [forallb] in He. apply andb_true_iff in He as [He _]. exact He.
Qed.

Lemma declaration_lexeme_inj (k k' : declaration_keyword) :
  declaration_lexeme k = declaration_lexeme k' -> k = k'.
Proof. destruct k; destruct k'; (reflexivity || discriminate). Qed.

Lemma assignment_lexeme_inj (a a' : assignment_operator) :
  assignment_lexeme a = assignment_lexeme a' -> a = a'.
Proof. destruct a; destruct a'; (reflexivity || discriminate). Qed.

Lemma type_lexeme_inj (t t' : type_name) : type_lexeme t = type_lexeme t' -> t = t'.
Proof. destruct t; destruct t'; (reflexivity || discriminate). Qed.

Lemma boolean_lexeme_inj (b b' : boolean_literal) :
  boolean_lexeme b = boolean_lexeme b' -> b = b'.
Proof. destruct b; destruct b'; (reflexivity || discriminate). Qed.

Lemma elseif_lexeme_inj (k k' : elseif_keyword) :
  elseif_lexeme k = elseif_lexeme k' -> k = k'.
Proof. destruct k; destruct k'; (reflexivity || discriminate). Qed.

(** The names between the parentheses of a parameter list. *)
Lemma parameter_names_unambiguous (ps ps' : list string) (r r' : list token) :
  comma_separated (map (fun p => [Identifier p]) ps) ++ Lit ")" :: r
  = comma_separated (map (fun p => [Identifier p]) ps') ++ Lit ")" :: r' ->
  ps = ps' /\ r = r'.
Proof.
  revert ps'. induction ps as [|p ps IH]; intros ps' H.
  - destruct ps' as [|p' [|q' ps']]; cbn in H; try discriminate H.
    injection H as <-. split; reflexivity.
  - destruct ps as [|q ps].
    + destruct ps' as [|p' [|q' ps']]; cbn in H; try discriminate H.
      injection H as <- <-. split; reflexivity.
    + destruct ps' as [|p' [|q' ps']];
        cbn [map comma_separated app] in H; try discriminate H.
      injection H as <- H.
      change (comma_separated (map (fun p => [Identifier p]) (q :: ps))
                ++ Lit ")" :: r
              = comma_separated (map (fun p => [Identifier p]) (q' :: ps'))
                  ++ Lit ")" :: r') in H.
      apply IH in H as [<- <-]. split; reflexivity.
Qed.

Lemma optional_parameters_unambiguous (ps ps' : option (list string))
      (r r' : list token) :
  starts_with_open r = false -> starts_with_open r' = false ->
  yield_optional yield_parameter_list ps ++ r
  = yield_optional yield_parameter_list ps' ++ r' ->
  ps = ps' /\ r = r'.
Proof.
  intros Hr Hr' H.
  destruct ps as [l|]; destruct ps' as [l'|];
    cbn [yield_optional yield_parameter_list app] in H.
  - injection H as H. rewrite <- !app_assoc in H. cbn [app] in H.
    apply parameter_names_unambiguous in H as [<- <-]. split; reflexivity.
  - rewrite <- H in Hr'. discriminate Hr'.
  - rewrite H in Hr. discriminate Hr.
  - split; [reflexivity | exact H].
Qed.

Lemma menu_items_unambiguous (items items' : list menu_item) (r r' : list token) :
  starts_with_literal "MenuItem" r = false ->
  starts_with_literal "MenuItem" r' = false ->
  flat_map yield_menu_item items ++ r = flat_map yield_menu_item items' ++ r' ->
  items = items' /\ r = r'.
Proof.
  intros Hr Hr'. revert items'.
  induction items as [|[l n] items IH]; intros [|[l' n'] items'] H;
    cbn [flat_map yield_menu_item app] in H.
  - split; [reflexivity | exact H].
  - rewrite H in Hr. discriminate Hr.
  - rewrite <- H in Hr'. discriminate Hr'.
  - injection H as <- <- H. apply IH in H as [<- <-]. split; reflexivity.
Qed.

Lemma const_table_entries_unambiguous
      (entries entries' : list (string * expression)) (r r' : list token) :
  forallb (fun xe => is_identifier (fst xe) && valid_expression (snd xe)) entries
  = true ->
  forallb (fun xe => is_identifier (fst xe) && valid_expression (snd xe)) entries'
  = true ->
  flat_map (fun xe => Identifier (fst xe) :: Lit "=" :: yield_expression (snd xe))
           entries ++ Lit "EndConstTable" :: r
  = flat_map (fun xe => Identifier (fst xe) :: Lit "=" :: yield_expression (snd xe))
             entries' ++ Lit "EndConstTable" :: r' ->
  entries = entries' /\ r = r'.
Proof.
  revert entries'.
  induction entries as [|[x e] entries IH]; intros [|[x' e'] entries'] Hv Hv' H;
    cbn [flat_map fst snd app] in H; try discriminate H.
  - injection H as <-. split; reflexivity.
  - injection H as <- H. rewrite <- !app_assoc in H.
    cbn [forallb fst snd] in Hv, Hv'. bools.
    apply (expression_read_unambiguously e) in H as [<- H].
    + apply IH in H as [<- <-]; [split; reflexivity | assumption | assumption].
    + split; [apply valid_expression_prec_ok; assumption|].
      destruct entries as [|[] ?]; reflexivity.
    + split; [apply valid_expression_prec_ok; assumption|].
      destruct entries' as [|[] ?]; reflexivity.
Qed.

Ltac other_statement H :=
  solve [ discriminate H
        | match goal with
          | k : declaration_keyword |- _ => destruct k; discriminate H
          end
        | match goal with
          | a : assignment_operator |- _ => destruct a; discriminate H
          end ].

Ltac expression_side :=
  split;
  [ apply valid_expression_prec_ok; assumption
  | first [ reflexivity
          | eapply follow_ok_ends_expression; eassumption
          | apply ends_expression_statements; reflexivity ] ].

Ltac statements_side :=
  split; [assumption | split; [assumption | reflexivity]].

Ltac read_expression H :=
  match type of H with
  | yield_expression ?e ++ _ = _ =>
      apply (expression_read_unambiguously e) in H as [<- H];
      [ | expression_side | expression_side ]
  end.

Ltac read_statements H :=
  match type of H with
  | flat_map yield_statement ?ss ++ _ = _ =>
      apply (statements_read_unambiguously ss) in H as [<- H];
      [ | assumption | statements_side | statements_side ]
  end.

Lemma elseif_rest_closes (cls : list elseif_clause) (r : list token) :
  starts_with_one_of ["Else"; "EndIf"] r = true ->
  closes_block (flat_map yield_elseif_clause cls ++ r) = true.
Proof.
  intro H. destruct cls as [|[[] c b] cls]; try reflexivity.
  destruct r as [|[k| | | |] r]; try discriminate H.
  cbn [flat_map app starts_with_one_of closes_block existsb] in *.
  apply orb_true_iff in H as [H | H];
    [|apply orb_true_iff in H as [H | H]; [|discriminate H]];
    apply String.eqb_eq in H; subst; reflexivity.
Qed.

Lemma case_rest_closes (cls : list case_clause) (r : list token) :
  starts_with_literal "EndSelect" r = true ->
  closes_block (flat_map yield_case_clause cls ++ r) = true.
Proof.
  intro H. destruct cls as [|[c b|c b|b] cls]; try reflexivity.
  destruct r as [|[k| | | |] r]; try discriminate H.
  cbn [flat_map app starts_with_literal closes_block] in *.
  apply String.eqb_eq in H. subst. reflexivity.
Qed.

Ltac statements_side_with lemma :=
  split; [assumption | split; [assumption | apply lemma; assumption]].

Lemma elseif_clauses_read_unambiguously (cls : list elseif_clause) :
  Forall (fun cl => Forall (read_unambiguously yield_statement statement_before)
                           (elseif_body cl)) cls ->
  read_unambiguously (flat_map yield_elseif_clause)
    (fun cls r => forallb valid_elseif_clause cls = true
                  /\ starts_with_one_of ["Else"; "EndIf"] r = true) cls.
Proof.
  induction 1 as [|[k c b] cls Hb _ IH];
    intros [|[k' c' b'] cls'] r r' [Hv Hr] [Hv' Hr'] Heq;
    cbn [flat_map yield_elseif_clause app] in Heq.
  - split; [reflexivity | exact Heq].
  - exfalso. rewrite Heq in Hr. destruct k'; discriminate Hr.
  - exfalso. rewrite <- Heq in Hr'. destruct k; discriminate Hr'.
  - cbn [forallb valid_elseif_clause elseif_body] in *. bools.
    repeat (rewrite <- app_assoc in Heq; cbn [app] in Heq).
    injection Heq as Hk Heq. apply elseif_lexeme_inj in Hk as <-.
    read_expression Heq. injection Heq as Heq.
    apply (statements_read_unambiguously b) in Heq;
      [destruct Heq as [<- Heq] | assumption
       | statements_side_with elseif_rest_closes
       | statements_side_with elseif_rest_closes].
    apply IH in Heq as [<- <-]; [split; reflexivity | split; assumption
                                 | split; assumption].
Qed.

Lemma case_clauses_read_unambiguously (cls : list case_clause) :
  Forall (fun cl => Forall (read_unambiguously yield_statement statement_before)
                           (case_body cl)) cls ->
  read_unambiguously (flat_map yield_case_clause)
    (fun cls r => forallb valid_case_clause cls = true
                  /\ starts_with_literal "EndSelect" r = true) cls.
Proof.
  induction 1 as [|cl cls Hb _ IH];
    intros [|cl' cls'] r r' [Hv Hr] [Hv' Hr'] Heq.
  - split; [reflexivity | exact Heq].
  - exfalso. cbn [flat_map app] in Heq. rewrite Heq in Hr.
    destruct cl'; discriminate Hr.
  - exfalso. cbn [flat_map app] in Heq. rewrite <- Heq in Hr'.
    destruct cl; discriminate Hr'.
  - cbn [forallb] in Hv, Hv'.
    apply andb_true_iff in Hv as [Hvc Hv]. apply andb_true_iff in Hv' as [Hvc' Hv'].
    assert (Hrest : forall rest rest',
               flat_map yield_case_clause cls ++ rest
               = flat_map yield_case_clause cls' ++ rest' ->
               rest = r -> rest' = r' -> cl = cl' ->
               cl :: cls = cl' :: cls' /\ r = r').
    { intros rest rest' E -> -> <-.
      apply IH in E as [<- <-]; [split; reflexivity | split; assumption
                                 | split; assumption]. }
    destruct cl as [c b|c b|b]; destruct cl' as [c' b'|c' b'|b'];
      cbn [flat_map yield_case_clause app case_body valid_case_clause] in *; bools;
      repeat (rewrite <- app_assoc in Heq; cbn [app] in Heq);
      injection Heq as Heq;
      try (exfalso; apply yield_expression_head in Heq; vm_compute in Heq;
           discriminate Heq);
      try (exfalso; symmetry in Heq; apply yield_expression_head in Heq;
           vm_compute in Heq; discriminate Heq);
      try discriminate Heq.
    + apply (expression_read_unambiguously c) in Heq;
        [destruct Heq as [<- Heq]
        | split; [apply valid_expression_prec_ok; assumption
                 | apply ends_expression_statements, case_rest_closes; assumption]
        | split; [apply valid_expression_prec_ok; assumption
                 | apply ends_expression_statements, case_rest_closes; assumption]].
      apply (statements_read_unambiguously b) in Heq;
        [destruct Heq as [<- Heq] | assumption
         | statements_side_with case_rest_closes
         | statements_side_with case_rest_closes].
      apply (Hrest _ _ Heq); reflexivity.
    + apply (expression_read_unambiguously c) in Heq;
        [destruct Heq as [<- Heq]
        | split; [apply valid_expression_prec_ok; assumption
                 | apply ends_expression_statements, case_rest_closes; assumption]
        | split; [apply valid_expression_prec_ok; assumption
                 | apply ends_expression_statements, case_rest_closes; assumption]].
      apply (statements_read_unambiguously b) in Heq;
        [destruct Heq as [<- Heq] | assumption
         | statements_side_with case_rest_closes
         | statements_side_with case_rest_closes].
      apply (Hrest _ _ Heq); reflexivity.
    + apply (statements_read_unambiguously b) in Heq;
        [destruct Heq as [<- Heq] | assumption
         | statements_side_with case_rest_closes
         | statements_side_with case_rest_closes].
      apply (Hrest _ _ Heq); reflexivity.
Qed.

Lemma cons_eq_inv (t t' : token) (l l' : list token) :
  t :: l = t' :: l' -> t = t' /\ l = l'.
Proof. intro H. injection H as -> ->. split; reflexivity. Qed.

(** The first tokens of the two sides are compared: the same literal on
    both sides is dropped, names and operators are identified. *)
Ltac read_token H :=
  let Ht := fresh "Ht" in
  apply cons_eq_inv in H; destruct H as [Ht H];
  first [ discriminate Ht
        | injection Ht as Ht;
          first [ apply declaration_lexeme_inj in Ht
                | apply assignment_lexeme_inj in Ht
                | apply type_lexeme_inj in Ht
                | apply boolean_lexeme_inj in Ht
                | apply elseif_lexeme_inj in Ht
                | idtac ];
          first [ subst | idtac ]
        | clear Ht ].

Ltac read_tokens H :=
  repeat match type of H with
         | _ :: _ = _ :: _ => read_token H
         end.

Ltac done_reading H := first [ subst; split; reflexivity | rewrite H; split; reflexivity ].

(** A [For] loop up to its [Next]: variable, bounds, step and body are
    read in one way only, whatever comes after [Next]. *)
Lemma for_loop_head_unambiguous
      (x x' : string) (e1 e1' e2 e2' : expression) (step step' : option expression)
      (body body' : list statement) (r r' : list token) :
  Forall (read_unambiguously yield_statement statement_before) body ->
  valid_statement (S_for_loop x e1 e2 step body None) = true ->
  valid_statement (S_for_loop x' e1' e2' step' body' None) = true ->
  Lit "For" :: Identifier x :: Lit "=" :: yield_expression e1
    ++ Lit "To" :: yield_expression e2
    ++ yield_optional (fun e => Lit "Step" :: yield_expression e) step
    ++ flat_map yield_statement body ++ Lit "Next" :: r
  = Lit "For" :: Identifier x' :: Lit "=" :: yield_expression e1'
      ++ Lit "To" :: yield_expression e2'
      ++ yield_optional (fun e => Lit "Step" :: yield_expression e) step'
      ++ flat_map yield_statement body' ++ Lit "Next" :: r' ->
  x = x' /\ e1 = e1' /\ e2 = e2' /\ step = step' /\ body = body' /\ r = r'.
Proof.
  intros Hbody Hv Hv' Heq. cbn [valid_statement] in Hv, Hv'. bools.
  read_tokens Heq. read_expression Heq. read_tokens Heq.
  destruct step as [e3|]; destruct step' as [e3'|];
    cbn [yield_optional app valid_optional] in *;
    read_expression Heq; read_tokens Heq;
    try (exfalso;
         match type of Heq with
         | _ = flat_map yield_statement ?b ++ ?rest =>
             pose proof (boundary_statements b rest eq_refl) as B;
             rewrite <- Heq in B; discriminate B
         | flat_map yield_statement ?b ++ ?rest = _ =>
             pose proof (boundary_statements b rest eq_refl) as B;
             rewrite Heq in B; discriminate B
         end);
    try read_expression Heq;
    read_statements Heq; read_tokens Heq; subst; repeat split; reflexivity.
Qed.

Lemma starts_expression_yield (e : expression) (r : list token) :
  starts_expression (yield_expression e ++ r) = true.
Proof.
  revert r. induction e as [x|n|s|b|l o r0 IHl IHr|o e IHe|e IHe|f args IHargs]
    using expression_induction; intro r; cbn [yield_expression app];
    try reflexivity.
  - destruct b; reflexivity.
  - rewrite <- app_assoc. apply IHl.
  - destruct o; reflexivity.
Qed.

(** The arguments between the parentheses of a call. *)
Lemma arguments_unambiguous (args args' : list expression) (r r' : list token) :
  forallb prec_ok args = true -> forallb prec_ok args' = true ->
  comma_separated (map yield_expression args) ++ Lit ")" :: r
  = comma_separated (map yield_expression args') ++ Lit ")" :: r' ->
  args = args' /\ r = r'.
Proof.
  revert args'. induction args as [|a args IH]; intros args' Hv Hv' H.
  - destruct args' as [|a' args']; cbn [map comma_separated app] in H.
    + injection H as <-. split; reflexivity.
    + exfalso.
      assert (E : yield_expression a'
                    ++ match args' with
                       | [] => Lit ")" :: r'
                       | _ => Lit "," :: comma_separated (map yield_expression args')
                                ++ Lit ")" :: r'
                       end = Lit ")" :: r).
      { rewrite H. destruct args'; [reflexivity|].
        cbn [map comma_separated]. rewrite <- app_assoc. reflexivity. }
      pose proof (starts_expression_yield a' (match args' with
                       | [] => Lit ")" :: r'
                       | _ => Lit "," :: comma_separated (map yield_expression args')
                                ++ Lit ")" :: r'
                       end)) as S. rewrite E in S. discriminate S.
  - destruct args' as [|a' args'].
    + exfalso. cbn [map comma_separated app] in H.
      assert (E : yield_expression a
                    ++ match args with
                       | [] => Lit ")" :: r
                       | _ => Lit "," :: comma_separated (map yield_expression args)
                                ++ Lit ")" :: r
                       end = Lit ")" :: r').
      { rewrite <- H. destruct args; [reflexivity|].
        cbn [map comma_separated]. rewrite <- app_assoc. reflexivity. }
      pose proof (starts_expression_yield a (match args with
                       | [] => Lit ")" :: r
                       | _ => Lit "," :: comma_separated (map yield_expression args)
                                ++ Lit ")" :: r
                       end)) as S. rewrite E in S. discriminate S.
    + cbn [forallb] in Hv, Hv'. bools.
      assert (E : yield_expression a
                    ++ match args with
                       | [] => Lit ")" :: r
                       | _ => Lit "," :: comma_separated (map yield_expression args)
                                ++ Lit ")" :: r
                       end
                  = yield_expression a'
                      ++ match args' with
                         | [] => Lit ")" :: r'
                         | _ => Lit "," :: comma_separated (map yield_expression args')
                                  ++ Lit ")" :: r'
                         end).
      { destruct args; destruct args'; cbn [map comma_separated] in *;
          rewrite <- ?app_assoc in H; exact H. }
      apply (expression_read_unambiguously a) in E;
        [ destruct E as [<- E]
        | split; [assumption | destruct args; reflexivity]
        | split; [assumption | destruct args'; reflexivity] ].
      destruct args as [|b args]; destruct args' as [|b' args'];
        try discriminate E.
      * injection E as <-. split; reflexivity.
      * injection E as E.
        apply (IH (b' :: args')) in E as [E <-]; try assumption.
        rewrite E. split; reflexivity.
Qed.

Lemma statement_read_unambiguously (s : statement) :
  read_unambiguously yield_statement statement_before s.
Proof.
  induction s using statement_induction; intros s2 r r' [Hv Hf] [Hv' Hf'] Heq;
    destruct s2; cbn [yield_statement app] in Heq; try other_statement Heq;
    cbn [valid_statement] in Hv, Hv'; bools;
    repeat (rewrite <- app_assoc in Heq; cbn [app] in Heq).
  - (* comment *)
    injection Heq as <- <-. split; reflexivity.
  - (* BeginProg *)
    injection Heq as Heq. read_statements Heq.
    injection Heq as <-. split; reflexivity.
  - (* Function *)
    injection Heq as <- Heq.
    apply optional_parameters_unambiguous in Heq as [<- Heq];
      [ | apply ends_expression_not_open, ends_expression_statements; reflexivity
        | apply ends_expression_not_open, ends_expression_statements; reflexivity ].
    read_statements Heq. injection Heq as <-. split; reflexivity.
  - (* Sub *)
    injection Heq as <- Heq.
    apply optional_parameters_unambiguous in Heq as [<- Heq];
      [ | apply ends_expression_not_open, ends_expression_statements; reflexivity
        | apply ends_expression_not_open, ends_expression_statements; reflexivity ].
    read_statements Heq. injection Heq as <-. split; reflexivity.
  - (* variable_declaration *)
    injection Heq as Hk <- Heq. apply declaration_lexeme_inj in Hk as <-.
    destruct ty as [t|]; destruct as_type as [t'|]; cbn [yield_optional app] in Heq.
    + injection Heq as Ht <-. apply type_lexeme_inj in Ht as <-. split; reflexivity.
    + exfalso. rewrite <- Heq in Hf'. discriminate Hf'.
    + exfalso. rewrite Heq in Hf. discriminate Hf.
    + subst. split; reflexivity.
  - (* Const *)
    injection Heq as <- Heq. read_expression Heq. subst. split; reflexivity.
  - (* ConstTable *)
    injection Heq as Heq.
    apply const_table_entries_unambiguous in Heq as [<- <-]; try assumption.
    split; reflexivity.
  - (* assignment *)
    injection Heq as <- Ha Heq. apply assignment_lexeme_inj in Ha as <-.
    read_expression Heq. subst. split; reflexivity.
  - (* function_call *)
    match type of Heq with
    | Identifier ?f :: _ :: comma_separated (map _ ?a) ++ _ :: ?r
      = Identifier ?f' :: _ :: comma_separated (map _ ?a') ++ _ :: ?r' =>
        assert (E : yield_expression (E_function_call f a) ++ r
                    = yield_expression (E_function_call f' a') ++ r')
          by (cbn [yield_expression app]; rewrite <- !app_assoc; exact Heq);
        apply (expression_read_unambiguously (E_function_call f a)) in E;
        [ destruct E as [E <-]; injection E as <- <-; split; reflexivity
        | split; [cbn [prec_ok]; apply valid_arguments_prec_ok; assumption
                 | eapply follow_ok_ends_expression; eassumption]
        | split; [cbn [prec_ok]; apply valid_arguments_prec_ok; assumption
                 | eapply follow_ok_ends_expression; eassumption] ]
    end.
  - (* if_statement *)
    read_tokens Heq. read_expression Heq. read_tokens Heq.
    repeat match goal with
           | o : option (list statement) |- _ => destruct o
           end;
      cbn [app] in Heq;
      (apply (statements_read_unambiguously body) in Heq;
       [ destruct Heq as [<- Heq] | assumption
       | split; [assumption | split; [assumption | apply elseif_rest_closes; reflexivity]]
       | split; [assumption | split; [assumption | apply elseif_rest_closes; reflexivity]] ]);
      (apply (elseif_clauses_read_unambiguously elseifs) in Heq;
       [ destruct Heq as [<- Heq] | assumption
       | split; [assumption | reflexivity]
       | split; [assumption | reflexivity] ]);
      read_tokens Heq; bools.
    + read_statements Heq. read_tokens Heq. subst. split; reflexivity.
    + subst. split; reflexivity.
  - (* for_loop *)
    match goal with
    | Hb : Forall _ ?b |- _ =>
        apply (for_loop_head_unambiguous _ _ _ _ _ _ _ _ b) in Heq;
        [ destruct Heq as (<- & <- & <- & <- & <- & Heq)
        | exact Hb
        | cbn [valid_statement];
          repeat match goal with Hx : _ = true |- _ => rewrite Hx end;
          reflexivity
        | cbn [valid_statement];
          repeat match goal with Hx : _ = true |- _ => rewrite Hx end;
          reflexivity ]
    end.
    repeat match goal with
           | o : option string |- _ => destruct o
           end;
      cbn [yield_optional app] in Heq; read_tokens Heq;
      try (subst; split; reflexivity);
      try (exfalso; rewrite <- Heq in Hf'; discriminate Hf');
      try (exfalso; rewrite Heq in Hf; discriminate Hf).
  - (* while_loop *)
    read_tokens Heq. read_expression Heq. read_statements Heq.
    read_tokens Heq. subst. split; reflexivity.
  - (* do_loop *)
    read_tokens Heq.
    repeat match goal with
           | t : loop_tail |- _ => destruct t
           end;
      cbn [yield_loop_tail app valid_loop_tail] in *;
      read_statements Heq; read_tokens Heq;
      try (subst; split; reflexivity);
      try (exfalso; rewrite <- Heq in Hf'; discriminate Hf');
      try (exfalso; rewrite Heq in Hf; discriminate Hf);
      read_expression Heq; subst; split; reflexivity.
  - (* select_statement *)
    read_tokens Heq.
    apply (expression_read_unambiguously e) in Heq;
      [ destruct Heq as [<- Heq]
      | split; [apply valid_expression_prec_ok; assumption
               | apply boundary_ends_expression; rewrite case_rest_closes by reflexivity;
                 apply orb_true_r]
      | split; [apply valid_expression_prec_ok; assumption
               | apply boundary_ends_expression; rewrite case_rest_closes by reflexivity;
                 apply orb_true_r] ].
    apply (case_clauses_read_unambiguously cases) in Heq;
      [ destruct Heq as [<- Heq] | assumption
      | split; [assumption | reflexivity]
      | split; [assumption | reflexivity] ].
    read_tokens Heq. subst. split; reflexivity.
  - (* Scan *)
    read_tokens Heq. read_expression Heq. read_tokens Heq.
    read_expression Heq. read_tokens Heq. read_expression Heq. read_tokens Heq.
    read_statements Heq. read_tokens Heq. subst. split; reflexivity.
  - (* SubScan *)
    read_tokens Heq. read_expression Heq. read_tokens Heq.
    read_statements Heq. read_tokens Heq. subst. split; reflexivity.
  - (* SlowSequence *)
    read_tokens Heq. read_statements Heq. read_tokens Heq. subst. split; reflexivity.
  - (* DisplayMenu *)
    read_tokens Heq.
    apply menu_items_unambiguous in Heq as [<- Heq]; try reflexivity.
    read_tokens Heq. subst. split; reflexivity.
  - (* SubMenu *)
    read_tokens Heq.
    apply menu_items_unambiguous in Heq as [<- Heq]; try reflexivity.
    read_tokens Heq. subst. split; reflexivity.
  - (* DataTable *)
    read_tokens Heq. read_expression Heq. read_statements Heq.
    read_tokens Heq. subst. split; reflexivity.
  - (* CallTable *)
    read_tokens Heq. subst. split; reflexivity.
  - (* #If *)
    read_tokens Heq.
    repeat match goal with
           | o : option (list statement) |- _ => destruct o
           end;
      cbn [app] in Heq;
      read_expression Heq;
      read_statements Heq; read_tokens Heq; bools;
      try (subst; split; reflexivity);
      read_statements Heq; read_tokens Heq; subst; split; reflexivity.
  - (* #IfDef *)
    read_tokens Heq.
    repeat match goal with
           | o : option (list statement) |- _ => destruct o
           end;
      cbn [app] in Heq;
      read_statements Heq; read_tokens Heq; bools;
      try (subst; split; reflexivity);
      read_statements Heq; read_tokens Heq; subst; split; reflexivity.
  - (* #UnDef *)
    read_tokens Heq. subst. split; reflexivity.
  - (* Include *)
    read_tokens Heq. subst. split; reflexivity.
Qed.

(* ================================================================== *)
(** ** Blocks, and the one tree of a token sequence *)
(* ================================================================== *)

(** X1.  In every accepted token sequence the blocks are well nested:
    for each opening keyword of a block and the keyword that closes it
    ([BeginProg]/[EndProg], [If]/[EndIf], [For]/[Next], [Do]/[Loop],
    [#If] and [#IfDef]/[#EndIf], and so on), no closing keyword comes
    before its opening one, and at the end none is missing. *)
Theorem blocks_are_well_nested
        (ts : list token) (openers : list string) (closer : string) :
  accepts ts -> In (openers, closer) blocks ->
  depth_after openers closer 0 ts = Some 0.
Proof.
  intros (f & Hw & _) Hin.
  rewrite (without_extras_depth openers closer ts (yield f) Hw).
  apply (depth_after_flat_map openers closer yield_statement).
  apply Forall_forall. intros s _. apply yield_statement_depth. right. exact Hin.
Qed.

Lemma blocks_are_well_nested_witness :
  depth_after ["If"] "EndIf" 0
    [Lit "If"; Identifier "a"; Lit "Then";
     Lit "If"; Identifier "b"; Lit "Then"; Lit "EndIf";
     Lit "Else"; Identifier "x"; Lit "="; Number "1"; Lit "EndIf"]
  = Some 0.
Proof.
  apply blocks_are_well_nested.
  - exists [S_if_statement (E_identifier "a")
              [S_if_statement (E_identifier "b") [] [] None] []
              (Some [S_assignment "x" A_set (E_number "1")])].
    split; [apply without_extras_refl | reflexivity].
  - do 4 right. left. reflexivity.
Defined.

(** X2.  The grammar with its precedences is unambiguous: two valid trees
    with the same leaves are the same tree. *)
Theorem one_tree_for_the_leaves (f1 f2 : source_file) :
  valid_source_file f1 = true -> valid_source_file f2 = true ->
  yield f1 = yield f2 -> f1 = f2.
Proof.
  unfold valid_source_file, yield. intros H1 H2 H.
  apply andb_true_iff in H1 as [Hv1 Hr1]. apply andb_true_iff in H2 as [Hv2 Hr2].
  destruct (statements_read_unambiguously f1) with (a' := f2) (r := @nil token)
                                                   (r' := @nil token) as [E _].
  - apply Forall_forall. intros s _. apply statement_read_unambiguously.
  - repeat split; assumption.
  - repeat split; assumption.
  - rewrite !app_nil_r. exact H.
  - exact E.
Qed.

Lemma one_tree_for_the_leaves_witness :
  [S_do_loop [S_assignment "x" A_add (E_number "1")]
             (Loop_Until (E_binary_expression (E_identifier "x") Op_gt
                                              (E_number "3")))]
  = [S_do_loop [S_assignment "x" A_add (E_number "1")]
               (Loop_Until (E_binary_expression (E_identifier "x") Op_gt
                                                (E_number "3")))].
Proof.
  apply one_tree_for_the_leaves; reflexivity.
Defined.

Lemma all_statements_read_unambiguously (ss : list statement) :
  Forall (read_unambiguously yield_statement statement_before) ss.
Proof. apply Forall_forall. intros s _. apply statement_read_unambiguously. Qed.

Lemma valid_source_file_tail (s : statement) (f : source_file) :
  valid_source_file (s :: f) = true ->
  valid_statement s = true /\ valid_source_file f = true.
Proof.
  unfold valid_source_file. cbn [forallb]. intro H. bools.
  split; [assumption|]. apply andb_true_iff. split; [assumption|].
  eapply right_associative_ok_tail; eassumption.
Qed.

Lemma starts_with_identifier_first (n : statement) :
  starts_with_identifier (yield_statement n) = true ->
  exists y t rest, yield_statement n = Identifier y :: t :: rest
                   /\ starts_statement (t :: rest) = false.
Proof.
  destruct n as [| | | |[]| | | | | | | | | | | | | | | | | | | |];
    cbn [yield_statement app starts_with_identifier]; try discriminate; intros _.
  - destruct (yield_expression value) as [|t rest] eqn:E;
      [exfalso; exact (yield_expression_nonempty value E)|].
    eexists _, _, _. split; [reflexivity|]. destruct op; reflexivity.
  - eexists _, _, _. split; [reflexivity|]. reflexivity.
Qed.

(** X3.  [for_loop] is wrapped in [prec.right]: an identifier after [Next]
    is always taken as the closing name of the loop.  So no valid tree has
    the leaves of a loop that ends at [Next] followed by a statement that
    begins with an identifier (an assignment or a call): such a loop
    cannot be followed directly by such a statement. *)
Theorem an_identifier_after_next_is_the_closing_name
        (x : string) (e1 e2 : expression) (step : option expression)
        (body : list statement) (n : statement) (after f : list statement) :
  valid_statement (S_for_loop x e1 e2 step body None) = true ->
  starts_with_identifier (yield_statement n) = true ->
  valid_source_file f = true ->
  yield f <> yield (S_for_loop x e1 e2 step body None :: n :: after).
Proof.
  intros Hv Hn Hf E.
  destruct (starts_with_identifier_first n Hn) as (y & t & rest & En & Hrest).
  unfold yield at 2 in E. cbn [flat_map] in E. rewrite En in E.
  cbn [yield_statement yield_optional app] in E.
  repeat (rewrite <- app_assoc in E; cbn [app] in E).
  apply yield_head in E as (s2 & f' & -> & Hs & E).
  by_first_token s2 Hs.
  pose proof (valid_source_file_tail _ _ Hf) as [Hv2 _].
  cbn [yield_statement app] in E.
  repeat (rewrite <- app_assoc in E; cbn [app] in E).
  assert (Hv2' : valid_statement
                   (S_for_loop variable start_ end_ step0 body0 None) = true).
  { cbn [valid_statement] in *. bools.
    repeat match goal with Hx : _ = true |- _ => rewrite Hx end. reflexivity. }
  apply (for_loop_head_unambiguous _ _ _ _ _ _ _ _ body0) in E;
    [ | apply all_statements_read_unambiguously | exact Hv2' | exact Hv ].
  destruct E as (_ & _ & _ & _ & _ & E).
  destruct variable_end as [y'|]; cbn [yield_optional app] in E.
  - injection E as _ E. fold (yield f') in E.
    destruct f' as [|n' f']; [discriminate E|].
    unfold yield in E. cbn [flat_map] in E.
    pose proof (starts_statement_yield n' (flat_map yield_statement f')) as S.
    rewrite E in S. cbn [app starts_statement] in S, Hrest. congruence.
  - fold (yield f') in E.
    apply yield_head in E as (n' & f'' & -> & Hn' & _).
    unfold valid_source_file in Hf. apply andb_true_iff in Hf as [_ Hr].
    cbn [right_associative_ok] in Hr. apply andb_true_iff in Hr as [Hr _].
    destruct (yield_statement_first n') as [r' En']. rewrite En', Hn' in Hr.
    discriminate Hr.
Qed.

Lemma an_identifier_after_next_is_the_closing_name_witness :
  yield [S_for_loop "i" (E_number "1") (E_number "3") None [] (Some "x")]
  <> yield [S_for_loop "i" (E_number "1") (E_number "3") None [] None;
            S_assignment "x" A_set (E_number "1")].
Proof.
  apply an_identifier_after_next_is_the_closing_name; reflexivity.
Defined.

(** X4.  [do_loop] is wrapped in [prec.right]: a [While] after [Loop] is
    always taken as the condition of the loop.  So no valid tree has the
    leaves of a loop that ends at a bare [Loop] followed by a [While]
    loop: the two cannot stand next to each other. *)
Theorem a_while_after_loop_is_the_condition
        (body : list statement) (c : expression) (wbody : list statement)
        (after f : list statement) :
  valid_statement (S_do_loop body Loop_bare) = true ->
  valid_statement (S_while_loop c wbody) = true ->
  valid_source_file f = true ->
  yield f <> yield (S_do_loop body Loop_bare :: S_while_loop c wbody :: after).
Proof.
  intros Hv Hw Hf E.
  unfold yield at 2 in E. cbn [flat_map yield_statement yield_loop_tail app] in E.
  repeat (rewrite <- app_assoc in E; cbn [app] in E).
  apply yield_head in E as (s2 & f' & -> & Hs & E).
  by_first_token s2 Hs.
  pose proof (valid_source_file_tail _ _ Hf) as [Hv2 Hf'].
  cbn [valid_statement] in Hv, Hw, Hv2. bools.
  cbn [yield_statement app] in E.
  repeat (rewrite <- app_assoc in E; cbn [app] in E).
  injection E as E.
  assert (Hclose : closes_block (yield_loop_tail tail ++ yield f') = true)
    by (destruct tail; reflexivity).
  apply (statements_read_unambiguously body0) in E;
    [ destruct E as [_ E]
    | apply all_statements_read_unambiguously
    | split; [assumption | split; [assumption | exact Hclose]]
    | split; [assumption | split; [assumption | reflexivity]] ].
  destruct tail as [e|e|]; cbn [yield_loop_tail app valid_loop_tail] in *;
    try discriminate E.
  - injection E as E.
    unfold valid_source_file in Hf'. apply andb_true_iff in Hf' as [Hvf Hrf].
    apply (expression_read_unambiguously e) in E;
      [ destruct E as [_ E]
      | split; [apply valid_expression_prec_ok; assumption|];
        rewrite <- (app_nil_r (yield f'));
        apply ends_expression_statements; reflexivity
      | split; [apply valid_expression_prec_ok; assumption|];
        apply ends_expression_statements; reflexivity ].
    rewrite <- (app_nil_r (yield f')) in E.
    apply (statements_read_unambiguously f') in E;
      [ destruct E as [_ E]; discriminate E
      | apply all_statements_read_unambiguously
      | split; [assumption | split; [assumption | reflexivity]]
      | split; [assumption | split; [assumption | reflexivity]] ].
  - injection E as E. fold (yield f') in E.
    apply yield_head in E as (n' & f'' & -> & Hn' & _).
    unfold valid_source_file in Hf. apply andb_true_iff in Hf as [_ Hr].
    cbn [right_associative_ok] in Hr. apply andb_true_iff in Hr as [Hr _].
    destruct (yield_statement_first n') as [r' En']. rewrite En', Hn' in Hr.
    discriminate Hr.
Qed.

Lemma a_while_after_loop_is_the_condition_witness :
  yield [S_do_loop [] (Loop_While (E_identifier "a")); S_CallTable "T"]
  <> yield [S_do_loop [] Loop_bare;
            S_while_loop (E_identifier "a") [S_CallTable "T"]].
Proof.
  apply a_while_after_loop_is_the_condition; reflexivity.
Defined.

(** X5.  The target of an assignment is a bare identifier: no valid tree
    has the leaves of a call followed by an assignment operator, so a name
    with an argument list or an index, as in [a(1) = 5], cannot be
    assigned to. *)
Theorem a_call_is_no_assignment_target
        (x : string) (args : list expression) (a : assignment_operator)
        (after : list token) (f : source_file) :
  forallb valid_expression args = true ->
  valid_source_file f = true ->
  yield f <> Identifier x :: Lit "(" :: comma_separated (map yield_expression args)
               ++ Lit ")" :: Lit (assignment_lexeme a) :: after.
Proof.
  intros Hargs Hf E.
  apply yield_head in E as (s2 & f' & -> & Hs & E).
  pose proof (valid_source_file_tail _ _ Hf) as [Hv2 Hf'].
  by_first_token s2 Hs; cbn [yield_statement app] in E;
    repeat (rewrite <- app_assoc in E; cbn [app] in E).
  - destruct op; discriminate E.
  - injection E as _ E. cbn [valid_statement] in Hv2. bools.
    apply arguments_unambiguous in E as [_ E];
      [ | apply valid_arguments_prec_ok; assumption
        | apply valid_arguments_prec_ok; assumption ].
    fold (yield f') in E.
    destruct f' as [|n' f']; [discriminate E|].
    unfold yield in E. cbn [flat_map] in E.
    pose proof (starts_statement_yield n' (flat_map yield_statement f')) as S.
    rewrite E in S. destruct a; discriminate S.
Qed.

Lemma a_call_is_no_assignment_target_witness :
  yield [S_function_call "a" [E_number "1"]]
  <> [Identifier "a"; Lit "("; Number "1"; Lit ")"; Lit "="; Number "5"].
Proof.
  apply (a_call_is_no_assignment_target "a" [E_number "1"] A_set [Number "5"]);
    reflexivity.
Defined.

(** X6.  Every accepted token sequence is empty or begins as a statement
    does: with a comment, an identifier or one of the keywords that open a
    statement.  An expression alone, or a closing keyword alone, is not
    accepted. *)
Theorem accepted_tokens_begin_as_a_statement (ts : list token) :
  accepts ts -> ts = [] \/ starts_statement ts = true.
Proof.
  intros (f & Hw & _).
  remember (yield f) as us eqn:Eus.
  destruct Hw as [|t ts us Hw|c ts us Hw].
  - left. reflexivity.
  - right. destruct f as [|s f]; [discriminate Eus|].
    unfold yield in Eus. cbn [flat_map] in Eus.
    pose proof (starts_statement_yield s (flat_map yield_statement f)) as S.
    rewrite <- Eus in S. exact S.
  - right. reflexivity.
Qed.

Lemma accepted_tokens_begin_as_a_statement_witness :
  [Lit "CallTable"; Identifier "T"] = []
  \/ starts_statement [Lit "CallTable"; Identifier "T"] = true.
Proof.
  apply accepted_tokens_begin_as_a_statement.
  exists [S_CallTable "T"]. split; [apply without_extras_refl | reflexivity].
Defined.

Lemma right_associative_ok_comment (c : string) (f1 f2 : list statement) :
  right_associative_ok f1 = true -> right_associative_ok f2 = true ->
  right_associative_ok (f1 ++ S_comment c :: f2) = true.
Proof.
  intros H1 H2. induction f1 as [|s f1 IH].
  - cbn [app right_associative_ok]. destruct f2; [reflexivity | exact H2].
  - pose proof (right_associative_ok_tail _ _ H1) as H1'.
    specialize (IH H1'). destruct f1 as [|s' f1].
    + cbn [app] in *. cbn [right_associative_ok]. cbn [right_associative_ok] in IH.
      rewrite IH, andb_true_r.
      destruct s; try reflexivity; cbn [continued_by yield_statement].
      * destruct variable_end; reflexivity.
      * destruct tail; reflexivity.
    + cbn [app] in *. cbn [right_associative_ok] in H1 |- *.
      apply andb_true_iff in H1 as [H1 _]. rewrite H1. exact IH.
Qed.

(** X7.  A comment is a statement of its own and may stand between any
    two statements: two valid statement lists with a comment between them
    are a valid statement list, whatever the first one ends with and the
    second one begins with.  So a [For] loop that ends at [Next] can be
    followed by an assignment when a comment stands between them. *)
Theorem a_comment_may_stand_between_statements
        (c : string) (f1 f2 : list statement) :
  is_comment c = true ->
  valid_source_file f1 = true -> valid_source_file f2 = true ->
  valid_source_file (f1 ++ S_comment c :: f2) = true
  /\ yield (f1 ++ S_comment c :: f2) = yield f1 ++ Comment c :: yield f2
  /\ accepts (yield f1 ++ Comment c :: yield f2).
Proof.
  intros Hc H1 H2.
  assert (Hv : valid_source_file (f1 ++ S_comment c :: f2) = true).
  { unfold valid_source_file in *.
    apply andb_true_iff in H1 as [Hv1 Hr1]. apply andb_true_iff in H2 as [Hv2 Hr2].
    rewrite forallb_app. cbn [forallb valid_statement].
    rewrite Hv1, Hc, Hv2. cbn [andb].
    apply right_associative_ok_comment; assumption. }
  assert (Hy : yield (f1 ++ S_comment c :: f2) = yield f1 ++ Comment c :: yield f2).
  { unfold yield. rewrite flat_map_app. reflexivity. }
  split; [exact Hv|]. split; [exact Hy|].
  exists (f1 ++ S_comment c :: f2).
  split; [rewrite Hy; apply without_extras_refl | exact Hv].
Qed.

Lemma a_comment_may_stand_between_statements_witness :
  valid_source_file
    [S_for_loop "i" (E_number "1") (E_number "3") None [] None;
     S_comment "' next";
     S_assignment "x" A_set (E_number "1")] = true
  /\ valid_source_file
       [S_for_loop "i" (E_number "1") (E_number "3") None [] None;
        S_assignment "x" A_set (E_number "1")] = false.
Proof.
  split; [|reflexivity].
  exact (proj1 (a_comment_may_stand_between_statements
                  "' next"
                  [S_for_loop "i" (E_number "1") (E_number "3") None [] None]
                  [S_assignment "x" A_set (E_number "1")]
                  eq_refl eq_refl eq_refl)).
Defined.

(** X8.  Parentheses are balanced in every accepted token sequence, and
    in every token sequence the expression parser accepts: every closing
    parenthesis comes after an open one, and at the end none is left
    open. *)
Theorem parentheses_are_balanced (ts : list token) :
  accepts ts \/ (exists e, parse_expression ts = Some e) ->
  depth_after ["("] ")" 0 ts = Some 0.
Proof.
  assert (Hin : In (["("], ")") (parentheses :: blocks)) by (left; reflexivity).
  intros [(f & Hw & _) | (e & He)].
  - rewrite (without_extras_depth ["("] ")" ts (yield f) Hw).
    apply (depth_after_flat_map ["("] ")" yield_statement).
    apply Forall_forall. intros s _. apply yield_statement_depth, Hin.
  - apply parse_expression_sound in He as [<- _].
    apply yield_expression_depth, Hin.
Qed.

Lemma parentheses_are_balanced_witness :
  depth_after ["("] ")" 0
    [Lit "SubScan"; Lit "("; Identifier "f"; Lit "("; Number "1"; Lit ")";
     Lit ","; Identifier "Sec"; Lit ")"; Lit "NextSubScan"]
  = Some 0.
Proof.
  apply parentheses_are_balanced. left.
  exists [S_SubScan (E_function_call "f" [E_number "1"]) "Sec" []].
  split; [apply without_extras_refl | reflexivity].
Defined.

(* ================================================================== *)
(** ** Expressions *)
(* ================================================================== *)

(** X9.  Among the seven alternatives of [binary_expression] the later
    one binds tighter: additive, multiplicative, power, comparison,
    logical, [&] and [|], shifts, in this order.  For operators [o1] of a
    lower and [o2] of a higher precedence and operands that are no binary
    nodes, [a o1 b o2 c] parses as [a o1 (b o2 c)] and [a o2 b o1 c] as
    [(a o2 b) o1 c]; so [a + b = c] is the sum of [a] and the comparison
    [b = c]. *)
Theorem the_later_alternative_binds_tighter
        (o1 o2 : binary_operator) (a b c : expression) :
  binary_precedence o1 < binary_precedence o2 ->
  operand_expression a = true -> operand_expression b = true ->
  operand_expression c = true ->
  parse_expression
    (yield_expression a ++ Lit (binary_lexeme o1) ::
     yield_expression b ++ Lit (binary_lexeme o2) :: yield_expression c)
  = Some (E_binary_expression a o1 (E_binary_expression b o2 c))
  /\ parse_expression
       (yield_expression a ++ Lit (binary_lexeme o2) ::
        yield_expression b ++ Lit (binary_lexeme o1) :: yield_expression c)
     = Some (E_binary_expression (E_binary_expression a o2 b) o1 c)
  /\ map binary_precedence
         [Op_add; Op_sub; Op_mul; Op_div; Op_MOD; Op_INTDV; Op_pow;
          Op_eq; Op_ne; Op_lt; Op_gt; Op_le; Op_ge;
          Op_AND; Op_OR; Op_XOR; Op_IMP; Op_amp; Op_bar; Op_shr; Op_shl]
     = [1; 1; 2; 2; 2; 2; 3; 4; 4; 4; 4; 4; 4; 5; 5; 5; 5; 6; 6; 7; 7].
Proof.
  intros Hlt Ha Hb Hc.
  split; [|split; [|reflexivity]].
  - rewrite parse_two_operators by assumption.
    apply Nat.ltb_lt in Hlt. rewrite Hlt. reflexivity.
  - rewrite parse_two_operators by assumption.
    assert (E : (binary_precedence o2 <? binary_precedence o1) = false)
      by (apply Nat.ltb_ge; lia).
    rewrite E. reflexivity.
Qed.

Lemma the_later_alternative_binds_tighter_witness :
  parse_expression [Identifier "a"; Lit "+"; Identifier "b"; Lit "="; Identifier "c"]
  = Some (E_binary_expression
            (E_identifier "a") Op_add
            (E_binary_expression (E_identifier "b") Op_eq (E_identifier "c"))).
Proof.
  refine (proj1 (the_later_alternative_binds_tighter
                   Op_add Op_eq (E_identifier "a") (E_identifier "b")
                   (E_identifier "c") _ eq_refl eq_refl eq_refl)).
  vm_compute. lia.
Defined.

(** X10.  Parentheses override the precedences: whatever the operators
    [o1] and [o2] are, [(a o1 b) o2 c] is [o2] applied to the
    parenthesized [a o1 b] and to [c], and [a o1 (b o2 c)] is [o1] applied
    to [a] and to the parenthesized [b o2 c]; the parentheses stay in the
    tree as a node of their own. *)
Theorem parentheses_override_the_precedences
        (o1 o2 : binary_operator) (a b c : expression) :
  operand_expression a = true -> operand_expression b = true ->
  operand_expression c = true ->
  parse_expression
    (Lit "(" :: yield_expression a ++ Lit (binary_lexeme o1) :: yield_expression b
       ++ Lit ")" :: Lit (binary_lexeme o2) :: yield_expression c)
  = Some (E_binary_expression
            (E_parenthesized_expression (E_binary_expression a o1 b)) o2 c)
  /\ parse_expression
       (yield_expression a ++ Lit (binary_lexeme o1) :: Lit "(" ::
        yield_expression b ++ Lit (binary_lexeme o2) :: yield_expression c
        ++ [Lit ")"])
     = Some (E_binary_expression
               a o1 (E_parenthesized_expression (E_binary_expression b o2 c))).
Proof.
  intros Ha Hb Hc.
  destruct (operand_expression_binds a (binary_precedence o1) Ha) as (Hoka & Ha1 & Ha2).
  destruct (operand_expression_binds b (binary_precedence o1) Hb) as (Hokb & Hb1 & _).
  destruct (operand_expression_binds b (binary_precedence o2) Hb) as (_ & _ & Hb2).
  destruct (operand_expression_binds c (binary_precedence o2) Hc) as (Hokc & Hc1 & _).
  split; apply parse_expression_iff; split.
  - cbn [yield_expression app]. rewrite <- !app_assoc. reflexivity.
  - cbn [prec_ok binds_as_tight binds_tighter].
    rewrite Ha2, Hb1, Hoka, Hokb, Hc1, Hokc. reflexivity.
  - cbn [yield_expression app]. rewrite <- !app_assoc. reflexivity.
  - cbn [prec_ok binds_as_tight binds_tighter].
    rewrite Ha2, Hb2, Hoka, Hokb, Hc1, Hokc. reflexivity.
Qed.

Lemma parentheses_override_the_precedences_witness :
  parse_expression
    [Lit "("; Identifier "a"; Lit "+"; Identifier "b"; Lit ")"; Lit "*";
     Identifier "c"]
  = Some (E_binary_expression
            (E_parenthesized_expression
               (E_binary_expression (E_identifier "a") Op_add (E_identifier "b")))
            Op_mul (E_identifier "c")).
Proof.
  exact (proj1 (parentheses_override_the_precedences
                  Op_add Op_mul (E_identifier "a") (E_identifier "b")
                  (E_identifier "c") eq_refl eq_refl eq_refl)).
Defined.

Lemma step_settled (c : config) : step c <> Unresolved.
Proof.
  destruct c as [fs [e|] ts]; unfold step; cbn [operand stack input].
  - unfold step_operand. destruct ts as [|t rest].
    + destruct fs as [|f fs]; [discriminate|]. destruct (finish f e) as [[]|]; discriminate.
    + destruct (as_binary_operator t) as [o|].
      * destruct fs as [|f fs]; [discriminate|].
        destruct f as [l o1|u| |g done]; cbn [finish]; try discriminate.
        -- pose proof (proj1 (resolve_settles o) o1) as H.
           destruct (resolve (binary_production o1) (binary_precedence o));
             (discriminate || contradiction).
        -- pose proof (proj2 (resolve_settles o) u) as H.
           destruct (resolve (unary_production u) (binary_precedence o));
             (discriminate || contradiction).
      * destruct fs as [|f fs]; [discriminate|].
        destruct f as [l o1|u| |g done]; cbn [finish close]; try discriminate;
          destruct t as [s| | | |]; try discriminate.
        -- destruct (String.eqb s ")"); discriminate.
        -- destruct (String.eqb s ")"); [discriminate|].
           destruct (String.eqb s ","); discriminate.
  - unfold step_start. destruct ts as [|[s|x|n|s|c] rest]; try discriminate.
    + destruct (as_boolean (Lit s)); [discriminate|].
      destruct (as_unary_operator (Lit s)); [discriminate|].
      destruct (String.eqb s "("); [discriminate|].
      destruct fs as [|[| | |g [|? ?]] fs]; try discriminate.
      destruct (String.eqb s ")"); discriminate.
    + destruct (starts_with_open rest); discriminate.
Qed.

(** X11.  The precedences and associativities of [binary_expression] and
    [unary_expression] settle every conflict between finishing an operator
    production and reading the next operator: the parser never stops at an
    unresolved conflict, and for every token sequence it answers, with a
    tree or with a rejection. *)
Theorem every_operator_conflict_is_settled
        (fuel : nat) (c : config) (ts : list token) :
  run fuel c <> Unresolved
  /\ ((exists e, run (2 * List.length ts + 1) (Config [] None ts) = Accepted e)
      \/ run (2 * List.length ts + 1) (Config [] None ts) = Rejected).
Proof.
  split.
  - revert c. induction fuel as [|fuel IH]; intro c; cbn [run]; [discriminate|].
    pose proof (step_settled c) as Hs.
    destruct (step c) as [c'|e| |]; try discriminate; [apply IH | contradiction].
  - pose proof (parse_expression_answers ts) as Ha.
    assert (Hu : run (2 * List.length ts + 1) (Config [] None ts) <> Unresolved).
    { generalize (2 * List.length ts + 1) (Config [] None ts).
      intros n c0. revert c0. induction n as [|n IH]; intro c0; cbn [run];
        [discriminate|].
      pose proof (step_settled c0) as Hs.
      destruct (step c0) as [c'|e| |]; try discriminate; [apply IH | contradiction]. }
    destruct (run (2 * List.length ts + 1) (Config [] None ts)) as [c'|e| |].
    + contradiction.
    + left. exists e. reflexivity.
    + right. reflexivity.
    + contradiction.
Qed.

Lemma last_app_cons (a b : list token) (t d : token) :
  last (a ++ t :: b) d = last (t :: b) d.
Proof.
  induction a as [|x a IH]; [reflexivity|].
  cbn [app]. rewrite <- IH. destruct (a ++ t :: b) eqn:E; [|reflexivity].
  destruct a; discriminate E.
Qed.

Lemma last_cons_nonempty (t d : token) (l : list token) :
  l <> [] -> last (t :: l) d = last l d.
Proof. destruct l; [contradiction | reflexivity]. Qed.

(** The last leaf of an expression can end an expression. *)
Lemma last_yield_expression (e : expression) (d : token) :
  ends_operand (last (yield_expression e) d) = true.
Proof.
  revert d. induction e as [x|n|s|b|l o r IHl IHr|o e IHe|e IHe|f args IHargs]
    using expression_induction; intro d; cbn [yield_expression]; try reflexivity.
  - destruct b; reflexivity.
  - rewrite last_app_cons, last_cons_nonempty by apply yield_expression_nonempty.
    apply IHr.
  - rewrite last_cons_nonempty by apply yield_expression_nonempty. apply IHe.
  - change (Lit "(" :: yield_expression e ++ [Lit ")"])
      with ((Lit "(" :: yield_expression e) ++ [Lit ")"]).
    rewrite last_last. reflexivity.
  - change (Identifier f :: Lit "(" ::
              comma_separated (map yield_expression args) ++ [Lit ")"])
      with ((Identifier f :: Lit "(" ::
               comma_separated (map yield_expression args)) ++ [Lit ")"]).
    rewrite last_last. reflexivity.
Qed.

Lemma adjacent_app (p : token -> token -> bool) (a b : list token) (d : token) :
  adjacent p (a ++ b)
  = adjacent p a || adjacent p b
    || match a, b with
       | _ :: _, t :: _ => p (last a d) t
       | _, _ => false
       end.
Proof.
  induction a as [|x a IH].
  - cbn [app adjacent orb]. rewrite orb_false_r. reflexivity.
  - destruct a as [|y a].
    + cbn [app adjacent last]. destruct b as [|t b]; [reflexivity|].
      cbn [orb]. apply orb_comm.
    + change ((x :: y :: a) ++ b) with (x :: (y :: a) ++ b).
      change (adjacent p (x :: (y :: a) ++ b))
        with (p x y || adjacent p ((y :: a) ++ b)).
      rewrite IH.
      change (adjacent p (x :: y :: a)) with (p x y || adjacent p (y :: a)).
      change (last (x :: y :: a) d) with (last (y :: a) d).
      destruct b as [|t b]; rewrite ?orb_false_r, ?orb_assoc; reflexivity.
Qed.

(** No argument is empty after a token that can end an expression, and
    none before a token an expression can begin with. *)
Lemma empty_argument_after_operand (t1 t2 : token) :
  ends_operand t1 = true -> empty_argument t1 t2 = false.
Proof.
  intro H. destruct t1 as [a| | | |]; try reflexivity.
  destruct t2 as [b| | | |]; try reflexivity.
  cbn [ends_operand] in H. apply existsb_exists in H as (k & Hk & E).
  apply String.eqb_eq in E. subst k. vm_compute in Hk. cbn [empty_argument].
  repeat (destruct Hk as [<- | Hk]; [reflexivity|]). contradiction.
Qed.

Lemma empty_argument_before_operand (t1 t2 : token) (rest : list token) :
  starts_expression (t2 :: rest) = true -> empty_argument t1 t2 = false.
Proof.
  intro H. destruct t1 as [a| | | |]; try reflexivity.
  destruct t2 as [b| | | |]; try reflexivity.
  cbn [starts_expression] in H. apply existsb_exists in H as (k & Hk & E).
  apply String.eqb_eq in E. subst k. vm_compute in Hk. cbn [empty_argument].
  repeat (destruct Hk as [<- | Hk];
          [rewrite ?andb_false_r; reflexivity|]).
  contradiction.
Qed.

Lemma empty_argument_binary_operator (o : binary_operator) (t : token) :
  empty_argument (Lit (binary_lexeme o)) t = false.
Proof. destruct t; destruct o; reflexivity. Qed.

Lemma empty_argument_unary_operator (o : unary_operator) (t : token) :
  empty_argument (Lit (unary_lexeme o)) t = false.
Proof. destruct t; destruct o; reflexivity. Qed.

Lemma adjacent_cons (p : token -> token -> bool) (t : token) (l : list token) :
  adjacent p (t :: l)
  = match l with
    | [] => false
    | t2 :: _ => p t t2
    end || adjacent p l.
Proof. destruct l; reflexivity. Qed.

Lemma adjacent_cons_neutral (p : token -> token -> bool) (t : token)
      (l : list token) :
  (forall t2, p t t2 = false) -> adjacent p (t :: l) = adjacent p l.
Proof. intro H. rewrite adjacent_cons. destruct l; [reflexivity|]. rewrite H. reflexivity. Qed.

Lemma adjacent_before_expression (t : token) (l : list token) :
  starts_expression l = true ->
  adjacent empty_argument (t :: l) = adjacent empty_argument l.
Proof.
  intro H. rewrite adjacent_cons. destruct l as [|t2 rest]; [reflexivity|].
  rewrite (empty_argument_before_operand _ _ _ H). reflexivity.
Qed.

Lemma adjacent_after_operand (a b : list token) (d : token) :
  ends_operand (last a d) = true ->
  adjacent empty_argument (a ++ b)
  = adjacent empty_argument a || adjacent empty_argument b.
Proof.
  intro H. rewrite (adjacent_app _ _ _ d).
  destruct a as [|x a]; [apply orb_false_r|].
  destruct b as [|t b]; [apply orb_false_r|].
  rewrite (empty_argument_after_operand _ _ H). apply orb_false_r.
Qed.

Lemma arguments_starts_expression (a : expression) (args : list expression)
      (r : list token) :
  starts_expression (comma_separated (map yield_expression (a :: args)) ++ r) = true.
Proof.
  destruct args as [|b args]; cbn [map comma_separated].
  - apply starts_expression_yield.
  - rewrite <- app_assoc. apply starts_expression_yield.
Qed.

Lemma arguments_nonempty (a : expression) (args : list expression) :
  comma_separated (map yield_expression (a :: args)) <> [].
Proof.
  pose proof (arguments_starts_expression a args []) as H.
  rewrite app_nil_r in H. intro E. rewrite E in H. discriminate H.
Qed.

Lemma arguments_last (a : expression) (args : list expression) (d : token) :
  ends_operand (last (comma_separated (map yield_expression (a :: args))) d) = true.
Proof.
  revert a. induction args as [|b args IH]; intro a.
  - apply last_yield_expression.
  - change (comma_separated (map yield_expression (a :: b :: args)))
      with (yield_expression a ++ Lit ","
              :: comma_separated (map yield_expression (b :: args))).
    rewrite last_app_cons, last_cons_nonempty by apply arguments_nonempty.
    apply IH.
Qed.

Lemma arguments_adjacent (args : list expression) :
  Forall (fun e => adjacent empty_argument (yield_expression e) = false) args ->
  adjacent empty_argument (comma_separated (map yield_expression args)) = false.
Proof.
  induction 1 as [|a args Ha _ IH]; [reflexivity|].
  destruct args as [|b args]; [exact Ha|].
  change (comma_separated (map yield_expression (a :: b :: args)))
    with (yield_expression a ++ Lit ","
            :: comma_separated (map yield_expression (b :: args))).
  rewrite (adjacent_after_operand _ _ (Lit ",")) by apply last_yield_expression.
  rewrite Ha, adjacent_before_expression, IH; [reflexivity|].
  rewrite <- (app_nil_r (comma_separated _)). apply arguments_starts_expression.
Qed.

(** No argument of an expression is empty. *)
Lemma adjacent_yield_expression (e : expression) :
  adjacent empty_argument (yield_expression e) = false.
Proof.
  induction e as [x|n|s|b|l o r IHl IHr|o e IHe|e IHe|f args IHargs]
    using expression_induction; cbn [yield_expression]; try reflexivity.
  - rewrite (adjacent_after_operand _ _ (Lit ",")) by apply last_yield_expression.
    rewrite IHl, adjacent_cons_neutral, IHr;
      [reflexivity | apply empty_argument_binary_operator].
  - rewrite adjacent_cons_neutral, IHe;
      [reflexivity | apply empty_argument_unary_operator].
  - rewrite adjacent_before_expression by apply starts_expression_yield.
    rewrite (adjacent_after_operand _ _ (Lit ",")) by apply last_yield_expression.
    rewrite IHe. reflexivity.
  - rewrite adjacent_cons_neutral by reflexivity.
    destruct args as [|a args]; [reflexivity|].
    rewrite adjacent_before_expression by apply arguments_starts_expression.
    rewrite (adjacent_after_operand _ _ (Lit ",")) by apply arguments_last.
    rewrite (arguments_adjacent _ IHargs). reflexivity.
Qed.

(** X12.  The shape of every token sequence the expression parser
    accepts: it begins with an identifier, a number, a string, a boolean
    literal, a unary operator or an open parenthesis; it ends with an
    identifier, a number, a string, a boolean literal or a closing
    parenthesis, and so never with an operator or a comma; and no
    argument in it is empty: no comma comes directly after an open
    parenthesis or a comma, and no closing parenthesis directly after a
    comma. *)
Theorem the_shape_of_an_expression (ts : list token) (e : expression) :
  parse_expression ts = Some e ->
  starts_expression ts = true
  /\ ends_operand (last ts (Lit ",")) = true
  /\ adjacent empty_argument ts = false.
Proof.
  intro H. apply parse_expression_sound in H as [<- _].
  split; [|split].
  - rewrite <- (app_nil_r (yield_expression e)). apply starts_expression_yield.
  - apply last_yield_expression.
  - apply adjacent_yield_expression.
Qed.

Lemma the_shape_of_an_expression_witness :
  starts_expression
    [Identifier "f"; Lit "("; Identifier "a"; Lit ","; Number "1"; Lit ")"] = true
  /\ ends_operand (Lit ")") = true
  /\ adjacent empty_argument
       [Identifier "f"; Lit "("; Identifier "a"; Lit ","; Number "1"; Lit ")"]
     = false.
Proof.
  exact (the_shape_of_an_expression
           [Identifier "f"; Lit "("; Identifier "a"; Lit ","; Number "1"; Lit ")"]
           (E_function_call "f" [E_identifier "a"; E_number "1"]) eq_refl).
Defined.

(* ================================================================== *)
(** ** The lexer *)
(* ================================================================== *)

Lemma longest_from_star_class (p : ascii -> bool) (body rest : list ascii)
      (n : nat) (best : option nat) :
  forallb p body = true ->
  match rest with [] => true | c :: _ => negb (p c) end = true ->
  longest_from (Star (Class p)) (body ++ rest) n best
  = Some (n + List.length body).
Proof.
  revert n best. induction body as [|c body IH]; intros n best Hb Hr.
  - cbn [app List.length]. rewrite Nat.add_0_r.
    destruct rest as [|c rest]; [reflexivity|].
    cbn [longest_from nullable is_void deriv]. apply negb_true_iff in Hr.
    rewrite Hr. cbn [cat]. apply longest_from_void. reflexivity.
  - cbn [forallb] in Hb. apply andb_true_iff in Hb as [Hc Hb].
    cbn [app longest_from nullable is_void deriv List.length]. rewrite Hc.
    cbn [cat]. rewrite IH by assumption. f_equal. lia.
Qed.

(** X13.  Where the text begins with an apostrophe the next token is a
    comment, and it runs to the end of the line: it takes every character
    up to the next line feed or carriage return, or to the end of the
    text, whatever these characters are. *)
Theorem a_comment_runs_to_the_end_of_the_line (body rest : list ascii) :
  forallb not_eol body = true -> at_end_of_line rest = true ->
  next_token ("'"%char :: body ++ rest)
  = Some (Comment (text ("'"%char :: body)), S (List.length body)).
Proof.
  intros Hb Hr.
  assert (Hlit : longest_literal ("'"%char :: body ++ rest) = None)
    by (vm_compute; reflexivity).
  assert (Hcom : longest comment ("'"%char :: body ++ rest)
                 = Some (S (List.length body))).
  { unfold longest, comment. cbn [longest_from nullable is_void deriv andb orb].
    change (chr "'" "'") with true. cbn [cat].
    apply (longest_from_star_class not_eol body rest 1 None Hb Hr). }
  assert (Hpat : longest_pattern ("'"%char :: body ++ rest)
                 = Some (S (List.length body), Comment)).
  { unfold longest_pattern, patterns. cbn [fold_left]. rewrite Hcom.
    rewrite (longest_no_start identifier "'" _ eq_refl eq_refl).
    rewrite (longest_no_start number "'" _ eq_refl eq_refl).
    rewrite (longest_no_start string_ "'" _ eq_refl eq_refl).
    reflexivity. }
  unfold next_token. rewrite Hlit, Hpat.
  change (firstn (S (List.length body)) ("'"%char :: body ++ rest))
    with ("'"%char :: firstn (List.length body) (body ++ rest)).
  rewrite firstn_app, Nat.sub_diag, firstn_all. cbn [firstn]. rewrite app_nil_r.
  reflexivity.
Qed.

Lemma a_comment_runs_to_the_end_of_the_line_witness :
  next_token (chars "' If x = 1 Then" ++ "010"%char :: chars "y = 2")
  = Some (Comment "' If x = 1 Then", 15).
Proof.
  exact (a_comment_runs_to_the_end_of_the_line
           (chars " If x = 1 Then") ("010"%char :: chars "y = 2") eq_refl eq_refl).
Defined.





Lemma tokenize_from_spaces (fuel pos : nat) (w : list ascii) :
  forallb space w = true -> List.length w < fuel ->
  tokenize_from fuel pos w = Some [].
Proof.
  revert pos w. induction fuel as [|fuel IH]; intros pos w Hw Hf; [lia|].
  cbn [tokenize_from]. destruct w as [|c w]; [reflexivity|].
  cbn [forallb List.length] in *. apply andb_true_iff in Hw as [Hc Hw].
  rewrite Hc. apply IH; [exact Hw | lia].
Qed.

(** X15.  A text of white space only, and so the empty text, is accepted:
    it has no leaf, and its tree is the source file without statements,
    the only tree it has. *)
Theorem white_space_alone_is_the_empty_source_file (src : string) :
  forallb space (chars src) = true ->
  is_parse src [] []
  /\ forall f ls, is_parse src f ls -> f = [] /\ ls = [].
Proof.
  intro Hs.
  assert (Ht : tokenize src = Some []).
  { unfold tokenize. apply tokenize_from_spaces; [exact Hs|].
    rewrite length_chars. lia. }
  split.
  - split; [exact Ht|]. split; [constructor | reflexivity].
  - intros f ls (Hl & Hw & _). rewrite Ht in Hl. injection Hl as <-.
    cbn [map] in Hw.
    assert (E : yield f = []) by (inversion Hw; reflexivity).
    apply yield_nil in E. split; [exact E | reflexivity].
Qed.

Lemma white_space_alone_is_the_empty_source_file_witness :
  is_parse (String " " (String "010" (String "009" ""))) [] [].
Proof.
  exact (proj1 (white_space_alone_is_the_empty_source_file
                  (String " " (String "010" (String "009" ""))) eq_refl)).
Defined.







(* ================================================================== *)
(** ** Numbers *)
(* ================================================================== *)







(* ================================================================== *)
(** ** What the rules of the statements do not derive *)
(* ================================================================== *)

Lemma first_statement (g : source_file) (t : token) (rest : list token) :
  valid_source_file g = true -> yield g = t :: rest ->
  exists s g', g = s :: g' /\ first_token s = t
               /\ valid_statement s = true /\ valid_source_file g' = true
               /\ yield_statement s ++ yield g' = t :: rest.
Proof.
  intros Hv H. apply yield_head in H as (s & g' & -> & Hs & H).
  destruct (valid_source_file_tail _ _ Hv) as [Hvs Hvg].
  exists s, g'. repeat split; assumption.
Qed.

Lemma not_boundary_not_statements (ss : list statement) (r ts : list token) :
  closes_block r = true ->
  starts_statement ts || closes_block ts = false ->
  flat_map yield_statement ss ++ r <> ts.
Proof.
  intros Hr Hts E. pose proof (boundary_statements ss r Hr) as B.
  rewrite E, Hts in B. discriminate B.
Qed.

Lemma valid_source_file_closes (g : source_file) :
  valid_source_file g = true -> statements_before g [].
Proof.
  unfold valid_source_file. intro H. apply andb_true_iff in H as [Hv Hr].
  repeat split; assumption.
Qed.

(** X19.  [Case Is] takes an expression, not a comparison: after [Is] the
    rule [select_statement] has an expression, and no expression begins
    with a comparison operator or with any other binary operator that is
    not a unary one too.  So no valid tree has the leaves of
    [Select Case e Case Is > ...]. *)
Theorem case_is_takes_an_expression
        (e : expression) (o : binary_operator) (rest : list token)
        (g : source_file) :
  prec_ok e = true ->
  as_unary_operator (Lit (binary_lexeme o)) = None ->
  valid_source_file g = true ->
  yield g <> Lit "Select" :: Lit "Case" :: yield_expression e
               ++ Lit "Case" :: Lit "Is" :: Lit (binary_lexeme o) :: rest.
Proof.
  intros He Ho Hg E.
  apply (first_statement g) in E as (s & g' & -> & Hs & Hv & Hg' & E); [|exact Hg].
  by_first_token s Hs. cbn [valid_statement] in Hv. bools.
  cbn [yield_statement app] in E.
  repeat (rewrite <- app_assoc in E; cbn [app] in E).
  read_tokens E.
  apply (expression_read_unambiguously subject) in E;
    [ destruct E as [_ E]
    | split; [apply valid_expression_prec_ok; assumption
             | apply boundary_ends_expression;
               rewrite case_rest_closes by reflexivity; apply orb_true_r]
    | split; [exact He | reflexivity] ].
  destruct cases as [|[c b|c b|b] cases];
    cbn [flat_map yield_case_clause app] in E;
    repeat (rewrite <- app_assoc in E; cbn [app] in E);
    try discriminate E; injection E as E.
  - pose proof (starts_expression_yield
                  c (flat_map yield_statement b
                       ++ flat_map yield_case_clause cases
                       ++ Lit "EndSelect" :: yield g')) as S.
    rewrite E in S. discriminate S.
  - pose proof (starts_expression_yield
                  c (flat_map yield_statement b
                       ++ flat_map yield_case_clause cases
                       ++ Lit "EndSelect" :: yield g')) as S.
    rewrite E in S. destruct o; try discriminate S; discriminate Ho.
Qed.

Lemma case_is_takes_an_expression_witness :
  yield [S_select_statement (E_identifier "x") [Case_Is (E_number "5") []]]
  <> [Lit "Select"; Lit "Case"; Identifier "x"; Lit "Case"; Lit "Is"; Lit ">";
      Number "5"; Lit "EndSelect"].
Proof.
  apply (case_is_takes_an_expression
           (E_identifier "x") Op_gt [Number "5"; Lit "EndSelect"]);
    reflexivity.
Defined.

(** X20.  Parameters and functions carry no type: a [parameter_list]
    holds identifiers and commas only, and after it come the statements of
    the body.  So no valid tree has the leaves of a [Function] or [Sub]
    whose parameter is followed by [As], or whose parameter list is
    followed by [As]. *)
Theorem parameters_and_functions_carry_no_type
        (keyword f x : string) (ps : list string) (rest : list token)
        (g : source_file) :
  keyword = "Function" \/ keyword = "Sub" ->
  valid_source_file g = true ->
  yield g <> Lit keyword :: Identifier f :: Lit "(" :: Identifier x
               :: Lit "As" :: rest
  /\ yield g <> Lit keyword :: Identifier f :: yield_parameter_list ps
                  ++ Lit "As" :: rest.
Proof.
  intros Hk Hg.
  assert (Hbody : forall body (closing : string) tail ts,
             closes_block (Lit closing :: tail) = true ->
             starts_statement ts || closes_block ts = false ->
             flat_map yield_statement body ++ Lit closing :: tail <> ts).
  { intros body closing tail ts Hc Hts. apply not_boundary_not_statements; assumption. }
  split; intro E;
    (apply (first_statement g) in E as (s & g' & -> & Hs & Hv & Hg' & E);
     [|exact Hg]);
    destruct Hk as [-> | ->]; by_first_token s Hs;
    cbn [yield_statement app] in E;
    repeat (rewrite <- app_assoc in E; cbn [app] in E);
    read_tokens E.
  - destruct parameter_list as [[|p [|q l]]|];
      cbn [yield_optional yield_parameter_list map comma_separated app] in E;
      try discriminate E.
    refine (Hbody _ _ _ _ _ _ E); reflexivity.
  - destruct parameter_list as [[|p [|q l]]|];
      cbn [yield_optional yield_parameter_list map comma_separated app] in E;
      try discriminate E.
    refine (Hbody _ _ _ _ _ _ E); reflexivity.
  - apply (optional_parameters_unambiguous _ (Some ps)) in E;
      [ destruct E as [_ E]; refine (Hbody _ _ _ _ _ _ E); reflexivity
      | apply ends_expression_not_open, ends_expression_statements; reflexivity
      | reflexivity ].
  - apply (optional_parameters_unambiguous _ (Some ps)) in E;
      [ destruct E as [_ E]; refine (Hbody _ _ _ _ _ _ E); reflexivity
      | apply ends_expression_not_open, ends_expression_statements; reflexivity
      | reflexivity ].
Qed.

Lemma parameters_and_functions_carry_no_type_witness :
  yield [S_Function "f" (Some ["x"]) []]
  <> [Lit "Function"; Identifier "f"; Lit "("; Identifier "x"; Lit "As";
      Lit "Float"; Lit ")"; Lit "EndFunction"].
Proof.
  exact (proj1 (parameters_and_functions_carry_no_type
                  "Function" "f" "x" []
                  [Lit "Float"; Lit ")"; Lit "EndFunction"]
                  [S_Function "f" (Some ["x"]) []]
                  (or_introl eq_refl) eq_refl)).
Defined.



(** X22.  The condition of a [Do] loop comes after [Loop] only: after
    [Do] the rule [do_loop] has statements, and a [While] there opens a
    [While] loop, which ends at [Wend].  So no valid tree has the leaves
    of [Do While c ... Loop] or of [Do Until c ... Loop]. *)
Theorem the_condition_of_a_do_loop_comes_after_loop
        (keyword : string) (c : expression) (body : list statement)
        (rest : list token) (g : source_file) :
  keyword = "While" \/ keyword = "Until" ->
  valid_statement (S_while_loop c body) = true ->
  valid_source_file g = true ->
  yield g <> Lit "Do" :: Lit keyword :: yield_expression c
               ++ flat_map yield_statement body ++ Lit "Loop" :: rest.
Proof.
  intros Hk Hw Hg E.
  apply (first_statement g) in E as (s & g' & -> & Hs & Hv & Hg' & E); [|exact Hg].
  by_first_token s Hs. cbn [valid_statement] in Hv, Hw. bools.
  cbn [yield_statement app] in E.
  repeat (rewrite <- app_assoc in E; cbn [app] in E).
  read_tokens E.
  destruct body0 as [|s1 body1].
  { cbn [flat_map app] in E. destruct tail; destruct Hk as [-> | ->];
      discriminate E. }
  cbn [flat_map] in E. rewrite <- app_assoc in E.
  destruct (yield_statement_first s1) as [r1 E1].
  pose proof E as E'. rewrite E1 in E'. cbn [app] in E'. injection E' as Hs1 _.
  destruct Hk as [-> | ->]; by_first_token s1 Hs1.
  cbn [forallb valid_statement] in *. bools.
  cbn [yield_statement app] in E.
  repeat (rewrite <- app_assoc in E; cbn [app] in E).
  read_tokens E.
  apply (expression_read_unambiguously condition) in E;
    [ destruct E as [_ E]
    | split; [apply valid_expression_prec_ok; assumption
             | apply ends_expression_statements; reflexivity]
    | split; [apply valid_expression_prec_ok; assumption
             | apply ends_expression_statements; reflexivity] ].
  apply (statements_read_unambiguously body0) in E;
    [ destruct E as [_ E]; discriminate E
    | apply all_statements_read_unambiguously
    | split; [assumption | split; [assumption | reflexivity]]
    | split; [assumption | split; [assumption | reflexivity]] ].
Qed.

Lemma the_condition_of_a_do_loop_comes_after_loop_witness :
  yield [S_do_loop [S_CallTable "T"] (Loop_While (E_identifier "a"))]
  <> [Lit "Do"; Lit "While"; Identifier "a"; Lit "CallTable"; Identifier "T";
      Lit "Loop"].
Proof.
  apply (the_condition_of_a_do_loop_comes_after_loop
           "While" (E_identifier "a") [S_CallTable "T"] []);
    [left; reflexivity | reflexivity | reflexivity].
Defined.

(** X23.  A [Case] takes one expression: after it come the statements of
    the case, the next [Case] or [EndSelect].  So no valid tree has the
    leaves of a [Case] with a list of values ([Case 1, 2]) or with a
    range ([Case 1 To 5]). *)
Theorem a_case_takes_one_expression
        (e v : expression) (separator : string) (rest : list token)
        (g : source_file) :
  prec_ok e = true -> prec_ok v = true ->
  separator = "," \/ separator = "To" ->
  valid_source_file g = true ->
  yield g <> Lit "Select" :: Lit "Case" :: yield_expression e
               ++ Lit "Case" :: yield_expression v ++ Lit separator :: rest.
Proof.
  intros He Hv' Hsep Hg E.
  apply (first_statement g) in E as (s & g' & -> & Hs & Hv & Hg' & E); [|exact Hg].
  by_first_token s Hs. cbn [valid_statement] in Hv. bools.
  cbn [yield_statement app] in E.
  repeat (rewrite <- app_assoc in E; cbn [app] in E).
  read_tokens E.
  apply (expression_read_unambiguously subject) in E;
    [ destruct E as [_ E]
    | split; [apply valid_expression_prec_ok; assumption
             | apply boundary_ends_expression;
               rewrite case_rest_closes by reflexivity; apply orb_true_r]
    | split; [exact He | reflexivity] ].
  destruct cases as [|[c b|c b|b] cases];
    cbn [flat_map yield_case_clause app forallb valid_case_clause] in *; bools;
    repeat (rewrite <- app_assoc in E; cbn [app] in E);
    try discriminate E; injection E as E.
  - apply (expression_read_unambiguously c) in E;
      [ destruct E as [_ E]
      | split; [apply valid_expression_prec_ok; assumption
               | apply ends_expression_statements, case_rest_closes; reflexivity]
      | split; [exact Hv' | destruct Hsep as [-> | ->]; reflexivity] ].
    revert E. apply not_boundary_not_statements;
      [apply case_rest_closes; reflexivity
      | destruct Hsep as [-> | ->]; reflexivity].
  - pose proof (starts_expression_yield v (Lit separator :: rest)) as S.
    rewrite <- E in S. discriminate S.
  - pose proof (starts_expression_yield v (Lit separator :: rest)) as S.
    rewrite <- E in S. discriminate S.
Qed.

Lemma a_case_takes_one_expression_witness :
  yield [S_select_statement (E_identifier "x") [Case_value (E_number "1") []]]
  <> [Lit "Select"; Lit "Case"; Identifier "x"; Lit "Case"; Number "1"; Lit ",";
      Number "2"; Lit "EndSelect"].
Proof.
  apply (a_case_takes_one_expression
           (E_identifier "x") (E_number "1") "," [Number "2"; Lit "EndSelect"]);
    [reflexivity | reflexivity | left; reflexivity | reflexivity].
Defined.

(** X24.  A statement that begins with an identifier is an assignment or
    a call: in the leaves of a valid tree an identifier at the beginning
    of a statement is followed by an assignment operator or by an open
    parenthesis.  A name alone is no statement. *)
Theorem after_the_name_an_operator_or_a_parenthesis
        (g : source_file) (x : string) (rest : list token) :
  valid_source_file g = true -> yield g = Identifier x :: rest ->
  exists (t : string) (rest' : list token),
    rest = Lit t :: rest'
    /\ In t ["="; "*="; "+="; "-="; "/="; "\="; "^="; "&="; "("].
Proof.
  intros Hg E.
  apply (first_statement g) in E as (s & g' & -> & Hs & Hv & Hg' & E); [|exact Hg].
  by_first_token s Hs; cbn [yield_statement app] in E; injection E as _ <-.
  - eexists _, _. split; [reflexivity|]. destruct op; cbn; tauto.
  - eexists _, _. split; [reflexivity|]. cbn; tauto.
Qed.

Lemma after_the_name_an_operator_or_a_parenthesis_witness :
  exists (t : string) (rest' : list token),
    [Lit "+="; Number "1"] = Lit t :: rest'
    /\ In t ["="; "*="; "+="; "-="; "/="; "\="; "^="; "&="; "("].
Proof.
  exact (after_the_name_an_operator_or_a_parenthesis
           [S_assignment "x" A_add (E_number "1")] "x" [Lit "+="; Number "1"]
           eq_refl eq_refl).
Defined.
